(** * Research_data: the incremental extraction-and-aggregation pipeline

    A shallow embedding of [scripts/collect_data.py] and
    [scripts/collect_data_new.py]: the natural sort key, the ChampSim
    metric extractor (regular-expression search, [int] and [float]
    conversion), the cache-aware scan loop of [main], and the synthesis
    and persistence of the report workbook; and, of
    [scripts/create_plots.py], the state machine that drives its dialogue.

    Conventions of the embedding.
    - Text is a [string] of 7-bit characters; on those, Python's Unicode
      aware classes ([\d], [\s], [str.isdigit], [str.lower]) are the ASCII
      ones written below.
    - A Python [dict] is an insertion-ordered association list ([Dict]).
    - A Python [float] read from text is kept as the exact decimal value
      the text denotes (a [Q]); the scripts only store and print floats.
    - Exceptions are explicit: a computation returns [Ok v] or [Raise e].
    - The filesystem and the terminal are explicit: what the run reads or
      is refused is an [Env], what it may write is a [Disk], and [main]
      maps a [Disk] to a [Disk], the list of printed messages and how the
      process ends. *)

From Stdlib Require Import List String Ascii Bool Arith ZArith QArith Lia.
From Stdlib Require Import Sorting.Sorted Sorting.Permutation.
Import ListNotations.

Close Scope Q_scope.
Open Scope nat_scope.
Open Scope string_scope.
Open Scope list_scope.

(* ================================================================== *)
(** * Part I. The embedding                                            *)
(* ================================================================== *)

(** ** Characters and strings *)

Module Text.

Definition code (c : ascii) : nat := nat_of_ascii c.

(** [0-9], which is [\d] and [str.isdigit] on 7-bit text. *)
Definition is_digit (c : ascii) : bool :=
  (48 <=? code c)%nat && (code c <=? 57)%nat.

(** [\s] on 7-bit text: tab, line feed, vertical tab, form feed, carriage
    return, the four separators 0x1c-0x1f, and space. *)
Definition is_space (c : ascii) : bool :=
  ((9 <=? code c)%nat && (code c <=? 13)%nat)
  || ((28 <=? code c)%nat && (code c <=? 32)%nat).

Definition newline : ascii := ascii_of_nat 10.

(** [.] without the DOTALL flag: anything but a line feed. *)
Definition is_dot (c : ascii) : bool := negb (Ascii.eqb c newline).

(** The class [[\d.]]. *)
Definition is_digit_or_dot (c : ascii) : bool :=
  is_digit c || Ascii.eqb c ".".

(** The class [[\d.inf-]]. *)
Definition is_accuracy_char (c : ascii) : bool :=
  is_digit c || Ascii.eqb c "." || Ascii.eqb c "i" || Ascii.eqb c "n"
  || Ascii.eqb c "f" || Ascii.eqb c "-".

Definition lower_char (c : ascii) : ascii :=
  if ((65 <=? code c)%nat && (code c <=? 90)%nat)%bool
  then ascii_of_nat (code c + 32) else c.

(** [str.lower]. *)
Fixpoint lower (s : string) : string :=
  match s with
  | EmptyString => EmptyString
  | String c s' => String (lower_char c) (lower s')
  end.

Fixpoint take (n : nat) (s : string) : string :=
  match n, s with
  | S n', String c s' => String c (take n' s')
  | _, _ => EmptyString
  end.

Fixpoint drop (n : nat) (s : string) : string :=
  match n, s with
  | S n', String _ s' => drop n' s'
  | _, _ => s
  end.

(** Length of the longest prefix of [s] whose characters all satisfy [p]. *)
Fixpoint span (p : ascii -> bool) (s : string) : nat :=
  match s with
  | String c s' => if p c then S (span p s') else O
  | EmptyString => O
  end.

Fixpoint all_chars (p : ascii -> bool) (s : string) : bool :=
  match s with
  | EmptyString => true
  | String c s' => p c && all_chars p s'
  end.

(** [strip_prefix l s] is the rest of [s] after the literal [l], if [s]
    starts with [l]. *)
Fixpoint strip_prefix (l s : string) : option string :=
  match l, s with
  | EmptyString, _ => Some s
  | String a l', String b s' =>
      if Ascii.eqb a b then strip_prefix l' s' else None
  | String _ _, EmptyString => None
  end.

Definition starts_with (l s : string) : bool :=
  match strip_prefix l s with Some _ => true | None => false end.

(** [sep.join(parts)]. *)
Fixpoint join (sep : string) (parts : list string) : string :=
  match parts with
  | [] => ""
  | [p] => p
  | p :: ps => p ++ sep ++ join sep ps
  end.

(** The text after the last ["/"]: [os.path.basename]. *)
Fixpoint basename_aux (s acc : string) : string :=
  match s with
  | EmptyString => acc
  | String c s' =>
      if Ascii.eqb c "/" then basename_aux s' ""
      else basename_aux s' (acc ++ String c "")
  end.

Definition basename (path : string) : string := basename_aux path "".

(** Lexicographic order on strings by character code: Python's [<] on
    [str]. *)
Fixpoint ltb (a b : string) : bool :=
  match a, b with
  | _, EmptyString => false
  | EmptyString, String _ _ => true
  | String x a', String y b' =>
      if (code x <? code y)%nat then true
      else if (code y <? code x)%nat then false
      else ltb a' b'
  end.

End Text.

(** ** Regular expressions

    The patterns of the scripts are sequences of literals, greedy
    one-or-more runs of a character class (captured or not) and the lazy
    [.*?]. [match_here] is the backtracking matcher of Python's [re] on
    such sequences: a greedy run tries its longest extent first, the lazy
    run its shortest, and the first success wins. *)

Module Regex.
Import Text.

(** The character classes of the scripts' patterns. *)
Inductive cclass : Type :=
| Digit          (* \d *)
| Space          (* \s *)
| DigitOrDot     (* [\d.] *)
| AccuracyChar.  (* [\d.inf-] *)

Definition in_class (cls : cclass) : ascii -> bool :=
  match cls with
  | Digit => is_digit
  | Space => is_space
  | DigitOrDot => is_digit_or_dot
  | AccuracyChar => is_accuracy_char
  end.

Inductive item : Type :=
| Lit (l : string)       (* literal text *)
| Plus (cls : cclass)    (* cls+ , not captured *)
| Group (cls : cclass)   (* (cls+) , captured *)
| LazyDots.              (* .*? *)

Definition regex := list item.

(** The first [Some] among [f k], [f (k-1)], ..., [f 1]. *)
Fixpoint first_down {A} (f : nat -> option A) (k : nat) : option A :=
  match k with
  | O => None
  | S k' => match f k with Some r => Some r | None => first_down f k' end
  end.

(** The first [Some] among [f k], [f (k+1)], ..., [f (k+n)]. *)
Fixpoint first_up {A} (f : nat -> option A) (k n : nat) : option A :=
  match f k with
  | Some r => Some r
  | None => match n with O => None | S n' => first_up f (S k) n' end
  end.

(** Match [re] at the start of [s]; the result lists the captured groups
    in order. *)
Fixpoint match_here (re : regex) (s : string) {struct re}
  : option (list string) :=
  match re with
  | [] => Some []
  | Lit l :: re' =>
      match strip_prefix l s with
      | Some rest => match_here re' rest
      | None => None
      end
  | Plus cls :: re' =>
      first_down (fun k => match_here re' (drop k s)) (span (in_class cls) s)
  | Group cls :: re' =>
      first_down
        (fun k => option_map (cons (take k s)) (match_here re' (drop k s)))
        (span (in_class cls) s)
  | LazyDots :: re' =>
      first_up (fun k => match_here re' (drop k s)) 0 (span is_dot s)
  end.

(** [re.search]: the match at the leftmost position that has one. *)
Fixpoint search (re : regex) (s : string) {struct s} : option (list string) :=
  match match_here re s with
  | Some groups => Some groups
  | None =>
      match s with
      | EmptyString => None
      | String _ s' => search re s'
      end
  end.

(** The classes of the groups of a pattern, in order. *)
Fixpoint group_classes (re : regex) : list cclass :=
  match re with
  | [] => []
  | Group cls :: re' => cls :: group_classes re'
  | _ :: re' => group_classes re'
  end.

(** [m.group(i)], [i] counted from 1. *)
Definition group (groups : list string) (i : nat) : string :=
  nth (i - 1) groups "".

End Regex.


(** ** Exceptions, numbers and values *)

Module Py.
Import Text.

(** The exceptions the scripts can meet. *)
Inductive exn : Type :=
| ValueError     (* int() or float() on text that is no number *)
| OtherError.    (* anything else caught by [except Exception] *)

Inductive result (A : Type) : Type :=
| Ok (a : A)
| Raise (e : exn).
Arguments Ok {A} a.
Arguments Raise {A} e.

Definition bind {A B} (r : result A) (k : A -> result B) : result B :=
  match r with
  | Ok a => k a
  | Raise e => Raise e
  end.

Notation "x <- r ;; k" := (bind r (fun x => k))
  (at level 61, r at next level, right associativity).

(** A float as the exact value its text denotes. *)
Inductive pyfloat : Type :=
| Finite (q : Q)
| Infinity (negative : bool)
| NaN.

Definition digit_value (c : ascii) : N := N.of_nat (code c - 48).

(** Value of a run of decimal digits, most significant first. *)
Fixpoint digits_value (s : string) (acc : N) : N :=
  match s with
  | EmptyString => acc
  | String c s' => digits_value s' (10 * acc + digit_value c)
  end.

Definition nonempty (s : string) : bool :=
  match s with EmptyString => false | String _ _ => true end.

Definition is_number (s : string) : bool := nonempty s && all_chars is_digit s.

(** An optional sign in front of [s]: whether it is a minus, and the rest. *)
Definition split_sign (s : string) : bool * string :=
  match s with
  | String "-" s' => (true, s')
  | String "+" s' => (false, s')
  | _ => (false, s)
  end.

(** [int(text)]: an optional sign and decimal digits. (Surrounding blanks
    and underscores, which [int] also accepts, cannot occur in text
    captured by [(\d+)] and are not modelled.) *)
Definition int (text : string) : result Z :=
  let (neg, body) := split_sign text in
  if is_number body
  then Ok (if neg then (- Z.of_N (digits_value body 0))%Z
           else Z.of_N (digits_value body 0))
  else Raise ValueError.

Fixpoint pow10 (n : nat) : positive :=
  match n with
  | O => 1%positive
  | S n' => (10 * pow10 n')%positive
  end.

(** The digits before the first ["."], and the text after it if there is
    one. *)
Fixpoint split_dot (s : string) : string * option string :=
  match s with
  | EmptyString => (EmptyString, None)
  | String c s' =>
      if Ascii.eqb c "." then (EmptyString, Some s')
      else let (a, b) := split_dot s' in (String c a, b)
  end.

(** A decimal numeral: digits with at most one point and at least one
    digit. *)
Definition decimal (s : string) : option Q :=
  match split_dot s with
  | (ip, None) =>
      if is_number ip then Some (Qmake (Z.of_N (digits_value ip 0)) 1) else None
  | (ip, Some fp) =>
      if all_chars is_digit ip && all_chars is_digit fp
         && (nonempty ip || nonempty fp)
      then Some (Qmake (Z.of_N (digits_value (ip ++ fp)%string 0)) (pow10 (String.length fp)))
      else None
  end.

(** [float(text)]: an optional sign, then [inf], [infinity], [nan] (in any
    case) or a decimal numeral. (Exponents, surrounding blanks and
    underscores cannot occur in text captured by [[\d.]+] or
    [[\d.inf-]+] and are not modelled.) *)
Definition float (text : string) : result pyfloat :=
  let (neg, body) := split_sign text in
  let word := lower body in
  if String.eqb word "inf" || String.eqb word "infinity" then Ok (Infinity neg)
  else if String.eqb word "nan" then Ok NaN
  else match decimal body with
       | Some q => Ok (Finite (if neg then Qopp q else q))
       | None => Raise ValueError
       end.

(** What a metrics dictionary holds under a key. *)
Inductive value : Type :=
| VNone
| VInt (n : Z)
| VFloat (f : pyfloat)
| VStr (s : string).

End Py.

(** ** Insertion-ordered dictionaries with string keys *)

Module Dict.

Definition dict (V : Type) : Type := list (string * V).

Definition empty {V} : dict V := [].

(** [d.get(k)]. *)
Fixpoint get {V} (k : string) (d : dict V) : option V :=
  match d with
  | [] => None
  | (k', v) :: d' => if String.eqb k k' then Some v else get k d'
  end.

(** [k in d]. *)
Definition mem {V} (k : string) (d : dict V) : bool :=
  match get k d with Some _ => true | None => false end.

(** [d[k] = v]: a present key keeps its place, a new one goes last. *)
Fixpoint set {V} (k : string) (v : V) (d : dict V) : dict V :=
  match d with
  | [] => [(k, v)]
  | (k', v') :: d' =>
      if String.eqb k k' then (k', v) :: d' else (k', v') :: set k v d'
  end.

(** [d.pop(k, None)], the value dropped. *)
Definition remove {V} (k : string) (d : dict V) : dict V :=
  filter (fun e => negb (String.eqb k (fst e))) d.

Definition keys {V} (d : dict V) : list string := map fst d.
Definition values {V} (d : dict V) : list V := map snd d.

End Dict.

(** ** The metric extractor

    [parse_champsim_file] is a sequence of blocks of one shape,
    [m = re.search(pat, content); if m: metrics[k1] = conv1(m.group(i1)); ...].
    A [rule] is one such block; the rule lists below follow the source
    block by block. *)

Module Extract.
Import Text Regex Py.

Definition metrics : Type := Dict.dict value.

(** How a captured group becomes a value. *)
Inductive conv : Type :=
| AsInt           (* int(m.group(i)) *)
| AsFloat         (* float(m.group(i)) *)
| AsFloatOrText.  (* try: float(s)  except ValueError: s *)

Record field : Type := Field {
  f_key : string;   (* the key of [metrics] assigned *)
  f_group : nat;    (* which group of the match *)
  f_conv : conv
}.

Record rule : Type := Rule {
  r_pattern : regex;
  r_fields : list field
}.

Definition convert (c : conv) (text : string) : result value :=
  match c with
  | AsInt => n <- int text ;; Ok (VInt n)
  | AsFloat => x <- float text ;; Ok (VFloat x)
  | AsFloatOrText =>
      match float text with
      | Ok x => Ok (VFloat x)
      | Raise ValueError => Ok (VStr text)
      | Raise e => Raise e
      end
  end.

(** The assignments of one block, in order; the first conversion that
    raises ends them. *)
Fixpoint assign (fs : list field) (groups : list string) (m : metrics)
  : result metrics :=
  match fs with
  | [] => Ok m
  | f :: fs' =>
      v <- convert (f_conv f) (group groups (f_group f)) ;;
      assign fs' groups (Dict.set (f_key f) v m)
  end.

Definition apply_rule (content : string) (r : rule) (m : metrics)
  : result metrics :=
  match search (r_pattern r) content with
  | Some groups => assign (r_fields r) groups m
  | None => Ok m
  end.

Fixpoint apply_rules (content : string) (rs : list rule) (m : metrics)
  : result metrics :=
  match rs with
  | [] => Ok m
  | r :: rs' => m' <- apply_rule content r m ;; apply_rules content rs' m'
  end.

(** [{key: None for key in names}], after the ["Trace File"] entry. *)
Definition initial_metrics (trace_file : value) (names : list string)
  : metrics :=
  ("Trace File", trace_file) :: map (fun k => (k, VNone)) names.

(** [<label>\s+ACCESS:\s+(\d+)\s+HIT:\s+(\d+)\s+MISS:\s+(\d+).*?MPKI:\s+([\d.]+)] *)
Definition access_re (label : string) : regex :=
  [Lit label; Plus Space; Lit "ACCESS:"; Plus Space; Group Digit;
   Plus Space; Lit "HIT:"; Plus Space; Group Digit;
   Plus Space; Lit "MISS:"; Plus Space; Group Digit;
   LazyDots; Lit "MPKI:"; Plus Space; Group DigitOrDot].

(** [<label>\s+([\d.]+)] *)
Definition decimal_re (label : string) : regex :=
  [Lit label; Plus Space; Group DigitOrDot].

(** [<label>\s+(\d+)] *)
Definition count_re (label : string) : regex :=
  [Lit label; Plus Space; Group Digit].

Definition ipc_rule : rule :=
  Rule (decimal_re "CPU 0 cumulative IPC:") [Field "IPC" 1 AsFloat].

End Extract.

(** *** [collect_data.py] *)

Module CollectData.
Import Text Regex Py Extract.

Definition metric_names : list string :=
  ["IPC";
   "LLC Total Access"; "LLC Total Hits"; "LLC Total Misses"; "LLC Total MPKI";
   "LLC Load Access"; "LLC Load Hit"; "LLC Load Miss"; "LLC Load MPKI";
   "L2C Data Load MPKI";
   "L1D Prefetch Requested"; "L1D Prefetch Issued"; "L1D Prefetch Useful";
   "L1D Prefetch Useless";
   "L1D Useful Load Prefetches";
   "L1D Timely Prefetches"; "L1D Late Prefetches"; "L1D Dropped Prefetches";
   "LLC Average Miss Latency"].

Definition llc_total_rule : rule :=
  Rule (access_re "LLC TOTAL")
    [Field "LLC Total Access" 1 AsInt; Field "LLC Total Hits" 2 AsInt;
     Field "LLC Total Misses" 3 AsInt; Field "LLC Total MPKI" 4 AsFloat].

Definition llc_load_rule : rule :=
  Rule (access_re "LLC LOAD")
    [Field "LLC Load Access" 1 AsInt; Field "LLC Load Hit" 2 AsInt;
     Field "LLC Load Miss" 3 AsInt; Field "LLC Load MPKI" 4 AsFloat].

Definition l2c_data_load_mpki_rule : rule :=
  Rule (decimal_re "L2C DATA LOAD MPKI:")
    [Field "L2C Data Load MPKI" 1 AsFloat].

(** [L1D PREFETCH\s+REQUESTED:\s+(\d+)\s+ISSUED:\s+(\d+)\s+USEFUL:\s+(\d+)\s+USELESS:\s+(\d+)] *)
Definition l1d_prefetch_rule : rule :=
  Rule [Lit "L1D PREFETCH"; Plus Space; Lit "REQUESTED:"; Plus Space;
        Group Digit; Plus Space; Lit "ISSUED:"; Plus Space;
        Group Digit; Plus Space; Lit "USEFUL:"; Plus Space;
        Group Digit; Plus Space; Lit "USELESS:"; Plus Space;
        Group Digit]
    [Field "L1D Prefetch Requested" 1 AsInt;
     Field "L1D Prefetch Issued" 2 AsInt;
     Field "L1D Prefetch Useful" 3 AsInt;
     Field "L1D Prefetch Useless" 4 AsInt].

Definition l1d_useful_load_rule : rule :=
  Rule (count_re "L1D USEFUL LOAD PREFETCHES:")
    [Field "L1D Useful Load Prefetches" 1 AsInt].

(** [L1D TIMELY PREFETCHES:\s+(\d+)\s+LATE PREFETCHES:\s+(\d+)\s+DROPPED PREFETCHES:\s+(\d+)] *)
Definition l1d_timely_rule : rule :=
  Rule [Lit "L1D TIMELY PREFETCHES:"; Plus Space; Group Digit;
        Plus Space; Lit "LATE PREFETCHES:"; Plus Space; Group Digit;
        Plus Space; Lit "DROPPED PREFETCHES:"; Plus Space;
        Group Digit]
    [Field "L1D Timely Prefetches" 1 AsInt;
     Field "L1D Late Prefetches" 2 AsInt;
     Field "L1D Dropped Prefetches" 3 AsInt].

Definition llc_latency_rule : rule :=
  Rule (decimal_re "LLC AVERAGE MISS LATENCY:")
    [Field "LLC Average Miss Latency" 1 AsFloat].

(** The blocks of [parse_champsim_file], in source order. *)
Definition rules : list rule :=
  [ipc_rule; llc_total_rule; llc_load_rule; l2c_data_load_mpki_rule;
   l1d_prefetch_rule; l1d_useful_load_rule; l1d_timely_rule;
   llc_latency_rule].

(** The body of [parse_champsim_file] once the file has been read. *)
Definition parse_content (filepath content : string) : result metrics :=
  apply_rules content rules
    (initial_metrics (VStr (basename filepath)) metric_names).

(** [parse_champsim_file(filepath)], [read] being the filesystem: [None]
    is the [IOError] of [open], which the function catches to return
    [None]; a [ValueError] of a conversion is not caught. *)
Definition parse_champsim_file (read : string -> option string)
    (filepath : string) : result (option metrics) :=
  match read filepath with
  | None => Ok None
  | Some content => m <- parse_content filepath content ;; Ok (Some m)
  end.

End CollectData.

(** *** [collect_data_new.py] *)

Module CollectDataNew.
Import Text Regex Py Extract.
Local Open Scope string_scope.

Definition level_names (level : string) : list string :=
  map (fun suffix => level ++ suffix)
    [" Total Access"; " Total Hit"; " Total Miss"; " Total MPKI";
     " Prefetch Access"; " Prefetch Issued"; " Prefetch Useful";
     " Prefetch Accuracy"; " Average Miss Latency"].

Definition metric_names : list string :=
  ("IPC" :: level_names "L1D" ++ level_names "L2C" ++ level_names "LLC")%list.

(** [<level> PREFETCH\s+REQUESTED:\s+\d+\s+ISSUED:\s+(\d+)\s+USEFUL:\s+(\d+)] *)
Definition prefetch_re (level : string) : regex :=
  [Lit (level ++ " PREFETCH"); Plus Space; Lit "REQUESTED:"; Plus Space;
   Plus Digit; Plus Space; Lit "ISSUED:"; Plus Space; Group Digit;
   Plus Space; Lit "USEFUL:"; Plus Space; Group Digit].

(** [<level> USEFUL LOAD PREFETCHES:.*?ACCURACY:\s+([\d.inf-]+)] *)
Definition accuracy_re (level : string) : regex :=
  [Lit (level ++ " USEFUL LOAD PREFETCHES:"); LazyDots; Lit "ACCURACY:";
   Plus Space; Group AccuracyChar].

(** The six blocks of one cache level; the source writes them out for
    L1D, L2C and LLC in turn. *)
Definition level_rules (level : string) : list rule :=
  [Rule (access_re (level ++ " TOTAL"))
     [Field (level ++ " Total Access") 1 AsInt;
      Field (level ++ " Total Hit") 2 AsInt;
      Field (level ++ " Total Miss") 3 AsInt;
      Field (level ++ " Total MPKI") 4 AsFloat];
   Rule [Lit (level ++ " PREFETCH"); Plus Space; Lit "ACCESS:";
         Plus Space; Group Digit]
     [Field (level ++ " Prefetch Access") 1 AsInt];
   Rule (prefetch_re level)
     [Field (level ++ " Prefetch Issued") 1 AsInt;
      Field (level ++ " Prefetch Useful") 2 AsInt];
   Rule (accuracy_re level)
     [Field (level ++ " Prefetch Accuracy") 1 AsFloatOrText];
   Rule (decimal_re (level ++ " AVERAGE MISS LATENCY:"))
     [Field (level ++ " Average Miss Latency") 1 AsFloat]].

Definition rules : list rule :=
  (ipc_rule :: level_rules "L1D" ++ level_rules "L2C" ++ level_rules "LLC")%list.

Definition parse_content (filepath content : string) : result metrics :=
  apply_rules content rules
    (initial_metrics (VStr (basename filepath)) metric_names).

(** [parse_champsim_file(None)]: the canonical column names. *)
Definition headers : list string :=
  Dict.keys (initial_metrics VNone metric_names).

(** [parse_champsim_file(filepath)] for a path that is not empty. *)
Definition parse_champsim_file (read : string -> option string)
    (filepath : string) : result (option metrics) :=
  match read filepath with
  | None => Ok None
  | Some content => m <- parse_content filepath content ;; Ok (Some m)
  end.

End CollectDataNew.

(** ** [sorted] and the natural sort key *)

Module Sort.

(** [sorted(l)] with [lt] as the [<] of the elements: a stable insertion
    sort, which like Python's sort only ever asks whether one element is
    less than another and keeps equal elements in their order. *)
Fixpoint insert {A} (lt : A -> A -> bool) (x : A) (l : list A) : list A :=
  match l with
  | [] => [x]
  | y :: l' => if lt y x then y :: insert lt x l' else x :: y :: l'
  end.

Fixpoint sorted {A} (lt : A -> A -> bool) (l : list A) : list A :=
  match l with
  | [] => []
  | x :: l' => insert lt x (sorted lt l')
  end.

(** [sorted(l, key=key)]. *)
Definition sorted_by {A K} (key : A -> K) (lt : K -> K -> bool) (l : list A)
  : list A :=
  sorted (fun a b => lt (key a) (key b)) l.

End Sort.

Module NaturalSort.
Import Text.

(** [re.split('([0-9]+)', s)]: the pieces of [s] between its maximal runs
    of digits, with the runs themselves in between. [cur] is the piece
    being read, [in_digits] whether it is a run of digits. *)
Fixpoint split_aux (s : string) (in_digits : bool) (cur : string)
  : list string :=
  match s with
  | EmptyString => if in_digits then [cur; ""] else [cur]
  | String c s' =>
      if is_digit c then
        if in_digits then split_aux s' true (cur ++ String c "")
        else cur :: split_aux s' true (String c "")
      else
        if in_digits then cur :: split_aux s' false (String c "")
        else split_aux s' false (cur ++ String c "")
  end.

Definition split_digits (s : string) : list string := split_aux s false "".

(** An element of a sort key: an [int] or a [str]. *)
Inductive part : Type :=
| PInt (n : N)
| PStr (s : string).

Definition key : Type := list part.

(** [int(text) if text.isdigit() else text.lower()] *)
Definition part_of (text : string) : part :=
  if Py.is_number text then PInt (Py.digits_value text 0)
  else PStr (lower text).

Definition natural_sort_key (s : string) : key :=
  map part_of (split_digits s).

(** [<] between two elements. Python raises [TypeError] between an [int]
    and a [str]; keys of [natural_sort_key] have a [str] at every even
    index and an [int] at every odd one (lemma [natural_sort_key_shape]),
    so that case never arises between them; here an [int] is then put
    before a [str], which keeps the order total. *)
Definition part_ltb (a b : part) : bool :=
  match a, b with
  | PInt n, PInt m => (n <? m)%N
  | PStr s, PStr t => ltb s t
  | PInt _, PStr _ => true
  | PStr _, PInt _ => false
  end.

(** [<] between two lists: decided by the first index at which they
    differ, a proper prefix being smaller. *)
Fixpoint key_ltb (a b : key) : bool :=
  match a, b with
  | _, [] => false
  | [], _ :: _ => true
  | x :: a', y :: b' =>
      if part_ltb x y then true
      else if part_ltb y x then false
      else key_ltb a' b'
  end.

(** [sorted(names, key=natural_sort_key)] *)
Definition natural_sorted (names : list string) : list string :=
  Sort.sorted_by natural_sort_key key_ltb names.

(** A [str] at even indices, an [int] at odd ones. *)
Fixpoint shape (expect_int : bool) (k : key) : bool :=
  match k with
  | [] => true
  | PInt _ :: k' => expect_int && shape false k'
  | PStr _ :: k' => negb expect_int && shape true k'
  end.

End NaturalSort.

(** ** The report workbook

    A workbook is the ordered list of its titled sheets; a sheet is its
    cells (position, value, style) and its sheet-level layout (merged
    ranges, frozen panes, row and column sizes). Styles and layout are
    opaque numbers, [0] the default: the scripts' fonts, fills, borders,
    alignments and sizes are presentation and are not followed here. *)

Module Report.
Import Text Py Extract.
Local Open Scope string_scope.

Record cell : Type := Cell {
  c_row : nat;
  c_col : nat;
  c_value : value;
  c_style : nat
}.

Record worksheet : Type := Worksheet {
  ws_cells : list cell;
  ws_layout : nat
}.

Definition workbook : Type := list (string * worksheet).

(** [book.sheetnames] *)
Definition sheetnames (book : workbook) : list string := map fst book.

(** [book[title]] *)
Definition sheet (title : string) (book : workbook) : option worksheet :=
  Dict.get title book.

(** [book.remove(book[title])] *)
Definition remove_sheet (title : string) (book : workbook) : workbook :=
  filter (fun s => negb (String.eqb title (fst s))) book.

(** [book.create_sheet(title=title)], filled with [ws]. The scripts never
    create a title the book already holds, so openpyxl's renaming of a
    duplicate title does not come into play. *)
Definition create_sheet (title : string) (ws : worksheet) (book : workbook)
  : workbook :=
  (book ++ [(title, ws)])%list.

(** The pipeline-owned sheets are those titled [raw_...]. *)
Definition owned (title : string) : bool := starts_with "raw_" title.

Definition sheet_name (group_key : string) : string := "raw_" ++ group_key.

(** *** Header texts *)

Definition upper_char (c : ascii) : ascii :=
  if ((97 <=? code c)%nat && (code c <=? 122)%nat)%bool
  then ascii_of_nat (code c - 32) else c.

Definition is_alpha (c : ascii) : bool :=
  ((65 <=? code c)%nat && (code c <=? 90)%nat)
  || ((97 <=? code c)%nat && (code c <=? 122)%nat).

Fixpoint upper (s : string) : string :=
  match s with
  | EmptyString => EmptyString
  | String c s' => String (upper_char c) (upper s')
  end.

Definition capitalize (s : string) : string :=
  match s with
  | EmptyString => EmptyString
  | String c s' => String (upper_char c) (lower s')
  end.

(** [str.title]: a letter is upper-cased after a non-letter and
    lower-cased after a letter. *)
Fixpoint title_aux (after_letter : bool) (s : string) : string :=
  match s with
  | EmptyString => EmptyString
  | String c s' =>
      String (if after_letter then lower_char c else upper_char c)
             (title_aux (is_alpha c) s')
  end.

Definition title (s : string) : string := title_aux false s.

(** [s.split(sep)] for a one-character [sep]. *)
Fixpoint split (sep : ascii) (s : string) : list string :=
  match s with
  | EmptyString => [""]
  | String c s' =>
      if Ascii.eqb c sep then "" :: split sep s'
      else match split sep s' with
           | p :: ps => String c p :: ps
           | [] => [String c ""]
           end
  end.

Fixpoint replace_char (a b : ascii) (s : string) : string :=
  match s with
  | EmptyString => EmptyString
  | String c s' => String (if Ascii.eqb c a then b else c) (replace_char a b s')
  end.

Fixpoint filter_chars (p : ascii -> bool) (s : string) : string :=
  match s with
  | EmptyString => EmptyString
  | String c s' => if p c then String c (filter_chars p s') else filter_chars p s'
  end.

Definition main_header_text (group_key : string) : string :=
  if String.eqb group_key "no_pref" then "Baseline (No Prefetcher)"
  else
    let parts := split "_" group_key in
    let cache_level_str := match parts with _ :: p1 :: _ => upper p1 | _ => "" end in
    let prefetcher_name :=
      match parts with
      | _ :: _ :: ((_ :: _) as rest) => capitalize (join "_" rest)
      | p0 :: _ => capitalize p0
      | [] => ""
      end in
    "Data Prefetcher: " ++ prefetcher_name ++ " at " ++ cache_level_str.

(** The [try] reads [exp_parts[1]] and [exp_parts[2]]; the [IndexError]
    of a name with fewer than three parts selects the fallback. *)
Definition exp_header_text (experiment : string) : string :=
  match split "_" experiment with
  | p0 :: p1 :: p2 :: _ =>
      "Experiment " ++ filter_chars is_digit p0 ++ ": Replacement Policy "
      ++ upper p1 ++ " at L2 and " ++ upper p2 ++ " at LLC"
  | _ => title (replace_char "_" " " experiment)
  end.

(** *** The data frame of one group *)

(** [record["Experiment"]] as the sort key and the row filter need it: a
    record without a string there makes pandas or [natural_sort_key]
    raise. *)
Definition experiment_of (record : metrics) : result string :=
  match Dict.get "Experiment" record with
  | Some (VStr e) => Ok e
  | _ => Raise OtherError
  end.

Fixpoint experiment_column (records : list metrics) : result (list string) :=
  match records with
  | [] => Ok []
  | r :: rs =>
      e <- experiment_of r ;;
      es <- experiment_column rs ;;
      Ok (e :: es)
  end.

(** [Series.unique]: the distinct values in order of first appearance. *)
Fixpoint unique (l : list string) : list string :=
  match l with
  | [] => []
  | x :: l' => x :: filter (fun y => negb (String.eqb x y)) (unique l')
  end.

(** [sorted(df['Experiment'].unique(), key=natural_sort_key)] *)
Definition experiments (records : list metrics) : result (list string) :=
  es <- experiment_column records ;;
  Ok (NaturalSort.natural_sorted (unique es)).

(** [df[df['Experiment'] == experiment]] *)
Definition rows_of (experiment : string) (records : list metrics)
  : list metrics :=
  filter (fun r => match Dict.get "Experiment" r with
                   | Some (VStr e) => String.eqb e experiment
                   | _ => false
                   end) records.

(** *** Writing a pipeline-owned sheet *)

(** The layout the scripts give their sheets (merged header ranges, frozen
    panes, row heights, column widths). *)
Definition raw_layout : nat := 1.

(** [worksheet.cell(row, col + i, value=vals[i])] for the values of one
    row. *)
Fixpoint write_row (row col : nat) (vals : list value) : list cell :=
  match vals with
  | [] => []
  | v :: vs => Cell row col v 0 :: write_row row (S col) vs
  end.

Fixpoint write_rows (row : nat) (rows : list (list value)) : list cell :=
  match rows with
  | [] => []
  | r :: rs => (write_row row 1 r ++ write_rows (S row) rs)%list
  end.

(** One turn of the loop [for experiment in experiments]: the row of the
    experiment's header, the experiment, and the cells of its records. *)
Record block : Type := Block {
  b_header_row : nat;
  b_experiment : string;
  b_rows : list cell
}.

(** The loop [for experiment in experiments]: a gap row after the first
    block, the experiment's header on row [current_row + 1], its records
    from row [current_row + 2]. *)
Fixpoint experiment_blocks (row_values : metrics -> list value)
    (records : list metrics) (exps : list string) (current_row : nat)
  : list block :=
  match exps with
  | [] => []
  | experiment :: exps' =>
      let df_experiment := rows_of experiment records in
      let current_row :=
        if (3 <? current_row)%nat then current_row + 1 else current_row in
      Block (current_row + 1) experiment
            (write_rows (current_row + 2) (map row_values df_experiment))
        :: experiment_blocks row_values records exps'
             (current_row + 1 + List.length df_experiment)
  end.

Definition block_cells (b : block) : list cell :=
  Cell (b_header_row b) 1 (VStr (exp_header_text (b_experiment b))) 0
    :: b_rows b.

Definition write_experiments (row_values : metrics -> list value)
    (records : list metrics) (exps : list string) (current_row : nat)
  : list cell :=
  flat_map block_cells (experiment_blocks row_values records exps current_row).

(** The sheet of one group: main header on row 1, column names on row 3,
    then the experiments in natural order. *)
Definition render_sheet (columns : list string)
    (row_values : metrics -> list value) (group_key : string)
    (records : list metrics) : result worksheet :=
  exps <- experiments records ;;
  Ok (Worksheet
        (Cell 1 1 (VStr (main_header_text group_key)) 0
           :: write_row 3 1 (map VStr columns)
           ++ write_experiments row_values records exps 3)%list
        raw_layout).

End Report.

(** ** The run: filesystem, terminal and [main] *)

Module Pipeline.
Import Text Py Extract Report.
Local Open Scope string_scope.

(** A modification time as [os.path.getmtime] returns it; the scripts
    only compare two of them for equality. *)
Definition mtime : Type := Z.

(** A file that holds a document: absent, present but unreadable as such a
    document, or holding one. *)
Inductive stored (A : Type) : Type :=
| Missing
| Corrupt
| Stored (a : A).
Arguments Missing {A}.
Arguments Corrupt {A}.
Arguments Stored {A} a.

(** How an attempt to write a file ends: written in full; refused, the
    file untouched; or broken off, the file left unreadable. *)
Inductive write_outcome : Type :=
| WriteOk
| WriteRefused
| WritePartial.

(** What a run finds and cannot change: the results tree as [os.walk]
    lists it ([None] when [RESULTS_DIR] is no directory; otherwise, for
    each directory in visiting order, the segments of its path relative to
    [RESULTS_DIR] and the names of its files), the modification time and
    the text of each file by path ([None]: [open] or [read] raises
    [IOError]), and how each write of the run will end. *)
Record Env : Type := {
  walk : option (list (list string * list string));
  getmtime : string -> mtime;
  read : string -> option string;
  json_write : string -> write_outcome;
  book_save : string -> workbook -> write_outcome;
  move : write_outcome
}.

(** What a run can change: the output directory and the files in it, and
    the temporary workbook of [collect_data_new.py]. *)
Record Disk : Type := {
  output_dir : bool;
  processed_log : stored (Dict.dict mtime);
  data_cache : stored (Dict.dict (Dict.dict metrics));
  report : stored workbook;
  temp_report : stored workbook
}.

(** The lines a run prints. *)
Inductive msg : Type :=
| MsgDirNotFound                        (* Error: Directory ... not found. *)
| MsgStartScan
| MsgProcessingDir (relative_path : string)
| MsgReadError (filepath : string)      (* Error reading file ... *)
| MsgScanComplete (new_files skipped_files : nat)
| MsgUpToDate                           (* Output is already up-to-date. *)
| MsgUpdating
| MsgPreserving (sheet_name : string)
| MsgLoadWarning                        (* Warning: Could not load or copy sheets ... *)
| MsgGroup (group_key : string)
| MsgSheetDone (sheet_name : string)
| MsgSaveWarning (file_path : string)   (* Warning: Could not save the cache/log file ... *)
| MsgSuccess
| MsgWriteError.                        (* An error occurred while writing the Excel file ... *)

(** The lines that report the failure of the run; a file that cannot be
    read has a line of its own, [MsgReadError], and the run goes on. *)
Definition is_error (m : msg) : bool :=
  match m with
  | MsgDirNotFound | MsgWriteError => true
  | _ => false
  end.

(** How the process ends: [main] returns, or an exception nobody catches
    leaves it. *)
Inductive outcome : Type :=
| Returned (disk : Disk) (printed : list msg)
| Crashed (disk : Disk) (e : exn).

(** The completion status of the process: [main()] is the last statement
    of the script and nothing calls [sys.exit], so a run that returns
    ends with status 0; an uncaught exception ends it with status 1. *)
Definition exit_status (o : outcome) : Z :=
  match o with
  | Returned _ _ => 0%Z
  | Crashed _ _ => 1%Z
  end.

Definition disk_of (o : outcome) : Disk :=
  match o with
  | Returned d _ => d
  | Crashed d _ => d
  end.

(** [load_json_data]: a missing or corrupt file gives [{}]. *)
Definition load_json_data {V} (file : stored (Dict.dict V)) : Dict.dict V :=
  match file with
  | Stored d => d
  | Missing | Corrupt => Dict.empty
  end.

(** [save_json_data]: the [IOError] of a failed write is caught and
    reported as a warning. *)
Definition save_json_data {V} (env : Env) (file_path : string)
    (data : Dict.dict V) (file : stored (Dict.dict V))
  : stored (Dict.dict V) * list msg :=
  match json_write env file_path with
  | WriteOk => (Stored data, [])
  | WriteRefused => (file, [MsgSaveWarning file_path])
  | WritePartial => (Corrupt, [MsgSaveWarning file_path])
  end.

(** The configuration block at the head of [main]. *)
Record config : Type := {
  RESULTS_DIR : string;
  EXCEL_OUTPUT_PATH : string;   (* os.path.join(OUTPUT_DIR, EXCEL_OUTPUT_FILE) *)
  TEMP_OUTPUT_PATH : string;
  PROCESSED_LOG_FILE : string;
  DATA_CACHE_FILE : string
}.

(** *** The scan loop (the same text in both scripts) *)

Record scan_state : Type := {
  data_by_prefetcher : Dict.dict (Dict.dict metrics);
  processed_files_log : Dict.dict mtime;
  new_files_count : nat;
  skipped_files_count : nat;
  announced_dirs : list string;
  printed_lines : list msg;
  parse_calls : list string   (* the paths [parse_champsim_file] was called on *)
}.

Definition initial_state (log : Dict.dict mtime) : scan_state :=
  {| data_by_prefetcher := Dict.empty;
     processed_files_log := log;
     new_files_count := 0;
     skipped_files_count := 0;
     announced_dirs := [];
     printed_lines := [];
     parse_calls := [] |}.

(** [data[group_key][filepath] = record] on a [defaultdict(dict)]. *)
Definition set_record (group_key filepath : string) (record : metrics)
    (data : Dict.dict (Dict.dict metrics)) : Dict.dict (Dict.dict metrics) :=
  let group := match Dict.get group_key data with
               | Some g => g
               | None => Dict.empty
               end in
  Dict.set group_key (Dict.set filepath record group) data.

(** [processed_files_log.get(filepath) == file_mod_time] *)
Definition unchanged (log : Dict.dict mtime) (filepath : string)
    (file_mod_time : mtime) : bool :=
  match Dict.get filepath log with
  | Some t => Z.eqb t file_mod_time
  | None => false
  end.

(** The truth value of a string or [None] in a condition. *)
Definition truthy (s : option string) : bool :=
  match s with
  | Some (String _ _) => true
  | _ => false
  end.

(** [group_key] and [experiment] from the segments of the relative path. *)
Definition classify (path_parts : list string)
  : option string * option string :=
  match path_parts with
  | [cache_level; prefetcher; experiment] =>
      (Some (cache_level ++ "_" ++ prefetcher), Some experiment)
  | [cache_level; experiment] =>
      (if String.eqb cache_level "no_pref" then Some cache_level else None,
       Some experiment)
  | _ => (None, None)
  end.

Section Scan.

(** [parse_champsim_file] of the script at hand. *)
Variable parse : (string -> option string) -> string -> result (option metrics).
Variable cfg : config.
Variable env : Env.
(** [cached_data], as loaded before the scan. *)
Variable cached_data : Dict.dict (Dict.dict metrics).

(** The body of [for filename in sorted(files)]. *)
Definition process_file (root relative_path group_key experiment : string)
    (st : scan_state) (filename : string) : result scan_state :=
  let filepath := root ++ "/" ++ filename in
  let file_mod_time := getmtime env filepath in
  if unchanged (processed_files_log st) filepath file_mod_time then
    let data :=
      match Dict.get group_key cached_data with
      | Some group =>
          match Dict.get filepath group with
          | Some record =>
              set_record group_key filepath record (data_by_prefetcher st)
          | None => data_by_prefetcher st
          end
      | None => data_by_prefetcher st
      end in
    Ok {| data_by_prefetcher := data;
          processed_files_log := processed_files_log st;
          new_files_count := new_files_count st;
          skipped_files_count := skipped_files_count st + 1;
          announced_dirs := announced_dirs st;
          printed_lines := printed_lines st;
          parse_calls := parse_calls st |}
  else
    let announced := existsb (String.eqb root) (announced_dirs st) in
    let dirs := if announced then announced_dirs st
                else (announced_dirs st ++ [root])%list in
    let lines := if announced then printed_lines st
                 else (printed_lines st ++ [MsgProcessingDir relative_path])%list in
    let calls := (parse_calls st ++ [filepath])%list in
    match parse (read env) filepath with
    | Raise e => Raise e
    | Ok None =>
        Ok {| data_by_prefetcher := data_by_prefetcher st;
              processed_files_log := processed_files_log st;
              new_files_count := new_files_count st + 1;
              skipped_files_count := skipped_files_count st;
              announced_dirs := dirs;
              printed_lines := (lines ++ [MsgReadError filepath])%list;
              parse_calls := calls |}
    | Ok (Some metrics) =>
        let committed :=
          match metrics with
          | [] => false      (* [if metrics:] on an empty dict *)
          | _ :: _ => true
          end in
        Ok {| data_by_prefetcher :=
                if committed
                then set_record group_key filepath
                       (Dict.set "Experiment" (VStr experiment) metrics)
                       (data_by_prefetcher st)
                else data_by_prefetcher st;
              processed_files_log :=
                if committed
                then Dict.set filepath file_mod_time (processed_files_log st)
                else processed_files_log st;
              new_files_count := new_files_count st + 1;
              skipped_files_count := skipped_files_count st;
              announced_dirs := dirs;
              printed_lines := lines;
              parse_calls := calls |}
    end.

Fixpoint process_files (root relative_path group_key experiment : string)
    (filenames : list string) (st : scan_state) : result scan_state :=
  match filenames with
  | [] => Ok st
  | filename :: rest =>
      st' <- process_file root relative_path group_key experiment st filename ;;
      process_files root relative_path group_key experiment rest st'
  end.

(** The body of [for root, dirs, files in os.walk(RESULTS_DIR)]. *)
Definition process_dir (st : scan_state) (entry : list string * list string)
  : result scan_state :=
  let (path_parts, files) := entry in
  match files with
  | [] => Ok st                                   (* if not files: continue *)
  | _ :: _ =>
      let relative_path := join "/" path_parts in
      let root := RESULTS_DIR cfg ++ relative_path in
      match classify path_parts with
      | (Some group_key, Some experiment) =>
          if truthy (Some group_key) && truthy (Some experiment)
          then process_files root relative_path group_key experiment
                 (Sort.sorted ltb files) st
          else Ok st
      | _ => Ok st
      end
  end.

Fixpoint scan (dirs : list (list string * list string)) (st : scan_state)
  : result scan_state :=
  match dirs with
  | [] => Ok st
  | entry :: rest => st' <- process_dir st entry ;; scan rest st'
  end.

End Scan.

(** *** Synthesis and persistence of the report *)

Definition with_output_dir (d : Disk) : Disk :=
  {| output_dir := true; processed_log := processed_log d;
     data_cache := data_cache d; report := report d;
     temp_report := temp_report d |}.

Definition with_report (r : stored workbook) (d : Disk) : Disk :=
  {| output_dir := output_dir d; processed_log := processed_log d;
     data_cache := data_cache d; report := r;
     temp_report := temp_report d |}.

Definition with_temp_report (r : stored workbook) (d : Disk) : Disk :=
  {| output_dir := output_dir d; processed_log := processed_log d;
     data_cache := data_cache d; report := report d;
     temp_report := r |}.

Definition with_caches (log : stored (Dict.dict mtime))
    (cache : stored (Dict.dict (Dict.dict metrics))) (d : Disk) : Disk :=
  {| output_dir := output_dir d; processed_log := log;
     data_cache := cache; report := report d;
     temp_report := temp_report d |}.

(** [record.pop('_is_new', None)] for every record of every group. *)
Definition pop_is_new (data : Dict.dict (Dict.dict metrics))
  : Dict.dict (Dict.dict metrics) :=
  map (fun g => (fst g, map (fun r => (fst r, Dict.remove "_is_new" (snd r)))
                            (snd g))) data.

(** The end of the [try] block, once the workbook is in place: both cache
    files are written and success is reported. *)
Definition persist_caches (cfg : config) (env : Env) (disk : Disk)
    (st : scan_state) (lines : list msg) : outcome :=
  let (cache_file, warn1) :=
    save_json_data env (DATA_CACHE_FILE cfg)
      (pop_is_new (data_by_prefetcher st)) (data_cache disk) in
  let (log_file, warn2) :=
    save_json_data env (PROCESSED_LOG_FILE cfg)
      (processed_files_log st) (processed_log disk) in
  Returned (with_caches log_file cache_file disk)
           (lines ++ warn1 ++ warn2 ++ [MsgSuccess])%list.

(** [list(data_by_prefetcher[group_key].values())] *)
Definition data_list (data : Dict.dict (Dict.dict metrics))
    (group_key : string) : list metrics :=
  match Dict.get group_key data with
  | Some group => Dict.values group
  | None => []
  end.

(** The columns of [pd.DataFrame(data_list)]: the keys of the records in
    order of first appearance. *)
Definition df_columns (records : list metrics) : list string :=
  unique (List.concat (map Dict.keys records)).

(** **** [collect_data.py] *)

(** [df.drop(['Experiment'], axis=1, errors='ignore').columns] *)
Definition columns_old (records : list metrics) : list string :=
  filter (fun c => negb (String.eqb c "Experiment")) (df_columns records).

Definition row_values_old (columns : list string) (record : metrics)
  : list value :=
  map (fun c => match Dict.get c record with
                | Some v => v
                | None => VNone
                end) columns.

(** [for group_key in sorted(data_by_prefetcher.keys())], on the loaded
    workbook: a sheet of the same title is removed before the new one is
    created. Returns the lines printed and the workbook, or the exception
    that ended the loop. *)
Fixpoint write_groups_old (sheet_names : list string)
    (data : Dict.dict (Dict.dict metrics)) (group_keys : list string)
    (book : workbook) (lines : list msg) : list msg * result workbook :=
  match group_keys with
  | [] => (lines, Ok book)
  | group_key :: rest =>
      match data_list data group_key with
      | [] => write_groups_old sheet_names data rest book lines
      | (_ :: _) as records =>
          let lines := (lines ++ [MsgGroup group_key])%list in
          let book :=
            if existsb (String.eqb (sheet_name group_key)) sheet_names
            then remove_sheet (sheet_name group_key) book else book in
          match render_sheet (columns_old records)
                  (row_values_old (columns_old records)) group_key records with
          | Raise e => (lines, Raise e)
          | Ok ws =>
              write_groups_old sheet_names data rest
                (create_sheet (sheet_name group_key) ws book)
                (lines ++ [MsgSheetDone (sheet_name group_key)])%list
          end
      end
  end.

(** The [try] block of [collect_data.py]: the existing workbook is loaded
    and edited, and saved straight to its own path. *)
Definition write_report_old (cfg : config) (env : Env) (disk : Disk)
    (st : scan_state) (lines : list msg) : outcome :=
  match (match report disk with
         | Missing => Ok []
         | Corrupt => Raise OtherError          (* load_workbook raises *)
         | Stored old_book => Ok old_book
         end) with
  | Raise _ => Returned disk (lines ++ [MsgWriteError])%list
  | Ok book =>
      match write_groups_old (sheetnames book) (data_by_prefetcher st)
              (Sort.sorted ltb (Dict.keys (data_by_prefetcher st)))
              book lines with
      | (lines, Raise _) => Returned disk (lines ++ [MsgWriteError])%list
      | (lines, Ok book) =>
          match book_save env (EXCEL_OUTPUT_PATH cfg) book with
          | WriteOk => persist_caches cfg env (with_report (Stored book) disk) st lines
          | WriteRefused => Returned disk (lines ++ [MsgWriteError])%list
          | WritePartial =>
              Returned (with_report Corrupt disk) (lines ++ [MsgWriteError])%list
          end
      end
  end.

(** **** [collect_data_new.py] *)

(** [df_experiment.reindex(columns=headers).fillna('NaN')] *)
Definition row_values_new (record : metrics) : list value :=
  map (fun h => match Dict.get h record with
                | Some VNone | Some (VFloat NaN) | None => VStr "NaN"
                | Some v => v
                end) CollectDataNew.headers.

(** The copy of one sheet: every cell's value and style at its
    coordinate; nothing of the sheet-level layout. *)
Definition copy_sheet (old_ws : worksheet) : worksheet :=
  {| ws_cells := map (fun c => Cell (c_row c) (c_col c) (c_value c) (c_style c))
                     (ws_cells old_ws);
     ws_layout := 0 |}.

(** [for sheet_name in old_book.sheetnames: if not sheet_name.startswith('raw_'): ...] *)
Fixpoint preserve_sheets (old_sheets : workbook) (book : workbook)
    (lines : list msg) : workbook * list msg :=
  match old_sheets with
  | [] => (book, lines)
  | (name, old_ws) :: rest =>
      if owned name then preserve_sheets rest book lines
      else preserve_sheets rest (create_sheet name (copy_sheet old_ws) book)
             (lines ++ [MsgPreserving name])%list
  end.

Fixpoint write_groups_new (data : Dict.dict (Dict.dict metrics))
    (group_keys : list string) (book : workbook) (lines : list msg)
  : list msg * result workbook :=
  match group_keys with
  | [] => (lines, Ok book)
  | group_key :: rest =>
      match data_list data group_key with
      | [] => write_groups_new data rest book lines
      | (_ :: _) as records =>
          let lines := (lines ++ [MsgGroup group_key])%list in
          match render_sheet CollectDataNew.headers row_values_new
                  group_key records with
          | Raise e => (lines, Raise e)
          | Ok ws =>
              write_groups_new data rest
                (create_sheet (sheet_name group_key) ws book)
                (lines ++ [MsgSheetDone (sheet_name group_key)])%list
          end
      end
  end.

(** The [try] block of [collect_data_new.py]: a fresh workbook takes the
    sheets of the old one that are not pipeline-owned, then the new
    pipeline-owned sheets; it is saved to the temporary path and moved
    onto the report. *)
Definition write_report_new (cfg : config) (env : Env) (disk : Disk)
    (st : scan_state) (lines : list msg) : outcome :=
  let (book, lines) :=
    match report disk with
    | Missing => ([], lines)
    | Corrupt => ([], lines ++ [MsgLoadWarning])%list
    | Stored old_book => preserve_sheets old_book [] lines
    end in
  match write_groups_new (data_by_prefetcher st)
          (Sort.sorted ltb (Dict.keys (data_by_prefetcher st))) book lines with
  | (lines, Raise _) => Returned disk (lines ++ [MsgWriteError])%list
  | (lines, Ok book) =>
      match book_save env (TEMP_OUTPUT_PATH cfg) book with
      | WriteRefused => Returned disk (lines ++ [MsgWriteError])%list
      | WritePartial =>
          Returned (with_temp_report Corrupt disk) (lines ++ [MsgWriteError])%list
      | WriteOk =>
          let saved := with_temp_report (Stored book) disk in
          match move env with
          | WriteRefused => Returned saved (lines ++ [MsgWriteError])%list
          | WritePartial =>
              Returned (with_report Corrupt saved) (lines ++ [MsgWriteError])%list
          | WriteOk =>
              persist_caches cfg env
                (with_temp_report Missing (with_report (Stored book) saved))
                st lines
          end
      end
  end.

(** *** [main] *)

Section Main.

Variable parse : (string -> option string) -> string -> result (option metrics).
Variable write_report : config -> Env -> Disk -> scan_state -> list msg -> outcome.
Variable cfg : config.

Definition main (env : Env) (disk : Disk) : outcome :=
  let disk := with_output_dir disk in         (* os.makedirs(OUTPUT_DIR, exist_ok=True) *)
  match walk env with
  | None => Returned disk [MsgDirNotFound]
  | Some dirs =>
      let processed_files_log := load_json_data (processed_log disk) in
      let cached_data := load_json_data (data_cache disk) in
      match scan parse cfg env cached_data dirs
              (initial_state processed_files_log) with
      | Raise e => Crashed disk e
      | Ok st =>
          let lines :=
            (MsgStartScan :: printed_lines st
               ++ [MsgScanComplete (new_files_count st) (skipped_files_count st)])%list in
          if (new_files_count st =? 0)%nat
          then Returned disk (lines ++ [MsgUpToDate])%list
          else write_report cfg env disk st (lines ++ [MsgUpdating])%list
      end
  end.

End Main.

Definition collect_data_config : config :=
  {| RESULTS_DIR := "../results/";
     EXCEL_OUTPUT_PATH := "../Extracted_Data/rnd.xlsx";
     TEMP_OUTPUT_PATH := "";                      (* not used by this script *)
     PROCESSED_LOG_FILE := "../Extracted_Data/.processed_files.log";
     DATA_CACHE_FILE := "../Extracted_Data/.data_cache.json" |}.

Definition collect_data_new_config : config :=
  {| RESULTS_DIR := "../results/";
     EXCEL_OUTPUT_PATH := "/home/neeraj/OneDrive/Research_Data/data_dump.xlsx";
     TEMP_OUTPUT_PATH := "/tmp/data_dump.xlsx";
     PROCESSED_LOG_FILE := "/home/neeraj/OneDrive/Research_Data/.processed_files.log";
     DATA_CACHE_FILE := "/home/neeraj/OneDrive/Research_Data/.data_cache.json" |}.

(** [main] of [collect_data.py]. *)
Definition collect_data_main : Env -> Disk -> outcome :=
  main CollectData.parse_champsim_file write_report_old collect_data_config.

(** [main] of [collect_data_new.py]. *)
Definition collect_data_new_main : Env -> Disk -> outcome :=
  main CollectDataNew.parse_champsim_file write_report_new
    collect_data_new_config.

End Pipeline.

(* ================================================================== *)
(** * Part II. Properties                                              *)
(* ================================================================== *)

Import Text Regex Py Extract Report Pipeline.

(** ** Captured groups *)

Section Captures.

Lemma take_nonempty (k : nat) (s : string) (p : ascii -> bool) :
  1 <= k -> k <= span p s -> nonempty (take k s) = true.
Proof.
  destruct k as [|k]; [lia|]. destruct s as [|c s]; simpl; [lia|]. reflexivity.
Qed.

Lemma take_all_chars (p : ascii -> bool) (k : nat) (s : string) :
  k <= span p s -> all_chars p (take k s) = true.
Proof.
  revert s. induction k as [|k IH]; intros s Hk.
  - destruct s; reflexivity.
  - destruct s as [|c s]; simpl in *; [lia|].
    destruct (p c) eqn:Hc; [|lia]. simpl. apply IH. lia.
Qed.

Lemma first_down_some {A} (f : nat -> option A) (k : nat) (r : A) :
  first_down f k = Some r -> exists j, 1 <= j <= k /\ f j = Some r.
Proof.
  induction k as [|k IH]; simpl; [discriminate|].
  destruct (f (S k)) eqn:Hf.
  - intros [= ->]. exists (S k). split; [lia|assumption].
  - intros H. destruct (IH H) as (j & Hj & Hfj). exists j. split; [lia|assumption].
Qed.

Lemma first_up_some {A} (f : nat -> option A) (n k : nat) (r : A) :
  first_up f k n = Some r -> exists j, k <= j <= k + n /\ f j = Some r.
Proof.
  revert k. induction n as [|n IH]; intros k; simpl.
  - destruct (f k) eqn:Hf; [|discriminate]. intros [= ->]. exists k. split; [lia|assumption].
  - destruct (f k) eqn:Hf.
    + intros [= ->]. exists k. split; [lia|assumption].
    + intros H. destruct (IH _ H) as (j & Hj & Hfj). exists j. split; [lia|assumption].
Qed.

(** What a captured group looks like: not empty, and made of characters of
    its class. *)
Definition captured (cls : cclass) (text : string) : Prop :=
  nonempty text = true /\ all_chars (in_class cls) text = true.

Lemma match_here_captures (re : regex) :
  forall s groups, match_here re s = Some groups ->
    Forall2 captured (group_classes re) groups.
Proof.
  induction re as [|it re IH]; intros s groups; simpl.
  - intros [= <-]. constructor.
  - destruct it as [l|cls|cls|].
    + destruct (strip_prefix l s); [apply IH|discriminate].
    + intros H. apply first_down_some in H. destruct H as (j & _ & H). eapply IH, H.
    + intros H. apply first_down_some in H. destruct H as (j & Hj & H).
      destruct (match_here re (drop j s)) as [g|] eqn:Hm; [|discriminate].
      injection H as <-. constructor.
      * split; [apply take_nonempty with (p := in_class cls) | apply take_all_chars]; lia.
      * eapply IH, Hm.
    + intros H. apply first_up_some in H. destruct H as (j & _ & H). eapply IH, H.
Qed.

Lemma search_captures (re : regex) :
  forall s groups, search re s = Some groups ->
    Forall2 captured (group_classes re) groups.
Proof.
  induction s as [|c s IH]; intros groups; simpl.
  - destruct (match_here re "") eqn:Hm; [|discriminate].
    intros [= <-]. eapply match_here_captures, Hm.
  - destruct (match_here re (String c s)) eqn:Hm.
    + intros [= <-]. eapply match_here_captures, Hm.
    + apply IH.
Qed.

Lemma search_start (re : regex) (s : string) (groups : list string) :
  match_here re s = Some groups -> search re s = Some groups.
Proof. intros H. destruct s; simpl; rewrite H; reflexivity. Qed.

End Captures.

(** ** The extractor *)

Section Extractor.

Lemma split_sign_digit (a : ascii) (t : string) :
  is_digit a = true -> split_sign (String a t) = (false, String a t).
Proof.
  destruct a as [[] [] [] [] [] [] [] []]; intros H; vm_compute in H;
    try discriminate H; reflexivity.
Qed.

(** [int] never fails on a group captured by [(\d+)]. *)
Lemma int_captured (text : string) :
  captured Digit text -> int text = Ok (Z.of_N (digits_value text 0)).
Proof.
  intros [Hne Hall]. destruct text as [|a t]; [discriminate|].
  simpl in Hall. apply andb_prop in Hall. destruct Hall as [Ha Ht].
  unfold int. rewrite (split_sign_digit a t Ha).
  unfold is_number. simpl. rewrite Ha, Ht. reflexivity.
Qed.

Lemma get_set_same {V} (k : string) (v : V) (m : Dict.dict V) :
  Dict.get k (Dict.set k v m) = Some v.
Proof.
  induction m as [|[k' v'] m IH]; simpl.
  - rewrite String.eqb_refl. reflexivity.
  - destruct (String.eqb k k') eqn:E; simpl; rewrite E; [reflexivity|assumption].
Qed.

Lemma get_set_other {V} (k k' : string) (v : V) (m : Dict.dict V) :
  k <> k' -> Dict.get k (Dict.set k' v m) = Dict.get k m.
Proof.
  intros Hne. induction m as [|[k1 v1] m IH]; simpl.
  - apply String.eqb_neq in Hne. rewrite Hne. reflexivity.
  - destruct (String.eqb k' k1) eqn:E; simpl.
    + apply String.eqb_eq in E. subst k1.
      apply String.eqb_neq in Hne. rewrite Hne. reflexivity.
    + destruct (String.eqb k k1); [reflexivity|assumption].
Qed.

Lemma set_not_empty {V} (k : string) (v : V) (m : Dict.dict V) :
  Dict.set k v m <> [].
Proof. destruct m as [|[k' v'] m]; simpl; [|destruct (String.eqb k k')]; discriminate. Qed.

(** Whether a rule assigns the key [k]. *)
Definition touches (k : string) (r : rule) : bool :=
  existsb (fun f => String.eqb k (f_key f)) (r_fields r).

Lemma assign_frame (k : string) (groups : list string) (fs : list field) :
  forall m m', assign fs groups m = Ok m' ->
    existsb (fun f => String.eqb k (f_key f)) fs = false ->
    Dict.get k m' = Dict.get k m.
Proof.
  induction fs as [|f fs IH]; intros m m'; simpl.
  - intros [= <-] _. reflexivity.
  - destruct (convert (f_conv f) (group groups (f_group f))) as [v|e]; simpl;
      [|discriminate].
    intros H Hk. apply orb_false_elim in Hk. destruct Hk as [Hf Hfs].
    rewrite (IH _ _ H Hfs). apply get_set_other. now apply String.eqb_neq.
Qed.

Lemma assign_not_empty (groups : list string) (fs : list field) :
  forall m m', assign fs groups m = Ok m' -> m <> [] -> m' <> [].
Proof.
  induction fs as [|f fs IH]; intros m m'; simpl.
  - intros [= <-] H. exact H.
  - destruct (convert (f_conv f) (group groups (f_group f))) as [v|e]; simpl;
      [|discriminate].
    intros H _. eapply IH; [exact H|apply set_not_empty].
Qed.

(** A key keeps its value through the rules that either do not assign it
    or do not match. *)
Lemma apply_rules_frame (k : string) (content : string) (rs : list rule) :
  forall m m', apply_rules content rs m = Ok m' ->
    (forall r, In r rs -> touches k r = true ->
               search (r_pattern r) content = None) ->
    Dict.get k m' = Dict.get k m.
Proof.
  induction rs as [|r rs IH]; intros m m'; simpl.
  - intros [= <-] _. reflexivity.
  - unfold apply_rule at 1.
    destruct (search (r_pattern r) content) as [groups|] eqn:Hs; simpl.
    + destruct (assign (r_fields r) groups m) as [m1|e] eqn:Ha; simpl; [|discriminate].
      intros H Hk. rewrite (IH _ _ H); [|intros r' Hr'; apply Hk; now right].
      eapply assign_frame; [exact Ha|].
      destruct (existsb _ (r_fields r)) eqn:Ht; [|reflexivity].
      specialize (Hk r (or_introl eq_refl) Ht). congruence.
    + intros H Hk. apply (IH _ _ H). intros r' Hr'; apply Hk; now right.
Qed.

Lemma apply_rules_not_empty (content : string) (rs : list rule) :
  forall m m', apply_rules content rs m = Ok m' -> m <> [] -> m' <> [].
Proof.
  induction rs as [|r rs IH]; intros m m'; simpl.
  - intros [= <-] H. exact H.
  - unfold apply_rule at 1.
    destruct (search (r_pattern r) content) as [groups|]; simpl.
    + destruct (assign (r_fields r) groups m) as [m1|e] eqn:Ha; simpl; [|discriminate].
      intros H Hm. eapply IH; [exact H|]. eapply assign_not_empty; eauto.
    + apply IH.
Qed.

Lemma apply_rules_app (content : string) (rs1 rs2 : list rule) :
  forall m m', apply_rules content (rs1 ++ rs2) m = Ok m' ->
    exists m1, apply_rules content rs1 m = Ok m1
               /\ apply_rules content rs2 m1 = Ok m'.
Proof.
  induction rs1 as [|r rs1 IH]; intros m m'; simpl.
  - intros H. exists m. split; [reflexivity|exact H].
  - destruct (apply_rule content r m) as [m0|e]; simpl; [|discriminate].
    apply IH.
Qed.

(** After the assignments of a block, each of its keys (assigned once in
    the block) holds the converted group. *)
Lemma assign_sets (groups : list string) (fs : list field) :
  forall m m', assign fs groups m = Ok m' ->
    NoDup (map f_key fs) ->
    forall f, In f fs ->
      exists v, convert (f_conv f) (group groups (f_group f)) = Ok v
                /\ Dict.get (f_key f) m' = Some v.
Proof.
  induction fs as [|f0 fs IH]; intros m m' H Hnd f Hin; [destruct Hin|].
  simpl in H.
  destruct (convert (f_conv f0) (group groups (f_group f0))) as [v0|e] eqn:Hc;
    simpl in H; [|discriminate].
  inversion Hnd as [|? ? Hnotin Hnd']; subst.
  destruct Hin as [<-|Hin].
  - exists v0. split; [exact Hc|].
    rewrite (assign_frame (f_key f0) _ _ _ _ H).
    + apply get_set_same.
    + destruct (existsb _ fs) eqn:Hex; [|reflexivity].
      exfalso. apply Hnotin. apply existsb_exists in Hex.
      destruct Hex as (f1 & Hf1 & Heq). apply String.eqb_eq in Heq.
      rewrite Heq. now apply in_map.
  - eapply IH; eauto.
Qed.

(** The fields of a matching rule that no later rule assigns hold the
    converted groups in the record returned. *)
Lemma apply_rules_sets (content : string) (rs1 rs2 : list rule) (r : rule)
    (groups : list string) (m m' : metrics) (f : field) :
  apply_rules content (rs1 ++ r :: rs2) m = Ok m' ->
  search (r_pattern r) content = Some groups ->
  NoDup (map f_key (r_fields r)) ->
  forallb (fun r' => negb (touches (f_key f) r')) rs2 = true ->
  In f (r_fields r) ->
  exists v, convert (f_conv f) (group groups (f_group f)) = Ok v
            /\ Dict.get (f_key f) m' = Some v.
Proof.
  intros H Hs Hnd Hlater Hin.
  apply apply_rules_app in H. destruct H as (m1 & _ & H). simpl in H.
  unfold apply_rule at 1 in H. rewrite Hs in H.
  destruct (assign (r_fields r) groups m1) as [m2|e] eqn:Ha; simpl in H; [|discriminate].
  destruct (assign_sets _ _ _ _ Ha Hnd f Hin) as (v & Hv & Hget).
  exists v. split; [exact Hv|].
  rewrite (apply_rules_frame (f_key f) _ _ _ _ H); [exact Hget|].
  intros r' Hr' Ht. rewrite forallb_forall in Hlater.
  specialize (Hlater r' Hr'). rewrite Ht in Hlater. discriminate.
Qed.

(** A field refers to a group of its pattern, and an [int] field to a
    group of digits. *)
Definition field_ok (re : regex) (f : field) : bool :=
  (1 <=? f_group f)%nat
  && match nth_error (group_classes re) (f_group f - 1) with
     | Some cls =>
         match f_conv f, cls with
         | AsInt, Digit => true
         | AsInt, _ => false
         | _, _ => true
         end
     | None => false
     end.

Definition rule_ok (r : rule) : bool :=
  forallb (field_ok (r_pattern r)) (r_fields r).

(** Every text a [float(...)] without a handler is applied to is a
    number. *)
Definition floats_parse (rs : list rule) (content : string) : Prop :=
  forall r groups f,
    In r rs -> search (r_pattern r) content = Some groups ->
    In f (r_fields r) -> f_conv f = AsFloat ->
    exists x, float (group groups (f_group f)) = Ok x.

Lemma captured_nth (classes : list cclass) (groups : list string) :
  Forall2 captured classes groups ->
  forall i cls, nth_error classes i = Some cls -> captured cls (nth i groups "").
Proof.
  induction 1 as [|c g cs gs Hc _ IH]; intros i cls Hi.
  - destruct i; discriminate.
  - destruct i as [|i]; simpl in *.
    + injection Hi as <-. exact Hc.
    + eapply IH; eauto.
Qed.

Lemma convert_ok (re : regex) (groups : list string) (f : field) :
  Forall2 captured (group_classes re) groups ->
  field_ok re f = true ->
  (f_conv f = AsFloat -> exists x, float (group groups (f_group f)) = Ok x) ->
  exists v, convert (f_conv f) (group groups (f_group f)) = Ok v.
Proof.
  intros Hcap Hok Hfl. unfold field_ok in Hok.
  apply andb_prop in Hok. destruct Hok as [_ Hok].
  destruct (nth_error (group_classes re) (f_group f - 1)) as [cls|] eqn:Hn;
    [|discriminate].
  pose proof (captured_nth _ _ Hcap _ _ Hn) as Hc.
  unfold convert, group. destruct (f_conv f).
  - destruct cls; try discriminate. rewrite (int_captured _ Hc). simpl. eauto.
  - destruct (Hfl eq_refl) as (x & Hx). unfold group in Hx. rewrite Hx. simpl. eauto.
  - destruct (float (nth (f_group f - 1) groups "")) as [x|[]] eqn:Hx; eauto.
    exfalso. unfold float in Hx. destruct (split_sign _) as [neg body].
    destruct (_ || _); [discriminate|].
    destruct (String.eqb _ _); [discriminate|].
    destruct (decimal body); discriminate.
Qed.

Lemma assign_total (re : regex) (groups : list string) (fs : list field) :
  Forall2 captured (group_classes re) groups ->
  forallb (field_ok re) fs = true ->
  (forall f, In f fs -> f_conv f = AsFloat ->
             exists x, float (group groups (f_group f)) = Ok x) ->
  forall m, exists m', assign fs groups m = Ok m'.
Proof.
  intros Hcap. induction fs as [|f fs IH]; intros Hok Hfl m; simpl.
  - eauto.
  - simpl in Hok. apply andb_prop in Hok. destruct Hok as [Hf Hfs].
    destruct (convert_ok re groups f Hcap Hf) as (v & Hv).
    { apply Hfl. now left. }
    rewrite Hv. simpl. apply IH; [exact Hfs|].
    intros f' Hin. apply Hfl. now right.
Qed.

(** The extractor returns a record whenever every unguarded [float(...)]
    is applied to a number. *)
Lemma apply_rules_total (content : string) (rs : list rule) :
  forallb rule_ok rs = true -> floats_parse rs content ->
  forall m, exists m', apply_rules content rs m = Ok m'.
Proof.
  induction rs as [|r rs IH]; intros Hok Hfl m; simpl.
  - eauto.
  - simpl in Hok. apply andb_prop in Hok. destruct Hok as [Hr Hrs].
    assert (H1 : exists m1, apply_rule content r m = Ok m1).
    { unfold apply_rule. destruct (search (r_pattern r) content) as [groups|] eqn:Hs.
      - apply assign_total with (re := r_pattern r).
        + eapply search_captures, Hs.
        + exact Hr.
        + intros f Hin Hc. eapply Hfl; eauto. now left.
      - eauto. }
    destruct H1 as (m1 & ->). simpl. apply IH; [exact Hrs|].
    intros r' groups f Hin. apply Hfl. now right.
Qed.

Lemma float_raises_value_error (text : string) (e : exn) :
  float text = Raise e -> e = ValueError.
Proof.
  unfold float. destruct (split_sign text) as [neg body].
  destruct (_ || _); [discriminate|]. destruct (String.eqb _ _); [discriminate|].
  destruct (decimal body); simpl; [discriminate|]. congruence.
Qed.

Lemma convert_raises_value_error (c : conv) (text : string) (e : exn) :
  convert c text = Raise e -> e = ValueError.
Proof.
  unfold convert. destruct c.
  - unfold int. destruct (split_sign text) as [neg body].
    destruct (is_number body); simpl; [discriminate|]. congruence.
  - destruct (float text) as [x|e'] eqn:Hf; simpl; [discriminate|].
    intros [= <-]. eapply float_raises_value_error, Hf.
  - destruct (float text) as [x|e'] eqn:Hf; [discriminate|].
    apply float_raises_value_error in Hf. subst e'. discriminate.
Qed.

Lemma assign_raises_value_error (groups : list string) (fs : list field) :
  forall m e, assign fs groups m = Raise e -> e = ValueError.
Proof.
  induction fs as [|f fs IH]; intros m e; simpl; [discriminate|].
  destruct (convert (f_conv f) (group groups (f_group f))) as [v|e'] eqn:Hc; simpl.
  - apply IH.
  - intros [= <-]. eapply convert_raises_value_error, Hc.
Qed.

Lemma apply_rules_raises_value_error (content : string) (rs : list rule) :
  forall m e, apply_rules content rs m = Raise e -> e = ValueError.
Proof.
  induction rs as [|r rs IH]; intros m e; simpl; [discriminate|].
  destruct (apply_rule content r m) as [m1|e'] eqn:Hr; simpl.
  - apply IH.
  - intros [= <-]. unfold apply_rule in Hr.
    destruct (search (r_pattern r) content); [|discriminate].
    eapply assign_raises_value_error, Hr.
Qed.

Lemma assign_fails (groups : list string) (fs : list field) (f : field) :
  In f fs -> f_conv f = AsFloat ->
  float (group groups (f_group f)) = Raise ValueError ->
  forall m, assign fs groups m = Raise ValueError.
Proof.
  intros Hin Hc Hfl. induction fs as [|f0 fs IH]; intros m; [destruct Hin|].
  simpl. destruct (convert (f_conv f0) (group groups (f_group f0))) as [v|e] eqn:Hv; simpl.
  - destruct Hin as [->|Hin]; [|now apply IH].
    unfold convert in Hv. rewrite Hc, Hfl in Hv. discriminate.
  - f_equal. eapply convert_raises_value_error, Hv.
Qed.

(** A malformed decimal under an unguarded [float(...)] ends the
    extraction with [ValueError]. *)
Lemma apply_rules_fails (content : string) (rs : list rule) (r : rule)
    (groups : list string) (f : field) :
  In r rs -> search (r_pattern r) content = Some groups ->
  In f (r_fields r) -> f_conv f = AsFloat ->
  float (group groups (f_group f)) = Raise ValueError ->
  forall m, apply_rules content rs m = Raise ValueError.
Proof.
  intros Hin Hs Hf Hc Hfl. induction rs as [|r0 rs IH]; intros m; [destruct Hin|].
  simpl. destruct (apply_rule content r0 m) as [m1|e] eqn:Hr; simpl.
  - destruct Hin as [->|Hin]; [|now apply IH].
    unfold apply_rule in Hr. rewrite Hs in Hr.
    rewrite (assign_fails groups _ f Hf Hc Hfl) in Hr. discriminate.
  - f_equal. unfold apply_rule in Hr.
    destruct (search (r_pattern r0) content); [|discriminate].
    eapply assign_raises_value_error, Hr.
Qed.

Lemma rules_ok_old : forallb rule_ok CollectData.rules = true.
Proof. reflexivity. Qed.

Lemma rules_ok_new : forallb rule_ok CollectDataNew.rules = true.
Proof. reflexivity. Qed.

End Extractor.

(** ** The extractor on the spec's examples *)

Definition ipc_line : string := "CPU 0 cumulative IPC: 1.234".
Definition llc_line : string :=
  "LLC TOTAL ACCESS: 100 HIT: 80 MISS: 20 ... MPKI: 4.5".

(** The rest of a text after its first line: nothing, or a line break and
    anything. *)
Definition after_line (rest : string) : Prop :=
  rest = "" \/ exists rest', rest = String newline rest'.

Lemma ipc_line_matches (rest : string) :
  after_line rest ->
  search (r_pattern ipc_rule) (ipc_line ++ rest) = Some ["1.234"].
Proof.
  intros [->|[rest' ->]]; apply search_start; vm_compute; reflexivity.
Qed.

Lemma llc_line_matches (rest : string) :
  after_line rest ->
  search (r_pattern CollectData.llc_total_rule) (llc_line ++ rest)
  = Some ["100"; "80"; "20"; "4.5"].
Proof.
  intros [->|[rest' ->]]; apply search_start; vm_compute; reflexivity.
Qed.

(** Reads the value a matching rule leaves under one of its keys. *)
Ltac field_value H rs1 r rs2 groups f :=
  let v := fresh "v" in
  let Hv := fresh "Hv" in
  let Hget := fresh "Hget" in
  destruct (apply_rules_sets _ rs1 rs2 r groups _ _ f H) as (v & Hv & Hget);
  [ assumption
  | repeat constructor; simpl; intuition discriminate
  | reflexivity
  | simpl; tauto
  | vm_compute in Hv; injection Hv as <-; exact Hget ].

Lemma ipc_value_old (filepath rest : string) (r : metrics) :
  after_line rest ->
  CollectData.parse_content filepath (ipc_line ++ rest) = Ok r ->
  Dict.get "IPC" r = Some (VFloat (Finite 1.234%Q)).
Proof.
  intros Hrest H. pose proof (ipc_line_matches rest Hrest) as Hs.
  unfold CollectData.parse_content in H.
  field_value H (@nil rule) ipc_rule (tl CollectData.rules) ["1.234"]
    (Field "IPC" 1 AsFloat).
Qed.

Lemma llc_values_old (filepath rest : string) (r : metrics) :
  after_line rest ->
  CollectData.parse_content filepath (llc_line ++ rest) = Ok r ->
  Dict.get "LLC Total Access" r = Some (VInt 100)
  /\ Dict.get "LLC Total Hits" r = Some (VInt 80)
  /\ Dict.get "LLC Total Misses" r = Some (VInt 20)
  /\ Dict.get "LLC Total MPKI" r = Some (VFloat (Finite 4.5%Q)).
Proof.
  intros Hrest H. pose proof (llc_line_matches rest Hrest) as Hs.
  unfold CollectData.parse_content in H.
  repeat split.
  - field_value H [ipc_rule] CollectData.llc_total_rule
      (tl (tl CollectData.rules)) ["100"; "80"; "20"; "4.5"]
      (Field "LLC Total Access" 1 AsInt).
  - field_value H [ipc_rule] CollectData.llc_total_rule
      (tl (tl CollectData.rules)) ["100"; "80"; "20"; "4.5"]
      (Field "LLC Total Hits" 2 AsInt).
  - field_value H [ipc_rule] CollectData.llc_total_rule
      (tl (tl CollectData.rules)) ["100"; "80"; "20"; "4.5"]
      (Field "LLC Total Misses" 3 AsInt).
  - field_value H [ipc_rule] CollectData.llc_total_rule
      (tl (tl CollectData.rules)) ["100"; "80"; "20"; "4.5"]
      (Field "LLC Total MPKI" 4 AsFloat).
Qed.

(** The keys of the two field sets of the examples. *)
Definition example_keys : list string :=
  ["IPC"; "LLC Total Access"; "LLC Total Hits"; "LLC Total Misses";
   "LLC Total MPKI"].

Lemma neither_pattern_absent (filepath content : string) (r : metrics) :
  search (r_pattern ipc_rule) content = None ->
  search (r_pattern CollectData.llc_total_rule) content = None ->
  CollectData.parse_content filepath content = Ok r ->
  forall k, In k example_keys -> Dict.get k r = Some VNone.
Proof.
  intros Hipc Hllc H k Hk. unfold CollectData.parse_content in H.
  rewrite (apply_rules_frame k _ _ _ _ H).
  - simpl in Hk. decompose [or] Hk; subst; try reflexivity; contradiction.
  - intros r' Hr' Ht. simpl in Hr'.
    decompose [or] Hr'; subst; try assumption; try contradiction;
      simpl in Hk; decompose [or] Hk; subst; try discriminate Ht; contradiction.
Qed.

Lemma accuracy_text_kept (level filepath content : string)
    (groups : list string) (r : metrics) :
  In level ["L1D"; "L2C"; "LLC"] ->
  search (CollectDataNew.accuracy_re level) content = Some groups ->
  float (group groups 1) = Raise ValueError ->
  CollectDataNew.parse_content filepath content = Ok r ->
  Dict.get (level ++ " Prefetch Accuracy") r = Some (VStr (group groups 1)).
Proof.
  intros Hlevel Hs Hfl H. unfold CollectDataNew.parse_content in H.
  assert (Hconv : forall v, convert AsFloatOrText (group groups 1) = Ok v ->
                            v = VStr (group groups 1)).
  { intros v. unfold convert. rewrite Hfl. congruence. }
  simpl in Hlevel. destruct Hlevel as [<-|[<-|[<-|[]]]].
  - destruct (apply_rules_sets content (firstn 4 CollectDataNew.rules)
                (skipn 5 CollectDataNew.rules)
                (Rule (CollectDataNew.accuracy_re "L1D")
                   [Field "L1D Prefetch Accuracy" 1 AsFloatOrText])
                groups _ _ (Field "L1D Prefetch Accuracy" 1 AsFloatOrText) H)
      as (v & Hv & Hget);
      [exact Hs | repeat constructor; simpl; tauto | reflexivity | simpl; tauto |].
    simpl in Hv. apply Hconv in Hv. subst v. exact Hget.
  - destruct (apply_rules_sets content (firstn 9 CollectDataNew.rules)
                (skipn 10 CollectDataNew.rules)
                (Rule (CollectDataNew.accuracy_re "L2C")
                   [Field "L2C Prefetch Accuracy" 1 AsFloatOrText])
                groups _ _ (Field "L2C Prefetch Accuracy" 1 AsFloatOrText) H)
      as (v & Hv & Hget);
      [exact Hs | repeat constructor; simpl; tauto | reflexivity | simpl; tauto |].
    simpl in Hv. apply Hconv in Hv. subst v. exact Hget.
  - destruct (apply_rules_sets content (firstn 14 CollectDataNew.rules)
                (skipn 15 CollectDataNew.rules)
                (Rule (CollectDataNew.accuracy_re "LLC")
                   [Field "LLC Prefetch Accuracy" 1 AsFloatOrText])
                groups _ _ (Field "LLC Prefetch Accuracy" 1 AsFloatOrText) H)
      as (v & Hv & Hget);
      [exact Hs | repeat constructor; simpl; tauto | reflexivity | simpl; tauto |].
    simpl in Hv. apply Hconv in Hv. subst v. exact Hget.
Qed.


Definition accuracy_example : string :=
  "L1D USEFUL LOAD PREFETCHES: 5 ACCURACY: -nan".







(** ** Sorting *)

Section StableSort.

Variable A : Type.
Variable lt : A -> A -> bool.

(** [b] does not come before [a]. *)
Definition not_after (a b : A) : Prop := lt b a = false.

Hypothesis lt_asym : forall a b, lt a b = true -> lt b a = false.
Hypothesis not_after_trans :
  forall a b c, not_after a b -> not_after b c -> not_after a c.

Lemma insert_perm (x : A) (l : list A) : Permutation (x :: l) (Sort.insert lt x l).
Proof.
  induction l as [|y l IH]; simpl; [reflexivity|].
  destruct (lt y x); [|reflexivity].
  rewrite perm_swap. now constructor.
Qed.

Lemma sorted_perm (l : list A) : Permutation l (Sort.sorted lt l).
Proof.
  induction l as [|x l IH]; simpl; [constructor|].
  rewrite <- insert_perm. now constructor.
Qed.

Lemma insert_sorted (x : A) (l : list A) :
  StronglySorted not_after l -> StronglySorted not_after (Sort.insert lt x l).
Proof.
  induction 1 as [|y l Hl IH Hy]; simpl.
  - repeat constructor.
  - destruct (lt y x) eqn:E.
    + constructor; [exact IH|].
      rewrite <- insert_perm. constructor; [|exact Hy].
      apply lt_asym, E.
    + constructor; [now constructor|].
      constructor; [exact E|].
      rewrite Forall_forall in *. intros z Hz.
      eapply not_after_trans; [exact E|]. now apply Hy.
Qed.

Lemma sorted_sorted (l : list A) : StronglySorted not_after (Sort.sorted lt l).
Proof.
  induction l as [|x l IH]; simpl; [constructor|]. now apply insert_sorted.
Qed.

End StableSort.

(** ** The natural order *)

Section NaturalOrder.
Import NaturalSort.

Lemma code_inj (x y : ascii) : code x = code y -> x = y.
Proof.
  unfold code. intros H.
  rewrite <- (ascii_nat_embedding x), <- (ascii_nat_embedding y). now rewrite H.
Qed.

Lemma ltb_irrefl (s : string) : ltb s s = false.
Proof. induction s as [|c s IH]; simpl; [reflexivity|]. now rewrite Nat.ltb_irrefl. Qed.

Lemma ltb_trans (a : string) :
  forall b c, ltb a b = true -> ltb b c = true -> ltb a c = true.
Proof.
  induction a as [|x a IH]; intros [|y b] [|z c]; simpl; try discriminate; auto.
  destruct (Nat.ltb_spec (code x) (code y)), (Nat.ltb_spec (code y) (code x)),
    (Nat.ltb_spec (code y) (code z)), (Nat.ltb_spec (code z) (code y)),
    (Nat.ltb_spec (code x) (code z)), (Nat.ltb_spec (code z) (code x));
    try discriminate; try lia; auto.
  apply IH.
Qed.

Lemma ltb_total (a : string) :
  forall b, ltb a b = false -> ltb b a = false -> a = b.
Proof.
  induction a as [|x a IH]; intros [|y b]; simpl; try discriminate; auto.
  destruct (Nat.ltb_spec (code x) (code y)), (Nat.ltb_spec (code y) (code x));
    try discriminate; try lia.
  intros H1 H2. f_equal; [apply code_inj; lia|now apply IH].
Qed.

Lemma part_ltb_irrefl (a : part) : part_ltb a a = false.
Proof. destruct a; simpl; [apply N.ltb_irrefl|apply ltb_irrefl]. Qed.

Lemma part_ltb_trans (a b c : part) :
  part_ltb a b = true -> part_ltb b c = true -> part_ltb a c = true.
Proof.
  destruct a, b, c; simpl; try discriminate; auto.
  - rewrite !N.ltb_lt. lia.
  - apply ltb_trans.
Qed.

Lemma part_ltb_total (a b : part) :
  part_ltb a b = false -> part_ltb b a = false -> a = b.
Proof.
  destruct a, b; simpl; try discriminate.
  - rewrite !N.ltb_ge. intros. f_equal. lia.
  - intros. f_equal. now apply ltb_total.
Qed.

Lemma key_ltb_irrefl (a : key) : key_ltb a a = false.
Proof. induction a as [|x a IH]; simpl; [reflexivity|]. now rewrite part_ltb_irrefl. Qed.

Lemma key_ltb_trans (a : key) :
  forall b c, key_ltb a b = true -> key_ltb b c = true -> key_ltb a c = true.
Proof.
  induction a as [|x a IH]; intros [|y b] [|z c]; simpl; try discriminate; auto.
  destruct (part_ltb x y) eqn:Exy.
  - intros _. destruct (part_ltb y z) eqn:Eyz.
    + intros _. now rewrite (part_ltb_trans _ _ _ Exy Eyz).
    + destruct (part_ltb z y) eqn:Ezy; [discriminate|].
      rewrite <- (part_ltb_total _ _ Eyz Ezy). now rewrite Exy.
  - destruct (part_ltb y x) eqn:Eyx; [discriminate|].
    rewrite (part_ltb_total _ _ Exy Eyx). intros Hab.
    destruct (part_ltb y z); [reflexivity|].
    destruct (part_ltb z y); [discriminate|]. now apply IH.
Qed.

Lemma key_ltb_total (a : key) :
  forall b, key_ltb a b = false -> key_ltb b a = false -> a = b.
Proof.
  induction a as [|x a IH]; intros [|y b]; simpl; try discriminate; auto.
  destruct (part_ltb x y) eqn:Exy; [discriminate|].
  destruct (part_ltb y x) eqn:Eyx; [discriminate|].
  intros. f_equal; [now apply part_ltb_total|now apply IH].
Qed.

Lemma key_ltb_asym (a b : key) : key_ltb a b = true -> key_ltb b a = false.
Proof.
  intros H. destruct (key_ltb b a) eqn:E; [|reflexivity].
  rewrite <- (key_ltb_irrefl a). symmetry. eapply key_ltb_trans; eauto.
Qed.

(** [b] is not before [a] in natural order. *)
Definition natural_le (a b : string) : Prop :=
  key_ltb (natural_sort_key b) (natural_sort_key a) = false.

Lemma natural_le_trans (a b c : string) :
  natural_le a b -> natural_le b c -> natural_le a c.
Proof.
  unfold natural_le. intros Hab Hbc.
  destruct (key_ltb (natural_sort_key c) (natural_sort_key a)) eqn:Hca;
    [|reflexivity].
  destruct (key_ltb (natural_sort_key a) (natural_sort_key b)) eqn:E.
  - rewrite (key_ltb_trans _ _ _ Hca E) in Hbc. discriminate.
  - rewrite <- (key_ltb_total _ _ E Hab) in Hbc. congruence.
Qed.

(** [sorted(names, key=natural_sort_key)] holds the same names, each not
    after the ones that follow it. *)
Lemma natural_sorted_spec (names : list string) :
  Permutation names (natural_sorted names)
  /\ StronglySorted natural_le (natural_sorted names).
Proof.
  split.
  - apply sorted_perm.
  - apply (sorted_sorted string
             (fun a b => key_ltb (natural_sort_key a) (natural_sort_key b))).
    + intros a b. apply key_ltb_asym.
    + intros a b c. apply natural_le_trans.
Qed.

End NaturalOrder.

Section KeyShape.
Import NaturalSort.
Local Open Scope string_scope.

Definition not_digit (c : ascii) : bool := negb (is_digit c).

Lemma append_empty (a : string) : a ++ "" = a.
Proof. induction a as [|c a IH]; simpl; [reflexivity|now rewrite IH]. Qed.

Lemma append_assoc (a b c : string) : (a ++ b) ++ c = a ++ b ++ c.
Proof. induction a as [|x a IH]; simpl; [reflexivity|now rewrite IH]. Qed.

Lemma all_chars_app (p : ascii -> bool) (a b : string) :
  all_chars p (a ++ b) = all_chars p a && all_chars p b.
Proof.
  induction a as [|c a IH]; simpl; [reflexivity|].
  rewrite IH. now rewrite andb_assoc.
Qed.

Lemma is_number_snoc (cur : string) (c : ascii) :
  is_digit c = true -> (cur = "" \/ is_number cur = true) ->
  is_number (cur ++ String c "") = true.
Proof.
  unfold is_number. intros Hc Hcur. rewrite all_chars_app. simpl. rewrite Hc.
  destruct cur as [|x cur]; simpl; [reflexivity|].
  destruct Hcur as [|H]; [discriminate|]. simpl in H. now rewrite H.
Qed.

Lemma text_not_number (p : string) :
  all_chars not_digit p = true -> is_number p = false.
Proof.
  destruct p as [|c p]; [reflexivity|]. unfold is_number, not_digit. simpl.
  intros H. apply andb_prop in H. destruct H as [H _].
  apply negb_true_iff in H. now rewrite H.
Qed.

(** The pieces of [re.split] alternate: text without digits, a run of
    digits, text without digits, ... *)
Fixpoint alternates (digits : bool) (pieces : list string) : bool :=
  match pieces with
  | [] => true
  | x :: rest =>
      (if digits then is_number x else all_chars not_digit x)
      && alternates (negb digits) rest
  end.

Lemma split_aux_alternates (s : string) :
  forall (in_digits : bool) (cur : string),
    (if in_digits then is_number cur else all_chars not_digit cur) = true ->
    alternates in_digits (split_aux s in_digits cur) = true.
Proof.
  induction s as [|c s IH]; intros in_digits cur Hcur; simpl.
  - destruct in_digits; simpl; rewrite Hcur; reflexivity.
  - destruct (is_digit c) eqn:Hc, in_digits; simpl.
    + apply IH. apply is_number_snoc; auto.
    + rewrite Hcur. simpl. apply IH. unfold is_number. simpl. now rewrite Hc.
    + rewrite Hcur. simpl. apply IH. simpl. unfold not_digit. now rewrite Hc.
    + apply IH. rewrite all_chars_app, Hcur. simpl. unfold not_digit. now rewrite Hc.
Qed.

Lemma shape_of_alternates (pieces : list string) :
  forall digits, alternates digits pieces = true ->
                 shape digits (map part_of pieces) = true.
Proof.
  induction pieces as [|x rest IH]; intros digits; simpl; [reflexivity|].
  intros H. apply andb_prop in H. destruct H as [Hx Hrest].
  unfold part_of. destruct digits.
  - rewrite Hx. simpl. now apply (IH false).
  - rewrite (text_not_number _ Hx). simpl. now apply (IH true).
Qed.

(** A key of [natural_sort_key] has a [str] at every even index and an
    [int] at every odd one: two keys are never compared across kinds. *)
Lemma natural_sort_key_shape (s : string) :
  shape false (natural_sort_key s) = true.
Proof.
  apply shape_of_alternates, split_aux_alternates. reflexivity.
Qed.

Lemma split_aux_digits (a : string) :
  forall cur, all_chars is_digit a = true ->
              split_aux a true cur = [cur ++ a; ""].
Proof.
  induction a as [|c a IH]; intros cur; simpl.
  - intros _. now rewrite append_empty.
  - intros H. apply andb_prop in H. destruct H as [Hc Ha]. rewrite Hc.
    rewrite IH by exact Ha. now rewrite append_assoc.
Qed.

Lemma split_digits_text_number (p a : string) :
  all_chars not_digit p = true -> is_number a = true ->
  split_digits (p ++ a) = [p; a; ""].
Proof.
  intros Hp Ha. unfold split_digits.
  assert (H : forall cur, split_aux (p ++ a) false cur = [cur ++ p; a; ""]).
  { induction p as [|c p IH]; intros cur; simpl.
    - rewrite append_empty. unfold is_number in Ha.
      destruct a as [|d a]; [discriminate|]. simpl in Ha |- *.
      apply andb_prop in Ha. destruct Ha as [Hd Ha]. rewrite Hd.
      now rewrite split_aux_digits.
    - simpl in Hp. apply andb_prop in Hp. destruct Hp as [Hc Hp].
      unfold not_digit in Hc. apply negb_true_iff in Hc. rewrite Hc.
      rewrite IH by exact Hp. now rewrite append_assoc. }
  apply H.
Qed.

(** Behind the same text, two numerals are ordered by their values. *)
Lemma numeric_suffix_order (p a b : string) :
  all_chars not_digit p = true -> is_number a = true -> is_number b = true ->
  key_ltb (natural_sort_key (p ++ a)) (natural_sort_key (p ++ b))
  = (digits_value a 0 <? digits_value b 0)%N.
Proof.
  intros Hp Ha Hb. unfold natural_sort_key.
  rewrite !split_digits_text_number by assumption.
  simpl. unfold part_of. rewrite (text_not_number _ Hp), Ha, Hb. simpl.
  rewrite ltb_irrefl.
  destruct (digits_value a 0 <? digits_value b 0)%N; [reflexivity|].
  now destruct (digits_value b 0 <? digits_value a 0)%N.
Qed.

End KeyShape.

(** ** The experiment blocks of a sheet *)

Section Blocks.
Import NaturalSort.

Variable row_values : metrics -> list value.
Variable records : list metrics.

Lemma blocks_experiments (exps : list string) :
  forall current_row,
    map b_experiment (experiment_blocks row_values records exps current_row)
    = exps.
Proof.
  induction exps as [|e exps IH]; intros current_row; simpl; [reflexivity|].
  now rewrite IH.
Qed.

Lemma blocks_below (exps : list string) :
  forall current_row b,
    In b (experiment_blocks row_values records exps current_row) ->
    current_row < b_header_row b.
Proof.
  induction exps as [|e exps IH]; intros current_row b; simpl; [tauto|].
  intros [<-|Hin].
  - simpl. destruct (3 <? current_row)%nat; lia.
  - apply IH in Hin. destruct (3 <? current_row)%nat; lia.
Qed.

(** The headers of the blocks go down the sheet in the order of [exps]. *)
Lemma blocks_rows_increase (exps : list string) :
  forall current_row,
    StronglySorted Nat.lt
      (map b_header_row (experiment_blocks row_values records exps current_row)).
Proof.
  induction exps as [|e exps IH]; intros current_row; simpl; constructor.
  - apply IH.
  - rewrite Forall_forall. intros row Hrow. apply in_map_iff in Hrow.
    destruct Hrow as (b & <- & Hb). apply blocks_below in Hb.
    destruct (3 <? current_row)%nat; lia.
Qed.

End Blocks.

Section Experiments.
Import NaturalSort.

Lemma unique_in (l : list string) (x : string) : In x (unique l) <-> In x l.
Proof.
  induction l as [|y l IH]; simpl; [tauto|].
  rewrite filter_In, IH. destruct (String.eqb_spec y x) as [->|Hne]; simpl.
  - tauto.
  - intuition congruence.
Qed.

Lemma unique_nodup (l : list string) : NoDup (unique l).
Proof.
  induction l as [|y l IH]; simpl; constructor.
  - rewrite filter_In, String.eqb_refl. simpl. intros [_ H]. discriminate.
  - now apply NoDup_filter.
Qed.

Lemma experiment_column_in (records : list metrics) :
  forall es, experiment_column records = Ok es ->
    forall e, In e es <->
              exists r, In r records /\ Dict.get "Experiment" r = Some (VStr e).
Proof.
  induction records as [|r records IH]; intros es; simpl.
  - intros [= <-] e. simpl. split; [tauto|]. intros (r & [] & _).
  - unfold experiment_of.
    destruct (Dict.get "Experiment" r) as [[| | |e0]|] eqn:Hr; simpl;
      try discriminate.
    destruct (experiment_column records) as [es'|] eqn:Hes; simpl; [|discriminate].
    intros [= <-] e. simpl. rewrite (IH es' eq_refl). split.
    + intros [<-|(r' & Hin & Hget)]; [exists r; auto|exists r'; auto].
    + intros (r' & [<-|Hin] & Hget); [left; congruence|right; eauto].
Qed.

(** The experiments of a group: each experiment of its records once, in
    natural order. *)
Lemma experiments_spec (records : list metrics) (exps : list string) :
  experiments records = Ok exps ->
  NoDup exps
  /\ StronglySorted natural_le exps
  /\ (forall e, In e exps <->
                exists r, In r records
                          /\ Dict.get "Experiment" r = Some (VStr e)).
Proof.
  unfold experiments.
  destruct (experiment_column records) as [es|] eqn:Hes; simpl; [|discriminate].
  intros [= <-]. destruct (natural_sorted_spec (unique es)) as [Hperm Hsorted].
  repeat split.
  - eapply Permutation_NoDup; [exact Hperm|apply unique_nodup].
  - exact Hsorted.
  - intros Hin. apply (experiment_column_in _ _ Hes), unique_in.
    eapply Permutation_in; [symmetry; exact Hperm|exact Hin].
  - intros H. eapply Permutation_in; [exact Hperm|].
    apply unique_in, (experiment_column_in _ _ Hes), H.
Qed.

End Experiments.




(** ** The scan loop *)

(** One turn of the inner loop of the scan: a file of a recognised
    directory, with what the loop has derived from the directory. *)
Record job : Type := Job {
  j_root : string;
  j_relative_path : string;
  j_group_key : string;
  j_experiment : string;
  j_filename : string
}.

(** [os.path.join(root, filename)] *)
Definition job_path (j : job) : string :=
  (j_root j ++ "/" ++ j_filename j)%string.

(** The files of one directory that the loop processes, in its order. *)
Definition dir_jobs (cfg : config) (entry : list string * list string)
  : list job :=
  let (path_parts, files) := entry in
  match files with
  | [] => []
  | _ :: _ =>
      match classify path_parts with
      | (Some group_key, Some experiment) =>
          if truthy (Some group_key) && truthy (Some experiment)
          then map (Job (RESULTS_DIR cfg ++ join "/" path_parts)
                        (join "/" path_parts) group_key experiment)
                   (Sort.sorted ltb files)
          else []
      | _ => []
      end
  end.

(** Every file the scan processes, in order. *)
Definition jobs (cfg : config) (dirs : list (list string * list string))
  : list job :=
  flat_map (dir_jobs cfg) dirs.

(** [data[group_key][filepath]], if there is one. *)
Definition record_at (group_key filepath : string)
    (data : Dict.dict (Dict.dict metrics)) : option metrics :=
  match Dict.get group_key data with
  | Some group => Dict.get filepath group
  | None => None
  end.

Section ScanFacts.

Variable parse : (string -> option string) -> string -> result (option metrics).
Variable cfg : config.
Variable env : Env.
Variable cached_data : Dict.dict (Dict.dict metrics).

Definition run_job (st : scan_state) (j : job) : result scan_state :=
  process_file parse env cached_data (j_root j) (j_relative_path j)
    (j_group_key j) (j_experiment j) st (j_filename j).

Fixpoint run_jobs (js : list job) (st : scan_state) : result scan_state :=
  match js with
  | [] => Ok st
  | j :: js' => st' <- run_job st j ;; run_jobs js' st'
  end.

Lemma run_jobs_app (js1 js2 : list job) (st : scan_state) :
  run_jobs (js1 ++ js2) st = (st' <- run_jobs js1 st ;; run_jobs js2 st').
Proof.
  revert st. induction js1 as [|j js1 IH]; intros st; simpl; [reflexivity|].
  destruct (run_job st j); simpl; [apply IH|reflexivity].
Qed.

Lemma process_files_jobs (root rel g e : string) (files : list string)
    (st : scan_state) :
  process_files parse env cached_data root rel g e files st
  = run_jobs (map (Job root rel g e) files) st.
Proof.
  revert st. induction files as [|f files IH]; intros st; simpl; [reflexivity|].
  unfold run_job at 1. simpl.
  destruct (process_file parse env cached_data root rel g e st f); simpl;
    [apply IH|reflexivity].
Qed.

Lemma process_dir_jobs (st : scan_state) (entry : list string * list string) :
  process_dir parse cfg env cached_data st entry = run_jobs (dir_jobs cfg entry) st.
Proof.
  destruct entry as [path_parts files]. unfold process_dir, dir_jobs.
  destruct files as [|f files]; [reflexivity|].
  destruct (classify path_parts) as [[g|] [e|]]; try reflexivity.
  destruct (truthy (Some g) && truthy (Some e)); [|reflexivity].
  apply process_files_jobs.
Qed.

(** The scan is the run of its jobs. *)
Lemma scan_jobs (dirs : list (list string * list string)) (st : scan_state) :
  scan parse cfg env cached_data dirs st = run_jobs (jobs cfg dirs) st.
Proof.
  revert st. induction dirs as [|entry dirs IH]; intros st; simpl; [reflexivity|].
  unfold jobs. simpl. rewrite run_jobs_app, process_dir_jobs.
  destruct (run_jobs (dir_jobs cfg entry) st); simpl; [apply IH|reflexivity].
Qed.

(** Whether the log [log] holds the live modification time of [path]. *)
Definition up_to_date (log : Dict.dict mtime) (path : string) : bool :=
  unchanged log path (getmtime env path).

Lemma up_to_date_set (log : Dict.dict mtime) (p q : string) :
  up_to_date (Dict.set q (getmtime env q) log) p = true
  <-> p = q \/ up_to_date log p = true.
Proof.
  unfold up_to_date, unchanged.
  destruct (String.eqb_spec p q) as [->|Hne].
  - rewrite get_set_same, Z.eqb_refl. tauto.
  - rewrite get_set_other by exact Hne. intuition congruence.
Qed.

Lemma record_at_set_same (g p : string) (r : metrics)
    (data : Dict.dict (Dict.dict metrics)) :
  record_at g p (set_record g p r data) = Some r.
Proof.
  unfold record_at, set_record. rewrite get_set_same. apply get_set_same.
Qed.

Lemma record_at_set_other (g p g' p' : string) (r : metrics)
    (data : Dict.dict (Dict.dict metrics)) :
  g' <> g \/ p' <> p ->
  record_at g' p' (set_record g p r data) = record_at g' p' data.
Proof.
  intros Hne. unfold record_at, set_record.
  destruct (String.eqb_spec g' g) as [->|Hg].
  - destruct Hne as [Hne|Hp]; [congruence|].
    rewrite get_set_same, get_set_other by exact Hp.
    destruct (Dict.get g data); reflexivity.
  - now rewrite get_set_other.
Qed.

(** The dataset after a cache hit on [j]. *)
Definition reuse (j : job) (data : Dict.dict (Dict.dict metrics))
  : Dict.dict (Dict.dict metrics) :=
  match record_at (j_group_key j) (job_path j) cached_data with
  | Some record => set_record (j_group_key j) (job_path j) record data
  | None => data
  end.

(** The three ways a turn of the loop ends without an exception. *)
Inductive turn (st : scan_state) (j : job) (st' : scan_state) : Prop :=
| TurnHit :
    up_to_date (processed_files_log st) (job_path j) = true ->
    data_by_prefetcher st' = reuse j (data_by_prefetcher st) ->
    processed_files_log st' = processed_files_log st ->
    new_files_count st' = new_files_count st ->
    skipped_files_count st' = skipped_files_count st + 1 ->
    printed_lines st' = printed_lines st ->
    parse_calls st' = parse_calls st ->
    turn st j st'
| TurnUnreadable :
    up_to_date (processed_files_log st) (job_path j) = false ->
    parse (read env) (job_path j) = Ok None ->
    data_by_prefetcher st' = data_by_prefetcher st ->
    processed_files_log st' = processed_files_log st ->
    new_files_count st' = new_files_count st + 1 ->
    skipped_files_count st' = skipped_files_count st ->
    (exists pre, printed_lines st'
                 = printed_lines st ++ pre ++ [MsgReadError (job_path j)]
                 /\ (pre = [] \/ pre = [MsgProcessingDir (j_relative_path j)])) ->
    parse_calls st' = parse_calls st ++ [job_path j] ->
    turn st j st'
| TurnFresh (m : metrics) :
    up_to_date (processed_files_log st) (job_path j) = false ->
    parse (read env) (job_path j) = Ok (Some m) ->
    m <> [] ->
    data_by_prefetcher st'
    = set_record (j_group_key j) (job_path j)
        (Dict.set "Experiment" (VStr (j_experiment j)) m) (data_by_prefetcher st) ->
    processed_files_log st'
    = Dict.set (job_path j) (getmtime env (job_path j)) (processed_files_log st) ->
    new_files_count st' = new_files_count st + 1 ->
    skipped_files_count st' = skipped_files_count st ->
    (exists pre, printed_lines st' = printed_lines st ++ pre
                 /\ (pre = [] \/ pre = [MsgProcessingDir (j_relative_path j)])) ->
    parse_calls st' = parse_calls st ++ [job_path j] ->
    turn st j st'
| TurnEmpty :
    (* [parse_champsim_file] returned an empty dict: counted, not kept *)
    up_to_date (processed_files_log st) (job_path j) = false ->
    parse (read env) (job_path j) = Ok (Some []) ->
    data_by_prefetcher st' = data_by_prefetcher st ->
    processed_files_log st' = processed_files_log st ->
    new_files_count st' = new_files_count st + 1 ->
    skipped_files_count st' = skipped_files_count st ->
    (exists pre, printed_lines st' = printed_lines st ++ pre
                 /\ (pre = [] \/ pre = [MsgProcessingDir (j_relative_path j)])) ->
    parse_calls st' = parse_calls st ++ [job_path j] ->
    turn st j st'.

Lemma run_job_turn (st st' : scan_state) (j : job) :
  run_job st j = Ok st' -> turn st j st'.
Proof.
  unfold run_job, process_file. fold (job_path j).
  fold (up_to_date (processed_files_log st) (job_path j)).
  destruct (up_to_date (processed_files_log st) (job_path j)) eqn:Hhit.
  - intros [= <-]. apply TurnHit; simpl; auto.
    unfold reuse, record_at.
    destruct (Dict.get (j_group_key j) cached_data) as [group|]; [|reflexivity].
    destruct (Dict.get (job_path j) group); reflexivity.
  - destruct (parse (read env) (job_path j)) as [[m|]|e] eqn:Hp; [| |discriminate].
    + destruct m as [|kv m].
      * intros [= <-]. apply TurnEmpty; simpl; auto.
        destruct (existsb _ _); [exists []|eexists [_]]; rewrite ?app_nil_r; auto.
      * intros [= <-]. apply TurnFresh with (m := kv :: m); simpl; auto.
        -- discriminate.
        -- destruct (existsb _ _); [exists []|eexists [_]]; rewrite ?app_nil_r; auto.
    + intros [= <-]. apply TurnUnreadable; simpl; auto.
      destruct (existsb _ _);
        [exists []|exists [MsgProcessingDir (j_relative_path j)]];
        simpl; rewrite <- ?app_assoc; auto.
Qed.

End ScanFacts.

(** What the scan needs of [parse_champsim_file]: it returns [None]
    exactly on a file it cannot read, and a record is never empty. *)
Definition reads_then_extracts
    (parse : (string -> option string) -> string -> result (option metrics))
  : Prop :=
  (forall rd p, rd p = None -> parse rd p = Ok None)
  /\ (forall rd p, parse rd p = Ok None -> rd p = None)
  /\ (forall rd p m, parse rd p = Ok (Some m) -> m <> []).

Lemma parse_old_reads : reads_then_extracts CollectData.parse_champsim_file.
Proof.
  unfold reads_then_extracts, CollectData.parse_champsim_file. repeat split.
  - intros rd p ->. reflexivity.
  - intros rd p. destruct (rd p); [|reflexivity].
    destruct (CollectData.parse_content p s); discriminate.
  - intros rd p m. destruct (rd p) as [content|]; [|discriminate].
    destruct (CollectData.parse_content p content) as [m'|] eqn:H; simpl;
      [|discriminate].
    intros [= <-]. eapply apply_rules_not_empty; [exact H|discriminate].
Qed.

Lemma parse_new_reads : reads_then_extracts CollectDataNew.parse_champsim_file.
Proof.
  unfold reads_then_extracts, CollectDataNew.parse_champsim_file. repeat split.
  - intros rd p ->. reflexivity.
  - intros rd p. destruct (rd p); [|reflexivity].
    destruct (CollectDataNew.parse_content p s); discriminate.
  - intros rd p m. destruct (rd p) as [content|]; [|discriminate].
    destruct (CollectDataNew.parse_content p content) as [m'|] eqn:H; simpl;
      [|discriminate].
    intros [= <-]. eapply apply_rules_not_empty; [exact H|discriminate].
Qed.

Section ScanRun.

Variable parse : (string -> option string) -> string -> result (option metrics).
Variable env : Env.
Variable cached_data : Dict.dict (Dict.dict metrics).

Hypothesis parse_ok : reads_then_extracts parse.

Local Abbreviation run := (run_jobs parse env cached_data).
Local Abbreviation step := (turn parse env cached_data).
Local Abbreviation fresh_log := (up_to_date env).

Lemma run_cons (j : job) (js : list job) (st st' : scan_state) :
  run (j :: js) st = Ok st' ->
  exists st1, step st j st1 /\ run js st1 = Ok st'.
Proof.
  simpl. destruct (run_job parse env cached_data st j) as [st1|] eqn:H1; simpl;
    [|discriminate].
  intros H. exists st1. split; [now apply run_job_turn|exact H].
Qed.

Lemma step_keeps_up_to_date (st st' : scan_state) (j : job) (p : string) :
  step st j st' ->
  fresh_log (processed_files_log st) p = true ->
  fresh_log (processed_files_log st') p = true.
Proof.
  intros [] Hp; try congruence.
  match goal with H : processed_files_log st' = Dict.set _ _ _ |- _ => rewrite H end.
  apply up_to_date_set. now right.
Qed.

Lemma run_keeps_up_to_date (js : list job) (p : string) :
  forall st st', run js st = Ok st' ->
    fresh_log (processed_files_log st) p = true ->
    fresh_log (processed_files_log st') p = true.
Proof.
  induction js as [|j js IH]; intros st st' H Hp.
  - simpl in H. now injection H as <-.
  - apply run_cons in H. destruct H as (st1 & H1 & H).
    eapply IH; [exact H|]. eapply step_keeps_up_to_date; eauto.
Qed.

Lemma step_count (st st' : scan_state) (j : job) :
  step st j st' ->
  new_files_count st' =
  new_files_count st
  + (if fresh_log (processed_files_log st) (job_path j) then 0 else 1).
Proof.
  intros [];
    match goal with H : fresh_log _ _ = _ |- _ => rewrite H end; lia.
Qed.

Lemma run_count_grows (js : list job) :
  forall st st', run js st = Ok st' -> new_files_count st <= new_files_count st'.
Proof.
  induction js as [|j js IH]; intros st st' H.
  - simpl in H. injection H as <-. lia.
  - apply run_cons in H. destruct H as (st1 & H1 & H).
    apply IH in H. apply step_count in H1. lia.
Qed.

(** A scan that counted no new file found every file up to date and left
    the log as it was. *)
Lemma run_count_zero (js : list job) :
  forall st st', run js st = Ok st' ->
    new_files_count st' = new_files_count st ->
    processed_files_log st' = processed_files_log st
    /\ forall j, In j js -> fresh_log (processed_files_log st) (job_path j) = true.
Proof.
  induction js as [|j js IH]; intros st st' H Hcount.
  - simpl in H. injection H as <-. split; [reflexivity|intros j []].
  - apply run_cons in H. destruct H as (st1 & H1 & H).
    pose proof (run_count_grows _ _ _ H) as Hle.
    pose proof (step_count _ _ _ H1) as Hstep.
    destruct (fresh_log (processed_files_log st) (job_path j)) eqn:Hhit; [|lia].
    assert (Hlog : processed_files_log st1 = processed_files_log st)
      by (destruct H1; congruence).
    destruct (IH _ _ H) as [Hlog' Hall]; [lia|].
    split; [congruence|].
    intros j' [<-|Hin]; [exact Hhit|]. rewrite <- Hlog. now apply Hall.
Qed.

(** After a scan every readable file it met is up to date in the log. *)
Lemma run_commits (js : list job) :
  forall st st', run js st = Ok st' ->
    forall j, In j js -> read env (job_path j) <> None ->
              fresh_log (processed_files_log st') (job_path j) = true.
Proof.
  destruct parse_ok as (_ & Hnone & _).
  induction js as [|j js IH]; intros st st' H j' Hin Hread; [destruct Hin|].
  apply run_cons in H. destruct H as (st1 & H1 & H).
  destruct Hin as [<-|Hin]; [|eapply IH; eauto].
  eapply run_keeps_up_to_date; [exact H|].
  destruct H1 as [Hhit Hd Hlog| ? Hp | m ? Hp Hm Hd Hlog | ? Hp].
  - now rewrite Hlog.
  - apply Hnone in Hp. contradiction.
  - rewrite Hlog. apply up_to_date_set. now left.
  - destruct parse_ok as (_ & _ & Hne). now apply Hne in Hp.
Qed.

(** The turn on a file that is up to date. *)
Definition skip (j : job) (st : scan_state) : scan_state :=
  {| data_by_prefetcher := reuse cached_data j (data_by_prefetcher st);
     processed_files_log := processed_files_log st;
     new_files_count := new_files_count st;
     skipped_files_count := skipped_files_count st + 1;
     announced_dirs := announced_dirs st;
     printed_lines := printed_lines st;
     parse_calls := parse_calls st |}.

Lemma run_job_hit (st : scan_state) (j : job) :
  fresh_log (processed_files_log st) (job_path j) = true ->
  run_job parse env cached_data st j = Ok (skip j st).
Proof.
  intros Hhit. unfold run_job, process_file. fold (job_path j).
  unfold up_to_date in Hhit. rewrite Hhit. unfold skip, reuse, record_at.
  destruct (Dict.get (j_group_key j) cached_data) as [group|]; [|reflexivity].
  destruct (Dict.get (job_path j) group); reflexivity.
Qed.

(** A scan over files that are all up to date calls the extractor on
    none, counts none as new, prints nothing and leaves the log alone. *)
Lemma run_all_hits (js : list job) :
  forall st,
    (forall j, In j js -> fresh_log (processed_files_log st) (job_path j) = true) ->
    exists st', run js st = Ok st'
      /\ processed_files_log st' = processed_files_log st
      /\ new_files_count st' = new_files_count st
      /\ skipped_files_count st' = skipped_files_count st + List.length js
      /\ printed_lines st' = printed_lines st
      /\ parse_calls st' = parse_calls st.
Proof.
  induction js as [|j js IH]; intros st Hall.
  - exists st. simpl. repeat split; auto.
  - simpl. rewrite run_job_hit by (apply Hall; now left). simpl.
    destruct (IH (skip j st)) as (st' & Hrun & Hlog & Hnew & Hskip & Hpr & Hpc).
    { intros j' Hin. simpl. apply Hall. now right. }
    exists st'. simpl in *. repeat split; auto. lia.
Qed.

End ScanRun.

Section ScanReuse.

Variable parse : (string -> option string) -> string -> result (option metrics).
Variable env : Env.
Variable cached_data : Dict.dict (Dict.dict metrics).

Hypothesis parse_ok : reads_then_extracts parse.

(** The log as loaded before the scan. *)
Variable log0 : Dict.dict mtime.

Local Abbreviation run := (run_jobs parse env cached_data).
Local Abbreviation step := (turn parse env cached_data).
Local Abbreviation fresh_log := (up_to_date env).

(** What holds of the scan state all along, relative to the log the run
    started from. *)
Record reuse_inv (st : scan_state) : Prop := {
  inv_log : forall p,
    fresh_log log0 p = true -> fresh_log (processed_files_log st) p = true;
  inv_calls : forall p,
    In p (parse_calls st) -> fresh_log log0 p = false;
  inv_data : forall g p r,
    fresh_log log0 p = true ->
    record_at g p (data_by_prefetcher st) = Some r ->
    record_at g p cached_data = Some r
}.

Lemma inv_initial : reuse_inv (initial_state log0).
Proof.
  constructor; simpl.
  - auto.
  - intros p [].
  - intros g p r _ H. discriminate H.
Qed.

Lemma stale_in_log0 (st : scan_state) (p : string) :
  reuse_inv st -> fresh_log (processed_files_log st) p = false ->
  fresh_log log0 p = false.
Proof.
  intros Hinv Hst. destruct (fresh_log log0 p) eqn:E; [|reflexivity].
  apply (inv_log _ Hinv) in E. congruence.
Qed.

Lemma record_at_set_cases (g p g' p' : string) (r r' : metrics)
    (data : Dict.dict (Dict.dict metrics)) :
  record_at g' p' (set_record g p r data) = Some r' ->
  (g' = g /\ p' = p /\ r' = r) \/ record_at g' p' data = Some r'.
Proof.
  destruct (String.eqb_spec g' g) as [->|Hg];
    [destruct (String.eqb_spec p' p) as [->|Hp]|].
  - rewrite record_at_set_same. intros [= <-]. now left.
  - rewrite record_at_set_other by now right. now right.
  - rewrite record_at_set_other by now left. now right.
Qed.

Lemma step_inv (st st' : scan_state) (j : job) :
  step st j st' -> reuse_inv st -> reuse_inv st'.
Proof.
  intros Hstep Hinv.
  assert (Hcalls : fresh_log (processed_files_log st) (job_path j) = false ->
            forall p, In p (parse_calls st ++ [job_path j]) ->
                      fresh_log log0 p = false).
  { intros Hstale p Hin. apply in_app_or in Hin. destruct Hin as [Hin|[<-|[]]].
    - now apply (inv_calls _ Hinv).
    - now apply (stale_in_log0 st). }
  destruct Hstep as [Hhit Hd Hlog _ _ _ Hpc
                    |Hstale _ Hd Hlog _ _ _ Hpc
                    |m Hstale _ _ Hd Hlog _ _ _ Hpc
                    |Hstale _ Hd Hlog _ _ _ Hpc];
    constructor; rewrite ?Hd, ?Hlog, ?Hpc.
  - apply (inv_log _ Hinv).
  - apply (inv_calls _ Hinv).
  - intros g p r Hp. unfold reuse.
    destruct (record_at (j_group_key j) (job_path j) cached_data) as [rec|] eqn:Hc;
      [|now apply (inv_data _ Hinv)].
    intros H. apply record_at_set_cases in H.
    destruct H as [(-> & -> & ->)|H]; [exact Hc|now apply (inv_data _ Hinv g p)].
  - apply (inv_log _ Hinv).
  - now apply Hcalls.
  - apply (inv_data _ Hinv).
  - intros p Hp. apply up_to_date_set. right. now apply (inv_log _ Hinv).
  - now apply Hcalls.
  - intros g p r Hp H. apply record_at_set_cases in H.
    destruct H as [(-> & -> & ->)|H]; [|now apply (inv_data _ Hinv g p)].
    apply (stale_in_log0 st) in Hstale; [congruence|exact Hinv].
  - apply (inv_log _ Hinv).
  - now apply Hcalls.
  - apply (inv_data _ Hinv).
Qed.

Lemma run_inv (js : list job) :
  forall st st', run js st = Ok st' -> reuse_inv st -> reuse_inv st'.
Proof.
  induction js as [|j js IH]; intros st st' H Hinv.
  - simpl in H. now injection H as <-.
  - apply run_cons in H. destruct H as (st1 & H1 & H).
    eapply IH; [exact H|]. eapply step_inv; eauto.
Qed.

Lemma step_present (st st' : scan_state) (j : job) (g p : string) :
  step st j st' ->
  record_at g p (data_by_prefetcher st) <> None ->
  record_at g p (data_by_prefetcher st') <> None.
Proof.
  assert (Hset : forall g0 p0 r data,
             record_at g p data <> None ->
             record_at g p (set_record g0 p0 r data) <> None).
  { intros g0 p0 r data H.
    destruct (String.eqb_spec g g0) as [->|Hg];
      [destruct (String.eqb_spec p p0) as [->|Hp]|].
    - rewrite record_at_set_same. discriminate.
    - rewrite record_at_set_other by now right. exact H.
    - rewrite record_at_set_other by now left. exact H. }
  intros Hstep Hpres.
  destruct Hstep as [_ Hd| _ _ Hd | m _ _ _ Hd | _ _ Hd]; rewrite Hd; auto.
  unfold reuse. destruct (record_at _ _ cached_data); auto.
Qed.

Lemma run_present (js : list job) (g p : string) :
  forall st st', run js st = Ok st' ->
    record_at g p (data_by_prefetcher st) <> None ->
    record_at g p (data_by_prefetcher st') <> None.
Proof.
  induction js as [|j js IH]; intros st st' H Hp.
  - simpl in H. now injection H as <-.
  - apply run_cons in H. destruct H as (st1 & H1 & H).
    eapply IH; [exact H|]. eapply step_present; eauto.
Qed.

(** No file that was up to date in the loaded log is parsed. *)
Lemma run_skips_parse (js : list job) (st' : scan_state) (p : string) :
  run js (initial_state log0) = Ok st' ->
  fresh_log log0 p = true -> ~ In p (parse_calls st').
Proof.
  intros H Hp Hin.
  apply (inv_calls _ (run_inv _ _ _ H inv_initial)) in Hin. congruence.
Qed.

(** The record the cache holds for a file that is up to date is the
    file's record in the dataset. *)
Lemma run_reuses (js : list job) :
  forall st st', run js st = Ok st' -> reuse_inv st ->
    forall j rec, In j js -> fresh_log log0 (job_path j) = true ->
      record_at (j_group_key j) (job_path j) cached_data = Some rec ->
      record_at (j_group_key j) (job_path j) (data_by_prefetcher st') = Some rec.
Proof.
  induction js as [|j js IH]; intros st st' H Hinv j' rec Hin Hp Hc; [destruct Hin|].
  apply run_cons in H. destruct H as (st1 & H1 & H).
  pose proof (step_inv _ _ _ H1 Hinv) as Hinv1.
  destruct Hin as [<-|Hin]; [|eapply IH; eauto].
  assert (Hst1 : record_at (j_group_key j) (job_path j) (data_by_prefetcher st1)
                 = Some rec).
  { pose proof (inv_log _ Hinv _ Hp) as Hhit.
    destruct H1 as [_ Hd| Hs | m Hs | Hs]; try congruence.
    rewrite Hd. unfold reuse. rewrite Hc. apply record_at_set_same. }
  destruct (record_at (j_group_key j) (job_path j) (data_by_prefetcher st'))
    as [r'|] eqn:Hr'.
  - apply (inv_data _ (run_inv _ _ _ H Hinv1) _ _ _ Hp) in Hr'. congruence.
  - exfalso. eapply run_present; [exact H| |exact Hr']. congruence.
Qed.

(** A turn on another path leaves the records and the log entry of [p]
    alone. *)
Lemma step_frame (st st' : scan_state) (j : job) (p : string) :
  step st j st' -> job_path j <> p ->
  (forall g, record_at g p (data_by_prefetcher st')
             = record_at g p (data_by_prefetcher st))
  /\ Dict.get p (processed_files_log st') = Dict.get p (processed_files_log st).
Proof.
  intros Hstep Hne.
  destruct Hstep as [_ Hd Hlog| _ _ Hd Hlog | m _ _ _ Hd Hlog | _ _ Hd Hlog];
    rewrite Hd, Hlog; split; auto.
  - intros g. unfold reuse. destruct (record_at _ _ cached_data); [|reflexivity].
    apply record_at_set_other. right. congruence.
  - intros g. apply record_at_set_other. right. congruence.
  - apply get_set_other. congruence.
Qed.

Lemma run_frame (js : list job) (p : string) :
  forall st st', run js st = Ok st' ->
    (forall j, In j js -> job_path j <> p) ->
    (forall g, record_at g p (data_by_prefetcher st')
               = record_at g p (data_by_prefetcher st))
    /\ Dict.get p (processed_files_log st') = Dict.get p (processed_files_log st).
Proof.
  induction js as [|j js IH]; intros st st' H Hne.
  - simpl in H. injection H as <-. auto.
  - apply run_cons in H. destruct H as (st1 & H1 & H).
    destruct (IH _ _ H) as [Hd Hl]; [intros; apply Hne; now right|].
    destruct (step_frame _ _ _ p H1) as [Hd1 Hl1]; [apply Hne; now left|].
    split; [intros g; rewrite Hd; apply Hd1|congruence].
Qed.

(** With each path listed once, the record extracted from a new or
    modified file is the file's record in the dataset, with its
    experiment attached, and the log holds the file's modification time. *)
Lemma run_fresh (js : list job) :
  forall st st', run js st = Ok st' -> NoDup (map job_path js) ->
    forall j m, In j js ->
      fresh_log (processed_files_log st) (job_path j) = false ->
      parse (read env) (job_path j) = Ok (Some m) ->
      record_at (j_group_key j) (job_path j) (data_by_prefetcher st')
      = Some (Dict.set "Experiment" (VStr (j_experiment j)) m)
      /\ Dict.get (job_path j) (processed_files_log st')
         = Some (getmtime env (job_path j)).
Proof.
  induction js as [|j js IH]; intros st st' H Hnd j' m Hin Hstale Hp;
    [destruct Hin|].
  apply run_cons in H. destruct H as (st1 & H1 & H).
  simpl in Hnd. inversion Hnd as [|? ? Hnotin Hnd']; subst.
  destruct Hin as [<-|Hin].
  - destruct (run_frame js (job_path j) _ _ H) as [Hd Hl].
    { intros j' Hin Heq. apply Hnotin. rewrite <- Heq. now apply in_map. }
    rewrite Hd, Hl.
    destruct H1 as [Hhit| Hs1 Hp1 | m1 Hs1 Hp1 Hm1 Hd1 Hl1 | Hs1 Hp1]; try congruence.
    + rewrite Hd1, Hl1, record_at_set_same, get_set_same.
      replace m1 with m by congruence. auto.
    + destruct parse_ok as (_ & _ & Hne). apply Hne in Hp1. congruence.
  - eapply IH; eauto.
    destruct (step_frame _ _ _ (job_path j') H1) as [_ Hl].
    { intros Heq. apply Hnotin. rewrite Heq. now apply in_map. }
    unfold up_to_date, unchanged in *. now rewrite Hl.
Qed.

(** A new or modified file that cannot be read leaves no trace in the
    dataset or the log. *)
Lemma step_unreadable (st st' : scan_state) (j : job) (p : string) :
  step st j st' -> read env p = None ->
  fresh_log (processed_files_log st) p = false ->
  (forall g, record_at g p (data_by_prefetcher st')
             = record_at g p (data_by_prefetcher st))
  /\ Dict.get p (processed_files_log st') = Dict.get p (processed_files_log st).
Proof.
  intros Hstep Hread Hstale.
  destruct (String.eqb_spec (job_path j) p) as [Heq|Hne];
    [|now apply (step_frame st st' j)].
  destruct parse_ok as (Hnone & _ & _).
  rewrite <- Heq in Hread, Hstale. specialize (Hnone _ _ Hread).
  destruct Hstep as [Hh Hd Hlog| Hs Hq Hd Hlog | m Hs Hq Hm Hd Hlog | Hs Hq Hd Hlog];
    try congruence; rewrite Hd, Hlog; auto.
Qed.

Lemma run_unreadable (js : list job) (p : string) :
  forall st st', run js st = Ok st' -> read env p = None ->
    fresh_log (processed_files_log st) p = false ->
    (forall g, record_at g p (data_by_prefetcher st')
               = record_at g p (data_by_prefetcher st))
    /\ Dict.get p (processed_files_log st') = Dict.get p (processed_files_log st).
Proof.
  induction js as [|j js IH]; intros st st' H Hread Hstale.
  - simpl in H. injection H as <-. auto.
  - apply run_cons in H. destruct H as (st1 & H1 & H).
    destruct (step_unreadable _ _ _ p H1 Hread Hstale) as [Hd1 Hl1].
    destruct (IH _ _ H Hread) as [Hd Hl].
    { unfold up_to_date, unchanged in *. now rewrite Hl1. }
    split; [intros g; rewrite Hd; apply Hd1|congruence].
Qed.

(** It is counted as a new file all the same. *)
Lemma run_counts_unreadable (js : list job) :
  forall st st' j, run js st = Ok st' -> In j js ->
    read env (job_path j) = None ->
    fresh_log (processed_files_log st) (job_path j) = false ->
    new_files_count st < new_files_count st'.
Proof.
  induction js as [|j0 js IH]; intros st st' j H Hin Hread Hstale; [destruct Hin|].
  apply run_cons in H. destruct H as (st1 & H1 & H).
  pose proof (step_count _ _ _ _ _ _ H1) as Hc.
  destruct Hin as [->|Hin].
  - rewrite Hstale in Hc. apply run_count_grows in H. lia.
  - destruct (step_unreadable _ _ _ (job_path j) H1 Hread Hstale) as [_ Hl].
    assert (new_files_count st1 < new_files_count st').
    { eapply IH; eauto. unfold up_to_date, unchanged in *. now rewrite Hl. }
    destruct (fresh_log _ (job_path j0)); lia.
Qed.

End ScanReuse.

(** ** Writing the report *)

(** The lines that report a failure: the two error messages and the
    warning of [save_json_data]. *)
Definition is_failure (m : msg) : bool :=
  match m with
  | MsgDirNotFound | MsgWriteError | MsgSaveWarning _ => true
  | _ => false
  end.

(** No line of [out] reports a failure. *)
Definition calm (out : list msg) : Prop :=
  forallb (fun m => negb (is_failure m)) out = true.

(** The number of messages in [out] that report the failure of the run. *)
Definition error_count (out : list msg) : nat :=
  List.length (filter is_error out).

Lemma calm_app (a b : list msg) : calm (a ++ b) <-> calm a /\ calm b.
Proof. unfold calm. rewrite forallb_app. apply andb_true_iff. Qed.

Lemma calm_no_errors (out : list msg) : calm out -> error_count out = 0.
Proof.
  unfold calm, error_count. induction out as [|m out IH]; simpl; [reflexivity|].
  intros H. apply andb_prop in H. destruct H as [Hm Hout].
  destruct m; simpl in *; try discriminate; auto.
Qed.

Lemma calm_not_in (out : list msg) (m : msg) :
  calm out -> is_failure m = true -> ~ In m out.
Proof.
  unfold calm. rewrite forallb_forall. intros H Hm Hin.
  apply H in Hin. rewrite Hm in Hin. discriminate.
Qed.

Lemma error_count_app (a b : list msg) :
  error_count (a ++ b) = error_count a + error_count b.
Proof. unfold error_count. now rewrite filter_app, length_app. Qed.

Lemma write_groups_old_lines (sheet_names : list string)
    (data : Dict.dict (Dict.dict metrics)) (group_keys : list string) :
  forall book lines lines' r,
    write_groups_old sheet_names data group_keys book lines = (lines', r) ->
    exists extra, lines' = lines ++ extra /\ calm extra.
Proof.
  induction group_keys as [|g gs IH]; intros book lines lines' r; simpl.
  - intros [= <- <-]. exists []. now rewrite app_nil_r.
  - destruct (data_list data g) as [|r0 records]; [apply IH|].
    destruct (render_sheet _ _ g (r0 :: records)) as [ws|e].
    + intros H. apply IH in H. destruct H as (extra & -> & Hextra).
      exists ([MsgGroup g; MsgSheetDone (sheet_name g)] ++ extra).
      split; [now rewrite <- !app_assoc|]. apply calm_app. now split.
    + intros [= <- <-]. exists [MsgGroup g]. now split.
Qed.

Lemma write_groups_new_lines (data : Dict.dict (Dict.dict metrics))
    (group_keys : list string) :
  forall book lines lines' r,
    write_groups_new data group_keys book lines = (lines', r) ->
    exists extra, lines' = lines ++ extra /\ calm extra.
Proof.
  induction group_keys as [|g gs IH]; intros book lines lines' r; simpl.
  - intros [= <- <-]. exists []. now rewrite app_nil_r.
  - destruct (data_list data g) as [|r0 records]; [apply IH|].
    destruct (render_sheet _ _ g (r0 :: records)) as [ws|e].
    + intros H. apply IH in H. destruct H as (extra & -> & Hextra).
      exists ([MsgGroup g; MsgSheetDone (sheet_name g)] ++ extra).
      split; [now rewrite <- !app_assoc|]. apply calm_app. now split.
    + intros [= <- <-]. exists [MsgGroup g]. now split.
Qed.

Lemma preserve_sheets_lines (old_sheets : workbook) :
  forall book lines book' lines',
    preserve_sheets old_sheets book lines = (book', lines') ->
    exists extra, lines' = lines ++ extra /\ calm extra.
Proof.
  induction old_sheets as [|[name ws] rest IH]; intros book lines book' lines'; simpl.
  - intros [= <- <-]. exists []. now rewrite app_nil_r.
  - destruct (owned name); [apply IH|].
    intros H. apply IH in H. destruct H as (extra & -> & Hextra).
    exists ([MsgPreserving name] ++ extra).
    split; [now rewrite <- !app_assoc|]. apply calm_app. now split.
Qed.

(** What [main] needs of the [try] block that writes the report. *)
Record report_writer
    (write_report : config -> Env -> Disk -> scan_state -> list msg -> outcome)
  : Prop := {
  wr_returns : forall cfg env disk st lines,
    exists d out, write_report cfg env disk st lines = Returned d out;
  wr_output_dir : forall cfg env disk st lines,
    output_dir (disk_of (write_report cfg env disk st lines)) = output_dir disk;
  wr_success : forall cfg env disk st lines d out,
    write_report cfg env disk st lines = Returned d out ->
    calm lines -> calm out ->
    processed_log d = Stored (processed_files_log st)
    /\ data_cache d = Stored (pop_is_new (data_by_prefetcher st))
    /\ exists book, report d = Stored book;
  wr_failure : forall cfg env disk st lines d out,
    write_report cfg env disk st lines = Returned d out ->
    calm lines -> In MsgWriteError out ->
    error_count out = 1
    /\ processed_log d = processed_log disk
    /\ data_cache d = data_cache disk
    /\ ((forall p b, book_save env p b <> WritePartial) ->
        move env <> WritePartial -> report d = report disk)
}.

Lemma failed_lines (lines extra : list msg) :
  calm lines -> calm extra ->
  error_count ((lines ++ extra) ++ [MsgWriteError]) = 1
  /\ ~ calm ((lines ++ extra) ++ [MsgWriteError]).
Proof.
  intros Hl He. split.
  - rewrite !error_count_app, (calm_no_errors _ Hl), (calm_no_errors _ He).
    reflexivity.
  - intros H. apply calm_app in H. destruct H as [_ H]. discriminate H.
Qed.

Lemma persist_caches_spec (cfg : config) (env : Env) (disk : Disk)
    (st : scan_state) (lines : list msg) (d : Disk) (out : list msg) :
  persist_caches cfg env disk st lines = Returned d out ->
  calm lines ->
  ~ In MsgWriteError out
  /\ report d = report disk
  /\ output_dir d = output_dir disk
  /\ (calm out ->
      processed_log d = Stored (processed_files_log st)
      /\ data_cache d = Stored (pop_is_new (data_by_prefetcher st))).
Proof.
  unfold persist_caches, save_json_data. intros H Hl.
  destruct (json_write env (DATA_CACHE_FILE cfg));
    destruct (json_write env (PROCESSED_LOG_FILE cfg));
    injection H as <- <-; simpl;
    (split; [intros Hin; apply in_app_or in Hin; destruct Hin as [Hin|Hin];
             [now apply (calm_not_in _ _ Hl) in Hin
             |simpl in Hin; intuition discriminate]|]);
    (split; [reflexivity|]); (split; [reflexivity|]);
    intros Hc; apply calm_app in Hc; destruct Hc as [_ Hc];
    try discriminate Hc; auto.
Qed.

Lemma old_writer : report_writer write_report_old.
Proof.
  constructor; intros cfg env disk st lines; unfold write_report_old.
  - destruct (report disk) as [| |old_book];
      try destruct (write_groups_old _ _ _ _ lines) as [lines' [book|e]];
      try destruct (book_save env (EXCEL_OUTPUT_PATH cfg) book);
      unfold persist_caches, save_json_data;
      repeat destruct (json_write env _); eauto.
  - destruct (report disk) as [| |old_book];
      try destruct (write_groups_old _ _ _ _ lines) as [lines' [book|e]];
      try destruct (book_save env (EXCEL_OUTPUT_PATH cfg) book);
      unfold persist_caches, save_json_data;
      repeat destruct (json_write env _); reflexivity.
  - intros d out H Hl Hout.
    assert (Hbad : forall extra, calm extra ->
                     out = (lines ++ extra) ++ [MsgWriteError] -> False).
    { intros extra He ->. now apply (failed_lines lines extra Hl He). }
    destruct (report disk) as [| |old_book] eqn:Hrep.
    + destruct (write_groups_old _ _ _ _ lines) as [lines' [book|e]] eqn:Hg;
        apply write_groups_old_lines in Hg; destruct Hg as (extra & -> & He).
      * destruct (book_save env (EXCEL_OUTPUT_PATH cfg) book);
          try (injection H as <- <-; exfalso; now apply (Hbad extra)).
        apply persist_caches_spec in H; [|apply calm_app; now split].
        destruct H as (_ & Hr & _ & Hc). destruct (Hc Hout) as [H1 H2].
        repeat split; auto. rewrite Hr. simpl. eauto.
      * injection H as <- <-. exfalso. now apply (Hbad extra).
    + injection H as <- <-. exfalso. apply (Hbad []); [reflexivity|].
      now rewrite app_nil_r.
    + destruct (write_groups_old _ _ _ _ lines) as [lines' [book|e]] eqn:Hg;
        apply write_groups_old_lines in Hg; destruct Hg as (extra & -> & He).
      * destruct (book_save env (EXCEL_OUTPUT_PATH cfg) book);
          try (injection H as <- <-; exfalso; now apply (Hbad extra)).
        apply persist_caches_spec in H; [|apply calm_app; now split].
        destruct H as (_ & Hr & _ & Hc). destruct (Hc Hout) as [H1 H2].
        repeat split; auto. rewrite Hr. simpl. eauto.
      * injection H as <- <-. exfalso. now apply (Hbad extra).
  - intros d out H Hl Hin.
    destruct (report disk) as [| |old_book] eqn:Hrep.
    + destruct (write_groups_old _ _ _ _ lines) as [lines' [book|e]] eqn:Hg;
        apply write_groups_old_lines in Hg; destruct Hg as (extra & -> & He).
      * destruct (book_save env (EXCEL_OUTPUT_PATH cfg) book) eqn:Hsave.
        -- apply persist_caches_spec in H; [|apply calm_app; now split].
           destruct H as (Hno & _). contradiction.
        -- injection H as <- <-. repeat split; auto. now apply failed_lines.
        -- injection H as <- <-. repeat split; auto; [now apply failed_lines|].
           intros Hnp _. now apply Hnp in Hsave.
      * injection H as <- <-. repeat split; auto. now apply failed_lines.
    + injection H as <- <-. repeat split; auto.
      rewrite <- (app_nil_r lines). now apply failed_lines.
    + destruct (write_groups_old _ _ _ _ lines) as [lines' [book|e]] eqn:Hg;
        apply write_groups_old_lines in Hg; destruct Hg as (extra & -> & He).
      * destruct (book_save env (EXCEL_OUTPUT_PATH cfg) book) eqn:Hsave.
        -- apply persist_caches_spec in H; [|apply calm_app; now split].
           destruct H as (Hno & _). contradiction.
        -- injection H as <- <-. repeat split; auto. now apply failed_lines.
        -- injection H as <- <-. repeat split; auto; [now apply failed_lines|].
           intros Hnp _. now apply Hnp in Hsave.
      * injection H as <- <-. repeat split; auto. now apply failed_lines.
Qed.

(** The workbook [collect_data_new.py] starts the groups from, and the
    lines printed on the way. *)
Definition carried_over (disk : Disk) (lines : list msg)
  : workbook * list msg :=
  match report disk with
  | Missing => ([], lines)
  | Corrupt => ([], lines ++ [MsgLoadWarning])
  | Stored old_book => preserve_sheets old_book [] lines
  end.

Lemma carried_over_lines (disk : Disk) (lines : list msg) :
  exists extra, snd (carried_over disk lines) = lines ++ extra /\ calm extra.
Proof.
  unfold carried_over. destruct (report disk) as [| |old_book]; simpl.
  - exists []. now rewrite app_nil_r.
  - exists [MsgLoadWarning]. now split.
  - destruct (preserve_sheets old_book [] lines) as [book' lines'] eqn:H.
    apply preserve_sheets_lines in H. exact H.
Qed.

Lemma write_report_new_unfold (cfg : config) (env : Env) (disk : Disk)
    (st : scan_state) (lines : list msg) :
  write_report_new cfg env disk st lines =
  match write_groups_new (data_by_prefetcher st)
          (Sort.sorted ltb (Dict.keys (data_by_prefetcher st)))
          (fst (carried_over disk lines)) (snd (carried_over disk lines)) with
  | (lines, Raise _) => Returned disk (lines ++ [MsgWriteError])
  | (lines, Ok book) =>
      match book_save env (TEMP_OUTPUT_PATH cfg) book with
      | WriteRefused => Returned disk (lines ++ [MsgWriteError])
      | WritePartial =>
          Returned (with_temp_report Corrupt disk) (lines ++ [MsgWriteError])
      | WriteOk =>
          let saved := with_temp_report (Stored book) disk in
          match move env with
          | WriteRefused => Returned saved (lines ++ [MsgWriteError])
          | WritePartial =>
              Returned (with_report Corrupt saved) (lines ++ [MsgWriteError])
          | WriteOk =>
              persist_caches cfg env
                (with_temp_report Missing (with_report (Stored book) saved))
                st lines
          end
      end
  end.
Proof.
  unfold write_report_new, carried_over.
  destruct (report disk) as [| |old_book]; simpl; try reflexivity.
  destruct (preserve_sheets old_book [] lines); reflexivity.
Qed.

Lemma new_writer : report_writer write_report_new.
Proof.
  constructor; intros cfg env disk st lines; rewrite write_report_new_unfold.
  - destruct (write_groups_new _ _ _ _) as [lines' [book|e]];
      try destruct (book_save env (TEMP_OUTPUT_PATH cfg) book);
      try destruct (move env);
      unfold persist_caches, save_json_data;
      repeat destruct (json_write env _); eauto.
  - destruct (write_groups_new _ _ _ _) as [lines' [book|e]];
      try destruct (book_save env (TEMP_OUTPUT_PATH cfg) book);
      try destruct (move env);
      unfold persist_caches, save_json_data;
      repeat destruct (json_write env _); reflexivity.
  - intros d out H Hl Hout.
    destruct (carried_over_lines disk lines) as (extra0 & Hc0 & He0).
    destruct (write_groups_new _ _ _ _) as [lines' [book|e]] eqn:Hg;
      apply write_groups_new_lines in Hg; destruct Hg as (extra & -> & He);
      rewrite Hc0 in *.
    + assert (Hbad : out = ((lines ++ extra0) ++ extra) ++ [MsgWriteError] -> False).
      { intros ->. rewrite <- (app_assoc lines) in Hout.
        apply (failed_lines lines (extra0 ++ extra) Hl); [|exact Hout].
        apply calm_app. now split. }
      destruct (book_save env (TEMP_OUTPUT_PATH cfg) book);
        [destruct (move env)| |];
        try (injection H as <- <-; exfalso; now apply Hbad).
      apply persist_caches_spec in H;
        [|apply calm_app; split; [apply calm_app; now split|exact He]].
      destruct H as (_ & Hr & _ & Hc). destruct (Hc Hout) as [H1 H2].
      repeat split; auto. rewrite Hr. simpl. eauto.
    + injection H as <- <-. exfalso. rewrite <- (app_assoc lines) in Hout.
      apply (failed_lines lines (extra0 ++ extra) Hl); [|exact Hout].
      apply calm_app. now split.
  - intros d out H Hl Hin.
    destruct (carried_over_lines disk lines) as (extra0 & Hc0 & He0).
    assert (Hcount : forall extra, calm extra ->
              error_count (((lines ++ extra0) ++ extra) ++ [MsgWriteError]) = 1).
    { intros extra He. rewrite <- (app_assoc lines).
      apply failed_lines; [exact Hl|]. apply calm_app. now split. }
    destruct (write_groups_new _ _ _ _) as [lines' [book|e]] eqn:Hg;
      apply write_groups_new_lines in Hg; destruct Hg as (extra & -> & He);
      rewrite Hc0 in *.
    + destruct (book_save env (TEMP_OUTPUT_PATH cfg) book) eqn:Hsave;
        [destruct (move env) eqn:Hmove| |].
      * apply persist_caches_spec in H;
          [|apply calm_app; split; [apply calm_app; now split|exact He]].
        destruct H as (Hno & _). contradiction.
      * injection H as <- <-. repeat split; auto.
      * injection H as <- <-. repeat split; auto.
        intros _ Hnm. congruence.
      * injection H as <- <-. repeat split; auto.
      * injection H as <- <-. repeat split; auto.
    + injection H as <- <-. repeat split; auto.
Qed.

(** ** The whole run *)

Lemma step_printed_calm parse env cached (st st' : scan_state) (j : job) :
  turn parse env cached st j st' ->
  calm (printed_lines st) -> calm (printed_lines st').
Proof.
  intros Hstep Hc.
  destruct Hstep as [_ _ _ _ _ Hp _
                    |_ _ _ _ _ _ (pre & Hp & Hpre) _
                    |m _ _ _ _ _ _ _ (pre & Hp & Hpre) _
                    |_ _ _ _ _ _ (pre & Hp & Hpre) _];
    rewrite Hp; auto;
    repeat (apply calm_app; split); auto; destruct Hpre as [->| ->]; reflexivity.
Qed.

Lemma run_printed_calm parse env cached (js : list job) :
  forall st st', run_jobs parse env cached js st = Ok st' ->
    calm (printed_lines st) -> calm (printed_lines st').
Proof.
  induction js as [|j js IH]; intros st st' H Hc.
  - simpl in H. now injection H as <-.
  - apply run_cons in H. destruct H as (st1 & H1 & H).
    eapply IH; [exact H|]. eapply step_printed_calm; eauto.
Qed.

(** The lines of a run up to the end of the scan. *)
Definition scan_lines (st : scan_state) : list msg :=
  MsgStartScan :: printed_lines st
    ++ [MsgScanComplete (new_files_count st) (skipped_files_count st)].

Lemma with_output_dir_fixed (d : Disk) :
  output_dir d = true -> with_output_dir d = d.
Proof. destruct d; simpl. now intros ->. Qed.

Section MainFacts.

Variable parse : (string -> option string) -> string -> result (option metrics).
Variable write_report : config -> Env -> Disk -> scan_state -> list msg -> outcome.
Variable cfg : config.

Hypothesis parse_ok : reads_then_extracts parse.
Hypothesis writer_ok : report_writer write_report.

Local Abbreviation run_main := (main parse write_report cfg).

(** The scan of a run that starts from [disk]. *)
Definition scan_of (env : Env) (disk : Disk)
    (dirs : list (list string * list string)) : result scan_state :=
  scan parse cfg env (load_json_data (data_cache disk)) dirs
    (initial_state (load_json_data (processed_log disk))).

Lemma main_missing_root (env : Env) (disk : Disk) :
  walk env = None ->
  run_main env disk = Returned (with_output_dir disk) [MsgDirNotFound].
Proof. unfold main. now intros ->. Qed.

Lemma main_after_scan (env : Env) (disk : Disk) dirs (st : scan_state) :
  walk env = Some dirs -> scan_of env disk dirs = Ok st ->
  run_main env disk =
  if (new_files_count st =? 0)%nat
  then Returned (with_output_dir disk) (scan_lines st ++ [MsgUpToDate])
  else write_report cfg env (with_output_dir disk) st
         (scan_lines st ++ [MsgUpdating]).
Proof.
  unfold main, scan_of. intros -> Hscan. simpl. rewrite Hscan. reflexivity.
Qed.

Lemma scan_lines_calm (env : Env) (disk : Disk) dirs (st : scan_state) (m : msg) :
  scan_of env disk dirs = Ok st -> is_failure m = false ->
  calm (scan_lines st ++ [m]).
Proof.
  unfold scan_of. rewrite scan_jobs. intros H Hm.
  apply run_printed_calm in H; [|reflexivity].
  unfold scan_lines. change (calm ([MsgStartScan] ++ (printed_lines st ++ [MsgScanComplete (new_files_count st) (skipped_files_count st)]) ++ [m])).
  repeat (apply calm_app; split); auto; try reflexivity.
  unfold calm. simpl. now rewrite Hm.
Qed.

(** [os.makedirs] comes first: whatever the run does next, the output
    directory exists when it ends. *)
Lemma main_output_dir (env : Env) (disk : Disk) :
  output_dir (disk_of (run_main env disk)) = true.
Proof.
  unfold main. destruct (walk env) as [dirs|]; [|reflexivity].
  destruct (scan _ _ _ _ _ _) as [st|e]; [|reflexivity].
  destruct (new_files_count st =? 0)%nat; [reflexivity|].
  now rewrite (wr_output_dir _ writer_ok).
Qed.

(** A run that reported no failure leaves a state on which the next run,
    the results tree being the same and readable, is a no-op. *)
Lemma main_idempotent (env : Env) (disk d1 : Disk) (out1 : list msg) :
  run_main env disk = Returned d1 out1 -> calm out1 ->
  (forall dirs j, walk env = Some dirs -> In j (jobs cfg dirs) ->
                  read env (job_path j) <> None) ->
  exists dirs st2,
    walk env = Some dirs
    /\ scan_of env d1 dirs = Ok st2
    /\ new_files_count st2 = 0
    /\ parse_calls st2 = []
    /\ run_main env d1
       = Returned d1 [MsgStartScan;
                      MsgScanComplete 0 (List.length (jobs cfg dirs));
                      MsgUpToDate].
Proof.
  intros H1 Hcalm Hread.
  destruct (walk env) as [dirs|] eqn:Hwalk;
    [|rewrite main_missing_root in H1 by exact Hwalk;
      injection H1 as <- <-; discriminate Hcalm].
  specialize (Hread dirs). exists dirs.
  destruct (scan_of env disk dirs) as [st|e] eqn:Hscan;
    [|unfold main, scan_of in *; rewrite Hwalk in H1; simpl in H1;
      rewrite Hscan in H1; discriminate].
  rewrite (main_after_scan _ _ _ _ Hwalk Hscan) in H1.
  pose proof Hscan as Hrun. unfold scan_of in Hrun. rewrite scan_jobs in Hrun.
  (* the log the second run loads holds every file *)
  assert (Hnext : output_dir d1 = true
                  /\ forall j, In j (jobs cfg dirs) ->
                       up_to_date env (load_json_data (processed_log d1))
                         (job_path j) = true).
  { destruct (new_files_count st =? 0)%nat eqn:Hzero.
    - injection H1 as <- <-. split; [reflexivity|].
      apply Nat.eqb_eq in Hzero.
      destruct (run_count_zero _ _ _ _ _ _ Hrun) as [_ Hall]; [exact Hzero|].
      exact Hall.
    - pose proof (wr_output_dir _ writer_ok cfg env (with_output_dir disk) st
                    (scan_lines st ++ [MsgUpdating])) as Hdir.
      rewrite H1 in Hdir. simpl in Hdir. split; [exact Hdir|].
      destruct (wr_success _ writer_ok _ _ _ _ _ _ _ H1) as (Hlog & _);
        [eapply scan_lines_calm; eauto|exact Hcalm|].
      rewrite Hlog. simpl. intros j Hin.
      eapply run_commits; eauto. }
  destruct Hnext as [Hdir Hall].
  destruct (run_all_hits parse env (load_json_data (data_cache d1))
              (jobs cfg dirs) (initial_state (load_json_data (processed_log d1))))
    as (st2 & Hrun2 & _ & Hnew & Hskip & Hpr & Hcalls); [exact Hall|].
  assert (Hscan2 : scan_of env d1 dirs = Ok st2)
    by (unfold scan_of; rewrite scan_jobs; exact Hrun2).
  exists st2. repeat (split; [easy|]).
  rewrite (main_after_scan env d1 dirs st2 Hwalk Hscan2).
  simpl in Hnew, Hskip, Hpr. rewrite Hnew. simpl.
  rewrite (with_output_dir_fixed _ Hdir). unfold scan_lines.
  now rewrite Hnew, Hskip, Hpr.
Qed.

(** Once the scan is over [main] returns: every failure of the writing
    is caught and printed. *)
Lemma main_returns_after_scan (env : Env) (disk : Disk) dirs
    (st : scan_state) :
  walk env = Some dirs -> scan_of env disk dirs = Ok st ->
  exists d out, run_main env disk = Returned d out.
Proof.
  intros Hwalk Hscan. rewrite (main_after_scan _ _ _ _ Hwalk Hscan).
  destruct (new_files_count st =? 0)%nat; [eauto|].
  apply (wr_returns _ writer_ok).
Qed.

(** A run that prints the write error prints no other error, writes no
    cache file, and returns like any other. *)
Lemma main_write_error (env : Env) (disk d : Disk) (out : list msg) :
  run_main env disk = Returned d out -> In MsgWriteError out ->
  error_count out = 1
  /\ processed_log d = processed_log disk
  /\ data_cache d = data_cache disk
  /\ ((forall p b, book_save env p b <> WritePartial) ->
      move env <> WritePartial -> report d = report disk).
Proof.
  intros H Hin.
  destruct (walk env) as [dirs|] eqn:Hwalk;
    [|rewrite main_missing_root in H by exact Hwalk;
      injection H as <- <-; simpl in Hin; intuition discriminate].
  destruct (scan_of env disk dirs) as [st|e] eqn:Hscan;
    [|unfold main, scan_of in *; rewrite Hwalk in H; simpl in H;
      rewrite Hscan in H; discriminate].
  rewrite (main_after_scan _ _ _ _ Hwalk Hscan) in H.
  destruct (new_files_count st =? 0)%nat.
  - injection H as <- <-. exfalso.
    apply (calm_not_in (scan_lines st ++ [MsgUpToDate]) MsgWriteError);
      [eapply scan_lines_calm; eauto|reflexivity|exact Hin].
  - eapply (wr_failure _ writer_ok) in H; [exact H| |exact Hin].
    eapply scan_lines_calm; eauto.
Qed.

(** A new or modified file that cannot be read makes the run write the
    report and the caches, though it adds nothing to them. *)
Lemma main_unreadable (env : Env) (disk : Disk) dirs (st : scan_state) (j : job) :
  walk env = Some dirs -> scan_of env disk dirs = Ok st ->
  In j (jobs cfg dirs) ->
  up_to_date env (load_json_data (processed_log disk)) (job_path j) = false ->
  read env (job_path j) = None ->
  0 < new_files_count st
  /\ (forall g, record_at g (job_path j) (data_by_prefetcher st) = None)
  /\ Dict.get (job_path j) (processed_files_log st)
     = Dict.get (job_path j) (load_json_data (processed_log disk))
  /\ run_main env disk
     = write_report cfg env (with_output_dir disk) st
         (scan_lines st ++ [MsgUpdating])
  /\ (forall d out, run_main env disk = Returned d out -> calm out ->
        processed_log d = Stored (processed_files_log st)
        /\ data_cache d = Stored (pop_is_new (data_by_prefetcher st))
        /\ exists book, report d = Stored book).
Proof.
  intros Hwalk Hscan Hin Hstale Hread.
  pose proof Hscan as Hrun. unfold scan_of in Hrun. rewrite scan_jobs in Hrun.
  pose proof (run_counts_unreadable parse env _ parse_ok _ _ _ j Hrun Hin Hread Hstale)
    as Hcount.
  destruct (run_unreadable parse env _ parse_ok _ (job_path j) _ _ Hrun Hread Hstale)
    as [Hdata Hlog].
  simpl in Hcount.
  assert (Hmain : run_main env disk
                  = write_report cfg env (with_output_dir disk) st
                      (scan_lines st ++ [MsgUpdating])).
  { rewrite (main_after_scan _ _ _ _ Hwalk Hscan).
    destruct (Nat.eqb_spec (new_files_count st) 0); [lia|reflexivity]. }
  split; [exact Hcount|]. split; [|split; [exact Hlog|split; [exact Hmain|]]].
  - intros g. rewrite Hdata. reflexivity.
  - intros d out H Hc. rewrite Hmain in H.
    eapply (wr_success _ writer_ok) in H; [exact H| |exact Hc].
    eapply scan_lines_calm; eauto.
Qed.

End MainFacts.


Section ScanRecords.

Variable parse : (string -> option string) -> string -> result (option metrics).
Variable cfg : config.

Hypothesis parse_ok : reads_then_extracts parse.

(** What the scan does with the files it meets, by the log and the cache
    it started from. *)
Lemma scan_reuse (env : Env) (cached_data : Dict.dict (Dict.dict metrics))
    (log0 : Dict.dict mtime) dirs (st : scan_state) :
  scan parse cfg env cached_data dirs (initial_state log0) = Ok st ->
  (forall j, In j (jobs cfg dirs) ->
     up_to_date env log0 (job_path j) = true ->
     ~ In (job_path j) (parse_calls st)
     /\ record_at (j_group_key j) (job_path j) (data_by_prefetcher st)
        = record_at (j_group_key j) (job_path j) cached_data)
  /\ (NoDup (map job_path (jobs cfg dirs)) ->
      forall j m, In j (jobs cfg dirs) ->
        up_to_date env log0 (job_path j) = false ->
        parse (read env) (job_path j) = Ok (Some m) ->
        record_at (j_group_key j) (job_path j) (data_by_prefetcher st)
        = Some (Dict.set "Experiment" (VStr (j_experiment j)) m)).
Proof.
  rewrite scan_jobs. intros Hrun. split.
  - intros j Hin Hfresh. split.
    + eapply run_skips_parse; eauto.
    + destruct (record_at (j_group_key j) (job_path j) cached_data) as [rec|] eqn:Hc.
      * eapply run_reuses; eauto. apply inv_initial.
      * destruct (record_at _ _ (data_by_prefetcher st)) as [r|] eqn:Hr;
          [|reflexivity].
        pose proof (run_inv _ _ _ log0 _ _ _ Hrun (inv_initial _ _ log0)) as Hinv.
        apply (inv_data _ _ _ _ Hinv _ _ _ Hfresh) in Hr. congruence.
  - intros Hnd j m Hin Hstale Hp.
    eapply (run_fresh parse env cached_data parse_ok); eauto.
Qed.

End ScanRecords.

(** ** A small results tree *)

(** Two experiment directories under one prefetcher and one under the
    baseline, three readable traces in all. *)
Definition example_walk : list (list string * list string) :=
  [(["."], []);
   (["pref_l1"], []);
   (["pref_l1"; "berti"], []);
   (["pref_l1"; "berti"; "exp1"], ["trace_b.out"; "trace_a.out"]);
   (["no_pref"; "exp2"], ["trace_c.out"])].

Definition example_env : Env :=
  {| walk := Some example_walk;
     getmtime := fun _ => 1700000000%Z;
     read := fun _ => Some "CPU 0 cumulative IPC: 1.234";
     json_write := fun _ => WriteOk;
     book_save := fun _ _ => WriteOk;
     move := WriteOk |}.

(** The same tree with the baseline trace unreadable. *)
Definition unreadable_env : Env :=
  {| walk := Some example_walk;
     getmtime := fun _ => 1700000000%Z;
     read := fun p => if String.eqb p "../results/no_pref/exp2/trace_c.out"
                      then None else Some "CPU 0 cumulative IPC: 1.234";
     json_write := fun _ => WriteOk;
     book_save := fun _ _ => WriteOk;
     move := WriteOk |}.

(** No results directory. *)
Definition missing_env : Env :=
  {| walk := None;
     getmtime := fun _ => 0%Z;
     read := fun _ => None;
     json_write := fun _ => WriteOk;
     book_save := fun _ _ => WriteOk;
     move := WriteOk |}.

(** The example tree on a disk that refuses the workbook. *)
Definition refusing_env : Env :=
  {| walk := Some example_walk;
     getmtime := fun _ => 1700000000%Z;
     read := fun _ => Some "CPU 0 cumulative IPC: 1.234";
     json_write := fun _ => WriteOk;
     book_save := fun _ _ => WriteRefused;
     move := WriteOk |}.

(** Nothing written yet. *)
Definition empty_disk : Disk :=
  {| output_dir := false;
     processed_log := Missing;
     data_cache := Missing;
     report := Missing;
     temp_report := Missing |}.

(** The log of an earlier run is there, the record cache is gone. *)
Definition logged_disk : Disk :=
  {| output_dir := true;
     processed_log :=
       Stored [("../results/no_pref/exp2/trace_c.out", 1700000000%Z)];
     data_cache := Missing;
     report := Missing;
     temp_report := Missing |}.

Definition trace_c : job :=
  Job "../results/no_pref/exp2" "no_pref/exp2" "no_pref" "exp2" "trace_c.out".

(** C3, as the code has it: a file whose modification time is the one the
    log holds is not given to the extractor, and its record in the dataset
    is what the cache holds under its group and path, so it has none when
    the cache has none; the record extracted from a new or modified file
    is stored under the file's group and path with its experiment. *)
Theorem C3_cache_hit_reuse :
  (forall env cached_data log0 dirs st,
      scan CollectData.parse_champsim_file collect_data_config env cached_data
        dirs (initial_state log0) = Ok st ->
      (forall j, In j (jobs collect_data_config dirs) ->
         up_to_date env log0 (job_path j) = true ->
         ~ In (job_path j) (parse_calls st)
         /\ record_at (j_group_key j) (job_path j) (data_by_prefetcher st)
            = record_at (j_group_key j) (job_path j) cached_data)
      /\ (NoDup (map job_path (jobs collect_data_config dirs)) ->
          forall j m, In j (jobs collect_data_config dirs) ->
            up_to_date env log0 (job_path j) = false ->
            CollectData.parse_champsim_file (read env) (job_path j) = Ok (Some m) ->
            record_at (j_group_key j) (job_path j) (data_by_prefetcher st)
            = Some (Dict.set "Experiment" (VStr (j_experiment j)) m)))
  /\ (forall env cached_data log0 dirs st,
      scan CollectDataNew.parse_champsim_file collect_data_new_config env
        cached_data dirs (initial_state log0) = Ok st ->
      (forall j, In j (jobs collect_data_new_config dirs) ->
         up_to_date env log0 (job_path j) = true ->
         ~ In (job_path j) (parse_calls st)
         /\ record_at (j_group_key j) (job_path j) (data_by_prefetcher st)
            = record_at (j_group_key j) (job_path j) cached_data)
      /\ (NoDup (map job_path (jobs collect_data_new_config dirs)) ->
          forall j m, In j (jobs collect_data_new_config dirs) ->
            up_to_date env log0 (job_path j) = false ->
            CollectDataNew.parse_champsim_file (read env) (job_path j)
            = Ok (Some m) ->
            record_at (j_group_key j) (job_path j) (data_by_prefetcher st)
            = Some (Dict.set "Experiment" (VStr (j_experiment j)) m))).
Proof.
  split; intros env cached_data log0 dirs st.
  - apply scan_reuse. exact parse_old_reads.
  - apply scan_reuse. exact parse_new_reads.
Qed.

(** A scan of the example tree with one cached trace: the cached record
    is the dataset's record for it, and the extractor is not called on
    it. *)
Lemma C3_cache_hit_reuse_witness :
  let cached := [("no_pref", [("../results/no_pref/exp2/trace_c.out",
                                [("Trace File", VStr "trace_c.out");
                                 ("Experiment", VStr "exp2")])])] in
  exists st,
    scan CollectData.parse_champsim_file collect_data_config example_env cached
      example_walk
      (initial_state [("../results/no_pref/exp2/trace_c.out", 1700000000%Z)])
    = Ok st
    /\ ~ In (job_path trace_c) (parse_calls st)
    /\ record_at "no_pref" (job_path trace_c) (data_by_prefetcher st)
       = Some [("Trace File", VStr "trace_c.out"); ("Experiment", VStr "exp2")].
Proof.
  intros cached. eexists. split; [vm_compute; reflexivity|].
  match goal with |- ~ In _ (parse_calls ?s) /\ _ =>
    destruct (proj1 C3_cache_hit_reuse example_env cached
                [("../results/no_pref/exp2/trace_c.out", 1700000000%Z)]
                example_walk s) as [Hhit _] end.
  - vm_compute. reflexivity.
  - destruct (Hhit trace_c) as [Hcalls Hrec].
    + vm_compute. tauto.
    + vm_compute. reflexivity.
    + split; [exact Hcalls|].
      etransitivity; [exact Hrec|vm_compute; reflexivity].
Defined.

(** C3 as stated fails: the trace is scanned, recognised and readable, and
    its modification time is the logged one, but the cache holds no record
    for it: the scan ends with an empty dataset, the trace dropped. *)
Lemma C3_counterexample :
  exists st,
    scan CollectData.parse_champsim_file collect_data_config example_env
      (load_json_data (data_cache logged_disk)) example_walk
      (initial_state (load_json_data (processed_log logged_disk))) = Ok st
    /\ In trace_c (jobs collect_data_config example_walk)
    /\ read example_env (job_path trace_c) <> None
    /\ up_to_date example_env (load_json_data (processed_log logged_disk))
         (job_path trace_c) = true
    /\ record_at "no_pref" (job_path trace_c) (data_by_prefetcher st) = None
    /\ Dict.get "no_pref" (data_by_prefetcher st) = None.
Proof.
  eexists. split; [vm_compute; reflexivity|].
  repeat split; try (vm_compute; tauto); try reflexivity. discriminate.
Qed.

(** C1: when a run has ended without reporting a failure and the results
    tree is unchanged and readable, the next run from the state it left
    finds every file up to date: it calls the extractor on none, counts
    no new file, prints that the output is up to date and returns with
    the disk exactly as it found it. *)
Theorem C1_cached_run_is_noop :
  (forall env disk d1 out1,
      collect_data_main env disk = Returned d1 out1 -> calm out1 ->
      (forall dirs j, walk env = Some dirs ->
         In j (jobs collect_data_config dirs) ->
         read env (job_path j) <> None) ->
      exists dirs st2,
        walk env = Some dirs
        /\ scan_of CollectData.parse_champsim_file collect_data_config
             env d1 dirs = Ok st2
        /\ new_files_count st2 = 0
        /\ parse_calls st2 = []
        /\ collect_data_main env d1
           = Returned d1 [MsgStartScan;
                          MsgScanComplete 0
                            (List.length (jobs collect_data_config dirs));
                          MsgUpToDate])
  /\ (forall env disk d1 out1,
      collect_data_new_main env disk = Returned d1 out1 -> calm out1 ->
      (forall dirs j, walk env = Some dirs ->
         In j (jobs collect_data_new_config dirs) ->
         read env (job_path j) <> None) ->
      exists dirs st2,
        walk env = Some dirs
        /\ scan_of CollectDataNew.parse_champsim_file collect_data_new_config
             env d1 dirs = Ok st2
        /\ new_files_count st2 = 0
        /\ parse_calls st2 = []
        /\ collect_data_new_main env d1
           = Returned d1 [MsgStartScan;
                          MsgScanComplete 0
                            (List.length (jobs collect_data_new_config dirs));
                          MsgUpToDate]).
Proof.
  split; intros env disk d1 out1.
  - apply main_idempotent; [exact parse_old_reads|exact old_writer].
  - apply main_idempotent; [exact parse_new_reads|exact new_writer].
Qed.

(** Two runs of [collect_data_new.py] over the example tree, starting
    with nothing written: the second is a no-op on the disk of the
    first. *)
Lemma C1_cached_run_is_noop_witness :
  exists d1 out1,
    collect_data_new_main example_env empty_disk = Returned d1 out1
    /\ collect_data_new_main example_env d1
       = Returned d1 [MsgStartScan; MsgScanComplete 0 3; MsgUpToDate].
Proof.
  eexists. eexists. split; [vm_compute; reflexivity|].
  match goal with |- collect_data_new_main _ ?d = _ =>
    destruct (proj2 C1_cached_run_is_noop example_env empty_disk d
                [MsgStartScan; MsgProcessingDir "pref_l1/berti/exp1";
                 MsgProcessingDir "no_pref/exp2"; MsgScanComplete 3 0;
                 MsgUpdating; MsgGroup "no_pref"; MsgSheetDone "raw_no_pref";
                 MsgGroup "pref_l1_berti"; MsgSheetDone "raw_pref_l1_berti";
                 MsgSuccess])
      as (dirs & st2 & Hwalk & _ & _ & _ & Hrun) end.
  - vm_compute. reflexivity.
  - reflexivity.
  - intros dirs j _ _. discriminate.
  - injection Hwalk as <-. exact Hrun.
Defined.

(** C8, as the code has it: with the results directory missing the run
    prints the one error message and writes neither report nor cache
    files; a run that prints the write error prints no other error of the
    run (a file that could not be read has had its own line) and writes no
    cache file, and leaves the report as it was unless a write was broken
    off part-way; in both cases [main] returns and the process ends with
    status 0, as it does once the scan is over whatever the writing comes
    to. *)
Theorem C8_fatal_outcome :
  (forall env disk,
      walk env = None ->
      collect_data_main env disk
      = Returned (with_output_dir disk) [MsgDirNotFound]
      /\ collect_data_new_main env disk
         = Returned (with_output_dir disk) [MsgDirNotFound])
  /\ (forall env disk d out,
      collect_data_main env disk = Returned d out -> In MsgWriteError out ->
      error_count out = 1
      /\ processed_log d = processed_log disk
      /\ data_cache d = data_cache disk
      /\ ((forall p b, book_save env p b <> WritePartial) ->
          move env <> WritePartial -> report d = report disk))
  /\ (forall env disk d out,
      collect_data_new_main env disk = Returned d out -> In MsgWriteError out ->
      error_count out = 1
      /\ processed_log d = processed_log disk
      /\ data_cache d = data_cache disk
      /\ ((forall p b, book_save env p b <> WritePartial) ->
          move env <> WritePartial -> report d = report disk))
  /\ (forall env disk,
      walk env = None ->
      exit_status (collect_data_main env disk) = 0%Z
      /\ exit_status (collect_data_new_main env disk) = 0%Z)
  /\ (forall env disk dirs st,
      walk env = Some dirs ->
      scan_of CollectData.parse_champsim_file collect_data_config env disk dirs
      = Ok st ->
      exit_status (collect_data_main env disk) = 0%Z)
  /\ (forall env disk dirs st,
      walk env = Some dirs ->
      scan_of CollectDataNew.parse_champsim_file collect_data_new_config env
        disk dirs = Ok st ->
      exit_status (collect_data_new_main env disk) = 0%Z).
Proof.
  split; [|split; [|split; [|split; [|split]]]].
  - intros env disk Hwalk. split; now apply main_missing_root.
  - intros env disk d out.
    apply main_write_error. exact old_writer.
  - intros env disk d out.
    apply main_write_error. exact new_writer.
  - intros env disk Hwalk. unfold collect_data_main, collect_data_new_main.
    rewrite !main_missing_root by exact Hwalk. split; reflexivity.
  - intros env disk dirs st Hwalk Hscan.
    destruct (main_returns_after_scan _ _ _ old_writer env disk dirs st
                Hwalk Hscan) as (d & out & H).
    unfold collect_data_main. now rewrite H.
  - intros env disk dirs st Hwalk Hscan.
    destruct (main_returns_after_scan _ _ _ new_writer env disk dirs st
                Hwalk Hscan) as (d & out & H).
    unfold collect_data_new_main. now rewrite H.
Qed.

Lemma C8_fatal_outcome_witness :
  collect_data_main missing_env empty_disk
  = Returned (with_output_dir empty_disk) [MsgDirNotFound]
  /\ collect_data_new_main missing_env empty_disk
     = Returned (with_output_dir empty_disk) [MsgDirNotFound].
Proof. apply (proj1 C8_fatal_outcome missing_env empty_disk). reflexivity. Defined.

(** C8 as stated fails: with the results directory missing, and with the
    workbook refused, the run prints its error and the process still ends
    with status 0. *)
Lemma C8_counterexample :
  walk missing_env = None
  /\ exit_status (collect_data_main missing_env empty_disk) = 0%Z
  /\ exit_status (collect_data_new_main missing_env empty_disk) = 0%Z
  /\ (exists d out, collect_data_new_main refusing_env empty_disk = Returned d out
                    /\ In MsgWriteError out)
  /\ exit_status (collect_data_new_main refusing_env empty_disk) = 0%Z.
Proof.
  repeat split; try (vm_compute; reflexivity).
  eexists. eexists. split; [vm_compute; reflexivity|]. simpl. tauto.
Qed.


(** The disk after a first run of [collect_data.py] over the tree with
    the unreadable trace: the two readable traces are logged and cached. *)
Definition first_run_disk : Disk :=
  Eval vm_compute in disk_of (collect_data_main unreadable_env empty_disk).


(** C10: the output directory is made before anything else, so it exists
    at the end of every run; a run that finds no results directory does
    that and nothing more, which still changes a disk that had no output
    directory. *)
Theorem C10_output_dir_created_first :
  forall env disk,
    output_dir (disk_of (collect_data_main env disk)) = true
    /\ output_dir (disk_of (collect_data_new_main env disk)) = true
    /\ (walk env = None ->
        disk_of (collect_data_main env disk) = with_output_dir disk
        /\ disk_of (collect_data_new_main env disk) = with_output_dir disk
        /\ (output_dir disk = false ->
            disk_of (collect_data_main env disk) <> disk
            /\ disk_of (collect_data_new_main env disk) <> disk)).
Proof.
  intros env disk. split; [|split].
  - apply main_output_dir. exact old_writer.
  - apply main_output_dir. exact new_writer.
  - intros Hwalk. unfold collect_data_main, collect_data_new_main.
    rewrite !main_missing_root by exact Hwalk. simpl.
    repeat split; auto; intros Heq; rewrite <- Heq in H; discriminate H.
Qed.

Lemma C10_output_dir_created_first_witness :
  disk_of (collect_data_main missing_env empty_disk) = with_output_dir empty_disk
  /\ disk_of (collect_data_new_main missing_env empty_disk)
     = with_output_dir empty_disk
  /\ disk_of (collect_data_main missing_env empty_disk) <> empty_disk.
Proof.
  destruct (proj2 (proj2 (C10_output_dir_created_first missing_env empty_disk))
              eq_refl) as (H1 & H2 & H3).
  destruct (H3 eq_refl) as [H4 _]. auto.
Defined.

(** ** The sheets of the new workbook *)

Section Sheets.

Lemma get_app {V} (k : string) (a b : Dict.dict V) :
  Dict.get k (a ++ b)
  = match Dict.get k a with Some v => Some v | None => Dict.get k b end.
Proof.
  induction a as [|[k' v] a IH]; simpl; [reflexivity|].
  destruct (String.eqb k k'); [reflexivity|exact IH].
Qed.

Lemma sheet_removed (title : string) (book : workbook) :
  sheet title (remove_sheet title book) = None.
Proof.
  unfold sheet, remove_sheet. induction book as [|[k ws] book IH]; simpl;
    [reflexivity|].
  destruct (String.eqb title k) eqn:E; simpl; [exact IH|]. now rewrite E.
Qed.

Lemma sheet_remove_other (title name : string) (book : workbook) :
  name <> title -> sheet name (remove_sheet title book) = sheet name book.
Proof.
  intros Hne. unfold sheet, remove_sheet.
  induction book as [|[k ws] book IH]; simpl; [reflexivity|].
  destruct (String.eqb title k) eqn:E; simpl.
  - apply String.eqb_eq in E. subst k.
    apply String.eqb_neq in Hne. now rewrite Hne.
  - now rewrite IH.
Qed.

Lemma sheet_absent (title : string) (book : workbook) :
  existsb (String.eqb title) (sheetnames book) = false -> sheet title book = None.
Proof.
  unfold sheet, sheetnames. induction book as [|[k ws] book IH]; simpl;
    [reflexivity|].
  destruct (String.eqb title k); simpl; [discriminate|exact IH].
Qed.

Lemma sheet_name_owned (g : string) : owned (sheet_name g) = true.
Proof. reflexivity. Qed.

Lemma sheet_name_inj (g g' : string) : sheet_name g = sheet_name g' -> g = g'.
Proof. unfold sheet_name. simpl. congruence. Qed.

Lemma not_owned_differs (name g : string) :
  owned name = false -> name <> sheet_name g.
Proof. intros H ->. rewrite sheet_name_owned in H. discriminate. Qed.

(** The loop over the groups, for either script: [render] writes the
    sheet of a group, and a sheet whose title is in [sheet_names] is
    removed before the new one is created. *)
Variable render : string -> list metrics -> result worksheet.
Variable sheet_names : list string.
Variable data : Dict.dict (Dict.dict metrics).

Fixpoint write_groups (group_keys : list string) (book : workbook)
    (lines : list msg) : list msg * result workbook :=
  match group_keys with
  | [] => (lines, Ok book)
  | group_key :: rest =>
      match data_list data group_key with
      | [] => write_groups rest book lines
      | (_ :: _) as records =>
          let lines := lines ++ [MsgGroup group_key] in
          let book :=
            if existsb (String.eqb (sheet_name group_key)) sheet_names
            then remove_sheet (sheet_name group_key) book else book in
          match render group_key records with
          | Raise e => (lines, Raise e)
          | Ok ws =>
              write_groups rest (create_sheet (sheet_name group_key) ws book)
                (lines ++ [MsgSheetDone (sheet_name group_key)])
          end
      end
  end.

(** The workbook the loop starts from. *)
Variable book0 : workbook.

Hypothesis absent_unless_listed : forall g,
  existsb (String.eqb (sheet_name g)) sheet_names = false ->
  sheet (sheet_name g) book0 = None.

(** The state of the workbook once the groups [done] have been written. *)
Definition written (done : list string) (book : workbook) : Prop :=
  (forall name, (forall g, In g done -> data_list data g <> [] ->
                           name <> sheet_name g) ->
                sheet name book = sheet name book0)
  /\ (forall g, In g done -> data_list data g <> [] ->
        exists ws, render g (data_list data g) = Ok ws
                   /\ sheet (sheet_name g) book = Some ws).

Lemma write_groups_written (group_keys : list string) :
  forall done book lines lines' book',
    write_groups group_keys book lines = (lines', Ok book') ->
    written done book -> written (done ++ group_keys) book'.
Proof.
  induction group_keys as [|g gs IH]; intros done book lines lines' book';
    cbn [write_groups].
  - intros [= <- <-]. now rewrite app_nil_r.
  - replace (done ++ g :: gs) with ((done ++ [g]) ++ gs)
      by (now rewrite <- app_assoc).
    destruct (data_list data g) as [|r0 records] eqn:Hdata.
    + intros H [Hother Hdone]. apply (IH (done ++ [g])) in H; [exact H|].
      split.
      * intros name Hname. apply Hother. intros g' Hin. apply Hname.
        apply in_or_app. now left.
      * intros g' Hin Hne. apply in_app_or in Hin.
        destruct Hin as [Hin|[<-|[]]]; [now apply Hdone|congruence].
    + destruct (render g (r0 :: records)) as [ws|e] eqn:Hr; [|discriminate].
      intros H [Hother Hdone]. apply (IH (done ++ [g])) in H; [exact H|].
      assert (Hrest : forall name, name <> sheet_name g ->
                sheet name (create_sheet (sheet_name g) ws
                  (if existsb (String.eqb (sheet_name g)) sheet_names
                   then remove_sheet (sheet_name g) book else book))
                = sheet name book).
      { intros name Hne. unfold create_sheet, sheet. rewrite get_app.
        assert (Hlast : Dict.get name [(sheet_name g, ws)] = None).
        { unfold Dict.get. apply String.eqb_neq in Hne. now rewrite Hne. }
        rewrite Hlast.
        destruct (existsb (String.eqb (sheet_name g)) sheet_names).
        - pose proof (sheet_remove_other (sheet_name g) name book Hne) as Hs.
          unfold sheet in Hs. rewrite Hs.
          destruct (Dict.get name book); reflexivity.
        - destruct (Dict.get name book); reflexivity. }
      split.
      * intros name Hname. rewrite Hrest.
        -- apply Hother. intros g' Hin. apply Hname. apply in_or_app. now left.
        -- apply Hname; [apply in_or_app; right; now left|congruence].
      * intros g' Hin Hne.
        destruct (String.eqb_spec g' g) as [->|Hg].
        -- exists ws. rewrite Hdata. split; [exact Hr|].
           unfold create_sheet, sheet. rewrite get_app.
           assert (Hlast : Dict.get (sheet_name g) [(sheet_name g, ws)] = Some ws)
             by (unfold Dict.get; now rewrite String.eqb_refl).
           rewrite Hlast.
           destruct (existsb (String.eqb (sheet_name g)) sheet_names) eqn:Hex.
           ++ pose proof (sheet_removed (sheet_name g) book) as Hrem.
              unfold sheet in Hrem. now rewrite Hrem.
           ++ destruct (in_dec string_dec g done) as [Hd|Hd].
              ** destruct (Hdone g Hd) as (ws' & Hr' & Hs'); [congruence|].
                 unfold sheet in Hs'. rewrite Hs'. congruence.
              ** pose proof (Hother (sheet_name g)) as Hsame.
                 unfold sheet in Hsame. rewrite Hsame.
                 --- pose proof (absent_unless_listed g Hex) as Habs.
                     unfold sheet in Habs. now rewrite Habs.
                 --- intros g1 Hin1 _ Heq. apply sheet_name_inj in Heq.
                     congruence.
        -- apply in_app_or in Hin. destruct Hin as [Hin|[<-|[]]]; [|congruence].
           destruct (Hdone g' Hin Hne) as (ws' & Hr' & Hs').
           exists ws'. split; [exact Hr'|]. rewrite Hrest; [exact Hs'|].
           intros Heq. apply sheet_name_inj in Heq. congruence.
Qed.

(** After the loop: a sheet that is not pipeline-owned is as it was in
    the workbook the loop started from, and the sheet of every group of
    the dataset is what [render] wrote for it. *)
Lemma write_groups_sheets (group_keys : list string) (lines lines' : list msg)
    (book' : workbook) :
  write_groups group_keys book0 lines = (lines', Ok book') ->
  (forall name, owned name = false -> sheet name book' = sheet name book0)
  /\ (forall g, In g group_keys -> data_list data g <> [] ->
        exists ws, render g (data_list data g) = Ok ws
                   /\ sheet (sheet_name g) book' = Some ws).
Proof.
  intros H. apply (write_groups_written _ []) in H.
  - destruct H as [Hother Hdone]. split; [|exact Hdone].
    intros name Hname. apply Hother. intros g _ _.
    now apply not_owned_differs.
  - split; [reflexivity|intros g []].
Qed.

End Sheets.

(** The sheet [collect_data.py] writes for a group. *)
Definition render_old (group_key : string) (records : list metrics)
  : result worksheet :=
  render_sheet (columns_old records) (row_values_old (columns_old records))
    group_key records.

(** The sheet [collect_data_new.py] writes for a group. *)
Definition render_new (group_key : string) (records : list metrics)
  : result worksheet :=
  render_sheet CollectDataNew.headers row_values_new group_key records.

Lemma write_groups_old_eq sheet_names data (group_keys : list string) :
  forall book lines,
    write_groups_old sheet_names data group_keys book lines
    = write_groups render_old sheet_names data group_keys book lines.
Proof.
  induction group_keys as [|g gs IH]; intros book lines;
    cbn [write_groups_old write_groups]; [reflexivity|].
  destruct (data_list data g) as [|r0 records]; [apply IH|].
  unfold render_old.
  destruct (render_sheet _ _ g (r0 :: records)); [apply IH|reflexivity].
Qed.

Lemma write_groups_new_eq data (group_keys : list string) :
  forall book lines,
    write_groups_new data group_keys book lines
    = write_groups render_new [] data group_keys book lines.
Proof.
  induction group_keys as [|g gs IH]; intros book lines;
    cbn [write_groups_new write_groups]; [reflexivity|].
  destruct (data_list data g) as [|r0 records]; [apply IH|].
  unfold render_new. cbn [existsb].
  destruct (render_sheet _ _ g (r0 :: records)); [apply IH|reflexivity].
Qed.

(** The sheets [collect_data_new.py] carries over from the old workbook. *)
Definition kept (old_sheets : workbook) : workbook :=
  map (fun s => (fst s, copy_sheet (snd s)))
      (filter (fun s => negb (owned (fst s))) old_sheets).

Lemma preserve_sheets_kept (old_sheets : workbook) :
  forall book lines,
    fst (preserve_sheets old_sheets book lines) = book ++ kept old_sheets.
Proof.
  induction old_sheets as [|[name ws] rest IH]; intros book lines;
    cbn [preserve_sheets].
  - unfold kept. simpl. now rewrite app_nil_r.
  - unfold kept. cbn [filter fst]. destruct (owned name); cbn [negb map].
    + apply IH.
    + rewrite IH. unfold create_sheet, kept. now rewrite <- app_assoc.
Qed.

Lemma kept_sheet (old_sheets : workbook) (name : string) :
  sheet name (kept old_sheets)
  = if owned name then None else option_map copy_sheet (sheet name old_sheets).
Proof.
  unfold sheet, kept. induction old_sheets as [|[k ws] rest IH]; cbn [filter map fst].
  - simpl. now destruct (owned name).
  - destruct (owned k) eqn:Hk; cbn [negb map fst snd Dict.get].
    + rewrite IH. destruct (String.eqb_spec name k) as [->|Hne]; [|reflexivity].
      now rewrite Hk.
    + destruct (String.eqb_spec name k) as [->|Hne]; [|exact IH].
      now rewrite Hk.
Qed.

(** A copied sheet has the cells of the original, values and styles. *)
Lemma copy_sheet_cells (ws : worksheet) : ws_cells (copy_sheet ws) = ws_cells ws.
Proof.
  unfold copy_sheet. simpl. rewrite <- (map_id (ws_cells ws)) at 2.
  apply map_ext. now intros [].
Qed.

Lemma sorted_keys_in {V} (data : Dict.dict V) (g : string) :
  In g (Sort.sorted ltb (Dict.keys data)) <-> In g (Dict.keys data).
Proof.
  split; apply Permutation_in; [symmetry|]; apply sorted_perm.
Qed.

(** A run of the [try] block of [collect_data.py] that does not print the
    write error has written, over the loaded workbook, the sheets of the
    groups. *)
Lemma write_report_old_success (cfg : config) (env : Env) (disk : Disk)
    (st : scan_state) (lines : list msg) (d : Disk) (out : list msg) :
  write_report_old cfg env disk st lines = Returned d out ->
  ~ In MsgWriteError out ->
  exists book0 lines' book',
    report disk <> Corrupt
    /\ book0 = match report disk with Stored b => b | _ => [] end
    /\ write_groups render_old (sheetnames book0) (data_by_prefetcher st)
         (Sort.sorted ltb (Dict.keys (data_by_prefetcher st))) book0 lines
       = (lines', Ok book')
    /\ report d = Stored book'.
Proof.
  unfold write_report_old. intros H Hno.
  assert (Hfail : forall ls d', Returned d' (ls ++ [MsgWriteError]) = Returned d out ->
                                False).
  { intros ls d' [= _ <-]. apply Hno, in_or_app. right. now left. }
  destruct (report disk) as [| |old_book] eqn:Hrep;
    [| exfalso; eapply Hfail; exact H |].
  - rewrite write_groups_old_eq in H.
    destruct (write_groups _ _ _ _ [] lines) as [lines' [book'|e]] eqn:Hg;
      [|exfalso; eapply Hfail; exact H].
    destruct (book_save env (EXCEL_OUTPUT_PATH cfg) book');
      try (exfalso; eapply Hfail; exact H).
    exists [], lines', book'. repeat split; try discriminate; auto.
    unfold persist_caches, save_json_data in H.
    repeat destruct (json_write env _); injection H as <- _; reflexivity.
  - rewrite write_groups_old_eq in H.
    destruct (write_groups _ _ _ _ old_book lines) as [lines' [book'|e]] eqn:Hg;
      [|exfalso; eapply Hfail; exact H].
    destruct (book_save env (EXCEL_OUTPUT_PATH cfg) book');
      try (exfalso; eapply Hfail; exact H).
    exists old_book, lines', book'. repeat split; try discriminate; auto.
    unfold persist_caches, save_json_data in H.
    repeat destruct (json_write env _); injection H as <- _; reflexivity.
Qed.

Lemma write_report_new_success (cfg : config) (env : Env) (disk : Disk)
    (st : scan_state) (lines : list msg) (d : Disk) (out : list msg) :
  write_report_new cfg env disk st lines = Returned d out ->
  ~ In MsgWriteError out ->
  exists lines' book',
    write_groups render_new [] (data_by_prefetcher st)
      (Sort.sorted ltb (Dict.keys (data_by_prefetcher st)))
      (fst (carried_over disk lines)) (snd (carried_over disk lines))
    = (lines', Ok book')
    /\ report d = Stored book'.
Proof.
  rewrite write_report_new_unfold, write_groups_new_eq. intros H Hno.
  assert (Hfail : forall ls d', Returned d' (ls ++ [MsgWriteError]) = Returned d out ->
                                False).
  { intros ls d' [= _ <-]. apply Hno, in_or_app. right. now left. }
  destruct (write_groups _ _ _ _ _ _) as [lines' [book'|e]] eqn:Hg;
    [|exfalso; eapply Hfail; exact H].
  destruct (book_save env (TEMP_OUTPUT_PATH cfg) book');
    [destruct (move env)| |]; try (exfalso; eapply Hfail; exact H).
  exists lines', book'. split; [reflexivity|].
  unfold persist_caches, save_json_data in H.
  repeat destruct (json_write env _); injection H as <- _; reflexivity.
Qed.


(** A stored workbook with a sheet of notes and a stale pipeline sheet. *)
Definition notes_sheet : worksheet :=
  {| ws_cells := [Cell 1 1 (VStr "my notes") 3; Cell 2 1 (VInt 42) 0];
     ws_layout := 7 |}.

Definition noted_book : workbook :=
  [("notes", notes_sheet);
   ("raw_no_pref", {| ws_cells := []; ws_layout := 0 |})].

Definition noted_disk : Disk :=
  {| output_dir := true;
     processed_log := Missing;
     data_cache := Missing;
     report := Stored noted_book;
     temp_report := Missing |}.


(** ** Replacing the report *)

(** In [collect_data_new.py] the report changes only in the move, after
    the whole workbook has been written to the temporary path: a failed
    write has left the report as it was, unless the move itself broke off
    part-way. *)
Lemma write_report_new_keeps_report (cfg : config) (env : Env)
    (disk : Disk) (st : scan_state) (lines : list msg) (d : Disk)
    (out : list msg) :
  write_report_new cfg env disk st lines = Returned d out ->
  calm lines -> In MsgWriteError out ->
  move env <> WritePartial ->
  report d = report disk.
Proof.
  rewrite write_report_new_unfold. intros H Hl Hin Hmove.
  destruct (carried_over_lines disk lines) as (extra0 & Hc0 & He0).
  destruct (write_groups_new _ _ _ _) as [lines' [book|e]] eqn:Hg;
    apply write_groups_new_lines in Hg; destruct Hg as (extra & -> & He);
    [|injection H as <- <-; reflexivity].
  destruct (book_save env (TEMP_OUTPUT_PATH cfg) book);
    [|injection H as <- <-; reflexivity..].
  destruct (move env);
    [|injection H as <- <-; reflexivity|congruence].
  apply persist_caches_spec in H.
  - destruct H as [Hno _]. contradiction.
  - rewrite Hc0. apply calm_app. split; [|exact He].
    apply calm_app. now split.
Qed.

(** A run of [collect_data_new.py] that prints the write error has left
    the report and both cache files as it found them, unless the move
    itself broke off part-way: the workbook is complete at the temporary
    path before the report is touched. *)
Lemma new_report_replaced_last (env : Env) (disk d : Disk) (out : list msg) :
  collect_data_new_main env disk = Returned d out ->
  In MsgWriteError out ->
  move env <> WritePartial ->
  report d = report disk
  /\ processed_log d = processed_log disk
  /\ data_cache d = data_cache disk.
Proof.
  intros H Hin Hmove.
  destruct (main_write_error _ _ _ new_writer env disk d out H Hin)
    as (_ & Hlog & Hcache & _).
  split; [|now split].
  unfold collect_data_new_main in H.
  destruct (walk env) as [dirs|] eqn:Hwalk;
    [|rewrite main_missing_root in H by exact Hwalk;
      injection H as <- <-; simpl in Hin; intuition discriminate].
  destruct (scan_of CollectDataNew.parse_champsim_file
              collect_data_new_config env disk dirs) as [st|e] eqn:Hscan;
    [|unfold main, scan_of in *; rewrite Hwalk in H; simpl in H;
      rewrite Hscan in H; discriminate].
  rewrite (main_after_scan _ _ _ _ _ _ _ Hwalk Hscan) in H.
  destruct (new_files_count st =? 0)%nat.
  - injection H as <- <-. reflexivity.
  - apply write_report_new_keeps_report in H; auto.
    eapply scan_lines_calm; eauto.
Qed.

(** The example tree on a disk where writing a workbook breaks off
    part-way. *)
Definition breaking_env : Env :=
  {| walk := Some example_walk;
     getmtime := fun _ => 1700000000%Z;
     read := fun _ => Some "CPU 0 cumulative IPC: 1.234";
     json_write := fun _ => WriteOk;
     book_save := fun _ _ => WritePartial;
     move := WriteOk |}.

(** C2 fails for [collect_data.py]: it saves the workbook straight onto
    the report, so a save that breaks off leaves the stored report
    unreadable, where [collect_data_new.py], which saves to its temporary
    path first, leaves it as it was. *)
Theorem C2_direct_save_clobbers_report :
  report noted_disk = Stored noted_book
  /\ report (disk_of (collect_data_main breaking_env noted_disk)) = Corrupt
  /\ report (disk_of (collect_data_new_main breaking_env noted_disk))
     = Stored noted_book
  /\ processed_log (disk_of (collect_data_main breaking_env noted_disk))
     = Missing
  /\ data_cache (disk_of (collect_data_main breaking_env noted_disk)) = Missing.
Proof. repeat split; vm_compute; reflexivity. Qed.

(** The atomic replacement at work: the disk refuses the workbook, the run
    of [collect_data_new.py] prints the write error, and the stored report
    is the one found. *)
Lemma new_report_replaced_last_witness :
  exists d out,
    collect_data_new_main refusing_env noted_disk = Returned d out
    /\ In MsgWriteError out
    /\ report d = Stored noted_book.
Proof.
  eexists. eexists. split; [vm_compute; reflexivity|].
  split; [simpl; tauto|].
  apply (proj1 (new_report_replaced_last refusing_env noted_disk _ _
                  eq_refl
                  ltac:(simpl; tauto) ltac:(discriminate))).
Defined.

(* ================================================================== *)
(** * Part III. Further properties of the scripts                      *)
(* ================================================================== *)

(** ** The natural sort key *)

Section NaturalKey.
Import NaturalSort.
Local Open Scope string_scope.

(** Two keys hold the same kind of element, text or number, at every
    index they share: then Python compares them with [<] without ever
    putting an [int] against a [str]. *)
Fixpoint comparable (a b : key) : bool :=
  match a, b with
  | PInt _ :: a', PInt _ :: b' => comparable a' b'
  | PStr _ :: a', PStr _ :: b' => comparable a' b'
  | [], _ => true
  | _, [] => true
  | _, _ => false
  end.

Lemma shape_comparable (a : key) :
  forall b expect_int,
    shape expect_int a = true -> shape expect_int b = true ->
    comparable a b = true.
Proof.
  induction a as [|x a IH]; intros b e Ha Hb; [reflexivity|].
  destruct b as [|y b]; [destruct x; reflexivity|].
  destruct x, y; simpl in *;
    apply andb_prop in Ha; apply andb_prop in Hb;
    destruct Ha as [Ha1 Ha2], Hb as [Hb1 Hb2].
  - eapply IH; eauto.
  - destruct e; discriminate.
  - destruct e; discriminate.
  - eapply IH; eauto.
Qed.

Lemma lower_char_digit (c : ascii) : is_digit (lower_char c) = is_digit c.
Proof. destruct c as [[] [] [] [] [] [] [] []]; reflexivity. Qed.

Lemma lower_char_idem (c : ascii) : lower_char (lower_char c) = lower_char c.
Proof. destruct c as [[] [] [] [] [] [] [] []]; reflexivity. Qed.

Lemma lower_char_of_digit (c : ascii) : is_digit c = true -> lower_char c = c.
Proof. destruct c as [[] [] [] [] [] [] [] []]; intros H; try reflexivity; discriminate H. Qed.

Lemma lower_upper_char (c : ascii) : lower_char (upper_char c) = lower_char c.
Proof. destruct c as [[] [] [] [] [] [] [] []]; reflexivity. Qed.

Lemma lower_idem (s : string) : lower (lower s) = lower s.
Proof. induction s as [|c s IH]; simpl; [reflexivity|]. now rewrite lower_char_idem, IH. Qed.

Lemma lower_upper (s : string) : lower (upper s) = lower s.
Proof. induction s as [|c s IH]; simpl; [reflexivity|]. now rewrite lower_upper_char, IH. Qed.

Lemma lower_app (a b : string) : lower (a ++ b) = lower a ++ lower b.
Proof. induction a as [|c a IH]; simpl; [reflexivity|]. now rewrite IH. Qed.

Lemma split_aux_lower (s : string) :
  forall in_digits cur,
    split_aux (lower s) in_digits (lower cur)
    = map lower (split_aux s in_digits cur).
Proof.
  induction s as [|c s IH]; intros b cur; simpl.
  - destruct b; reflexivity.
  - rewrite lower_char_digit.
    destruct (is_digit c), b; simpl;
      try (rewrite <- IH; simpl; rewrite ?lower_app; reflexivity).
Qed.

Lemma all_digits_lower (p : string) :
  all_chars is_digit (lower p) = all_chars is_digit p.
Proof.
  induction p as [|c p IH]; simpl; [reflexivity|].
  now rewrite lower_char_digit, IH.
Qed.

Lemma lower_of_digits (p : string) :
  all_chars is_digit p = true -> lower p = p.
Proof.
  induction p as [|c p IH]; simpl; [reflexivity|]. intros H.
  apply andb_prop in H. destruct H as [Hc Hp].
  now rewrite (lower_char_of_digit _ Hc), IH.
Qed.

Lemma part_of_lower (p : string) : part_of (lower p) = part_of p.
Proof.
  unfold part_of, is_number.
  rewrite all_digits_lower.
  replace (nonempty (lower p)) with (nonempty p) by (destruct p; reflexivity).
  destruct (nonempty p && all_chars is_digit p) eqn:H.
  - apply andb_prop in H. destruct H as [_ H]. now rewrite (lower_of_digits _ H).
  - now rewrite lower_idem.
Qed.

Lemma natural_sort_key_lower (s : string) :
  natural_sort_key (lower s) = natural_sort_key s.
Proof.
  unfold natural_sort_key, split_digits.
  change "" with (lower "") at 1. rewrite split_aux_lower, map_map.
  apply map_ext. intros p. apply part_of_lower.
Qed.

End NaturalKey.



(** A numeral counts by its value alone: behind the same text, two
    numerals give the same key exactly when they denote the same number,
    whatever their leading zeros. *)
Theorem natural_key_numeral_value (p a b : string) :
  all_chars not_digit p = true -> is_number a = true -> is_number b = true ->
  (NaturalSort.natural_sort_key (p ++ a) = NaturalSort.natural_sort_key (p ++ b)
   <-> digits_value a 0 = digits_value b 0).
Proof.
  intros Hp Ha Hb. unfold NaturalSort.natural_sort_key.
  rewrite !split_digits_text_number by assumption. simpl.
  unfold NaturalSort.part_of at 2 5. rewrite Ha, Hb.
  split.
  - intros H. now injection H.
  - intros ->. reflexivity.
Qed.

Lemma natural_key_numeral_value_witness :
  NaturalSort.natural_sort_key "exp01" = NaturalSort.natural_sort_key "exp1"
  /\ NaturalSort.natural_sort_key "exp1" <> NaturalSort.natural_sort_key "exp10".
Proof.
  split.
  - apply (proj2 (natural_key_numeral_value "exp" "01" "1"
                    eq_refl eq_refl eq_refl)). reflexivity.
  - intros H.
    apply (proj1 (natural_key_numeral_value "exp" "1" "10"
                    eq_refl eq_refl eq_refl)) in H. discriminate H.
Defined.

(** ** The records of the extractor *)

Section RecordShape.

Lemma set_keys {V} (k : string) (v : V) (m : Dict.dict V) :
  In k (Dict.keys m) -> Dict.keys (Dict.set k v m) = Dict.keys m.
Proof.
  induction m as [|[k' v'] m IH]; simpl; [tauto|]. intros H.
  destruct (String.eqb_spec k k') as [->|Hne]; simpl; [reflexivity|].
  destruct H as [H|H]; [congruence|]. now rewrite (IH H).
Qed.

Lemma assign_keys (groups : list string) (fs : list field) :
  forall m m', assign fs groups m = Ok m' ->
    (forall f, In f fs -> In (f_key f) (Dict.keys m)) ->
    Dict.keys m' = Dict.keys m.
Proof.
  induction fs as [|f fs IH]; simpl; intros m m' H Hin.
  - now injection H as <-.
  - destruct (convert (f_conv f) (group groups (f_group f))) as [v|e];
      simpl in H; [|discriminate].
    apply IH in H.
    + rewrite H. apply set_keys. auto.
    + intros f' Hf'. rewrite set_keys by auto. auto.
Qed.

Lemma apply_rules_keys (content : string) (rs : list rule) :
  forall m m', apply_rules content rs m = Ok m' ->
    (forall r f, In r rs -> In f (r_fields r) -> In (f_key f) (Dict.keys m)) ->
    Dict.keys m' = Dict.keys m.
Proof.
  induction rs as [|r rs IH]; simpl; intros m m' H Hin.
  - now injection H as <-.
  - unfold apply_rule in H.
    destruct (search (r_pattern r) content) as [groups|]; simpl in H.
    + destruct (assign (r_fields r) groups m) as [m1|e] eqn:Ha;
        simpl in H; [|discriminate].
      apply assign_keys in Ha; [|intros f Hf; eapply Hin; eauto].
      apply IH in H.
      * congruence.
      * intros r' f Hr Hf. rewrite Ha. eauto.
    + apply IH in H; eauto.
Qed.

(** Every key a rule assigns is one of [names]. *)
Definition declared (names : list string) (rs : list rule) : bool :=
  forallb (fun r => forallb (fun f => existsb (String.eqb (f_key f)) names)
                            (r_fields r)) rs.

Lemma declared_in (names : list string) (rs : list rule) :
  declared names rs = true ->
  forall r f, In r rs -> In f (r_fields r) -> In (f_key f) names.
Proof.
  unfold declared. rewrite forallb_forall. intros H r f Hr Hf.
  apply H in Hr. rewrite forallb_forall in Hr. apply Hr in Hf.
  apply existsb_exists in Hf. destruct Hf as (k & Hk & Heq).
  apply String.eqb_eq in Heq. now subst.
Qed.

Lemma initial_keys (v : value) (names : list string) :
  Dict.keys (initial_metrics v names) = "Trace File" :: names.
Proof.
  unfold initial_metrics, Dict.keys. simpl. f_equal.
  rewrite map_map. simpl. apply map_id.
Qed.

Lemma parsed_columns (rs : list rule) (names : list string)
    (filepath content : string) (r : metrics) :
  declared ("Trace File" :: names) rs = true ->
  forallb (fun r' => negb (touches "Trace File" r')) rs = true ->
  apply_rules content rs (initial_metrics (VStr (basename filepath)) names)
  = Ok r ->
  Dict.keys r = "Trace File" :: names
  /\ Dict.get "Trace File" r = Some (VStr (basename filepath)).
Proof.
  intros Hd Ht H. split.
  - rewrite <- (initial_keys (VStr (basename filepath)) names).
    eapply apply_rules_keys; [exact H|].
    intros r' f Hr Hf. rewrite initial_keys. eapply declared_in; eauto.
  - rewrite (apply_rules_frame "Trace File" _ _ _ _ H); [reflexivity|].
    intros r' Hr Htouch. rewrite forallb_forall in Ht. apply Ht in Hr.
    rewrite Htouch in Hr. discriminate Hr.
Qed.

End RecordShape.

(** A record the extractor returns has exactly the columns declared at the
    head of [parse_champsim_file], in that order, whatever the text held
    (in [collect_data_new.py] they are the headers
    [parse_champsim_file(None)] returns), and its ["Trace File"] is the
    base name of the path. *)
Theorem record_columns_fixed :
  (forall filepath content r,
      CollectData.parse_content filepath content = Ok r ->
      Dict.keys r = "Trace File" :: CollectData.metric_names
      /\ Dict.get "Trace File" r = Some (VStr (basename filepath)))
  /\ (forall filepath content r,
      CollectDataNew.parse_content filepath content = Ok r ->
      Dict.keys r = CollectDataNew.headers
      /\ Dict.get "Trace File" r = Some (VStr (basename filepath))).
Proof.
  split; intros filepath content r H.
  - apply (parsed_columns CollectData.rules _ _ content); [reflexivity..|exact H].
  - unfold CollectDataNew.headers. rewrite initial_keys.
    apply (parsed_columns CollectDataNew.rules _ _ content);
      [reflexivity..|exact H].
Qed.

Lemma record_columns_fixed_witness :
  exists r, CollectData.parse_content "../results/no_pref/exp2/trace_c.out"
              llc_line = Ok r
            /\ Dict.keys r = "Trace File" :: CollectData.metric_names
            /\ Dict.get "Trace File" r = Some (VStr "trace_c.out").
Proof.
  eexists. split; [vm_compute; reflexivity|].
  apply (proj1 record_columns_fixed "../results/no_pref/exp2/trace_c.out"
           llc_line).
  vm_compute. reflexivity.
Defined.

(** ** The values of the extractor *)

Section RecordValues.

(** What a conversion can give on a text captured by a group of class
    [cls]. *)
Definition conv_value_ok (cls : cclass) (c : conv) (v : value) : bool :=
  match c, cls, v with
  | AsInt, Digit, VInt n => (0 <=? n)%Z
  | AsInt, Digit, _ => false
  | AsFloat, DigitOrDot, VFloat (Finite q) => Qle_bool 0 q
  | AsFloat, DigitOrDot, _ => false
  | AsFloatOrText, AccuracyChar, VFloat NaN => false
  | AsFloatOrText, AccuracyChar, VFloat _ => true
  | AsFloatOrText, AccuracyChar, VStr _ => true
  | AsFloatOrText, AccuracyChar, _ => false
  | _, _, _ => true
  end.

Lemma split_sign_plain (text : string) :
  captured DigitOrDot text -> split_sign text = (false, text).
Proof.
  intros [Hne Hall]. destruct text as [|c t]; [discriminate Hne|].
  simpl in Hall. apply andb_prop in Hall. destruct Hall as [Hc _].
  destruct c as [[] [] [] [] [] [] [] []]; try discriminate Hc; reflexivity.
Qed.

Lemma lower_not_word (text : string) :
  captured DigitOrDot text ->
  String.eqb (lower text) "inf" = false
  /\ String.eqb (lower text) "infinity" = false
  /\ String.eqb (lower text) "nan" = false.
Proof.
  intros [Hne Hall]. destruct text as [|c t]; [discriminate Hne|].
  simpl in Hall. apply andb_prop in Hall. destruct Hall as [Hc _].
  destruct c as [[] [] [] [] [] [] [] []]; try discriminate Hc;
    repeat split; reflexivity.
Qed.

Lemma decimal_not_negative (s : string) (q : Q) :
  decimal s = Some q -> Qle_bool 0 q = true.
Proof.
  unfold decimal. destruct (split_dot s) as [ip [fp|]].
  - destruct (_ && _); [|discriminate]. intros H. injection H as <-.
    unfold Qle_bool. simpl. apply Z.leb_le. lia.
  - destruct (is_number ip); [|discriminate]. intros H. injection H as <-.
    unfold Qle_bool. simpl. apply Z.leb_le. lia.
Qed.

Lemma float_of_decimal_text (text : string) (x : pyfloat) :
  captured DigitOrDot text -> float text = Ok x ->
  exists q, x = Finite q /\ Qle_bool 0 q = true.
Proof.
  intros Hc. unfold float. rewrite (split_sign_plain _ Hc).
  destruct (lower_not_word _ Hc) as (-> & -> & ->). simpl.
  destruct (decimal text) as [q|] eqn:Hd; [|discriminate].
  intros H. injection H as <-. exists q. split; [reflexivity|].
  eapply decimal_not_negative; eauto.
Qed.

Lemma sign_rest_accuracy (text : string) :
  all_chars is_accuracy_char text = true ->
  all_chars is_accuracy_char (snd (split_sign text)) = true.
Proof.
  destruct text as [|c t]; [reflexivity|]. intros H.
  assert (Ht : all_chars is_accuracy_char t = true).
  { simpl in H. apply andb_prop in H. tauto. }
  destruct c as [[] [] [] [] [] [] [] []]; simpl; auto.
Qed.

Lemma lower_a (c : ascii) :
  lower_char c = "a"%char -> is_accuracy_char c = false.
Proof.
  destruct c as [[] [] [] [] [] [] [] []]; intros H;
    try reflexivity; discriminate H.
Qed.

Lemma not_nan_word (body : string) :
  all_chars is_accuracy_char body = true ->
  String.eqb (lower body) "nan" = false.
Proof.
  intros Hall. destruct (String.eqb_spec (lower body) "nan") as [H|]; [|reflexivity].
  destruct body as [|c1 [|c2 body]]; try discriminate H.
  simpl in H. injection H as _ H2 _.
  apply lower_a in H2. simpl in Hall. rewrite H2 in Hall.
  rewrite andb_false_r in Hall. discriminate Hall.
Qed.

Lemma float_of_accuracy_text (text : string) :
  captured AccuracyChar text -> float text <> Ok NaN.
Proof.
  intros [_ Hall]. unfold float.
  pose proof (sign_rest_accuracy _ Hall) as Hb.
  destruct (split_sign text) as [neg body]. simpl in Hb.
  rewrite (not_nan_word _ Hb).
  destruct (_ || _); [discriminate|].
  destruct (decimal body); discriminate.
Qed.

Lemma convert_captured (cls : cclass) (c : conv) (text : string) (v : value) :
  captured cls text -> convert c text = Ok v -> conv_value_ok cls c v = true.
Proof.
  intros Hc H. destruct c, cls; try (destruct v as [| |[]|]; reflexivity).
  - simpl in H. rewrite (int_captured _ Hc) in H. injection H as <-.
    simpl. apply Z.leb_le. lia.
  - simpl in H. destruct (float text) as [x|e] eqn:Hf; [|discriminate].
    injection H as <-.
    destruct (float_of_decimal_text _ _ Hc Hf) as (q & -> & Hq). exact Hq.
  - simpl in H. pose proof (float_of_accuracy_text _ Hc) as Hn.
    destruct (float text) as [x|[]]; try discriminate;
      injection H as <-; [|reflexivity].
    destruct x; simpl; congruence.
Qed.

(** The class of the group a field reads. *)
Definition field_class (re : regex) (f : field) : option cclass :=
  if (1 <=? f_group f)%nat
  then nth_error (group_classes re) (f_group f - 1) else None.

Variable P : string -> value -> bool.

(** Every value of [m] is as [P] asks under its key. *)
Definition all_values (m : metrics) : Prop :=
  forall k v, Dict.get k m = Some v -> P k v = true.

(** What the conversions of the rules [rs] give is as [P] asks. *)
Definition rules_give (rs : list rule) : Prop :=
  forall r f, In r rs -> In f (r_fields r) ->
    exists cls, field_class (r_pattern r) f = Some cls
                /\ forall v, conv_value_ok cls (f_conv f) v = true ->
                             P (f_key f) v = true.

Lemma set_all_values (k : string) (v : value) (m : metrics) :
  all_values m -> P k v = true -> all_values (Dict.set k v m).
Proof.
  intros Hm Hv k' v' H. destruct (String.eqb_spec k' k) as [->|Hne].
  - rewrite get_set_same in H. now injection H as <-.
  - rewrite get_set_other in H by exact Hne. eauto.
Qed.

Lemma assign_all_values (re : regex) (groups : list string) (fs : list field) :
  Forall2 captured (group_classes re) groups ->
  (forall f, In f fs ->
     exists cls, field_class re f = Some cls
                 /\ forall v, conv_value_ok cls (f_conv f) v = true ->
                              P (f_key f) v = true) ->
  forall m m', assign fs groups m = Ok m' -> all_values m -> all_values m'.
Proof.
  intros Hcap. induction fs as [|f fs IH]; simpl; intros Hfs m m' H Hm.
  - now injection H as <-.
  - destruct (convert (f_conv f) (group groups (f_group f))) as [v|e] eqn:Hv;
      simpl in H; [|discriminate].
    apply IH in H; auto. apply set_all_values; [exact Hm|].
    destruct (Hfs f (or_introl eq_refl)) as (cls & Hcls & HP).
    apply HP. apply (convert_captured cls _ (group groups (f_group f))); auto.
    unfold field_class in Hcls.
    destruct (1 <=? f_group f)%nat; [|discriminate].
    unfold group. eapply captured_nth; eauto.
Qed.

Lemma apply_rules_all_values (content : string) (rs : list rule) :
  rules_give rs ->
  forall m m', apply_rules content rs m = Ok m' -> all_values m -> all_values m'.
Proof.
  induction rs as [|r rs IH]; simpl; intros Hrs m m' H Hm.
  - now injection H as <-.
  - unfold apply_rule in H.
    destruct (search (r_pattern r) content) as [groups|] eqn:Hs; simpl in H.
    + destruct (assign (r_fields r) groups m) as [m1|e] eqn:Ha;
        simpl in H; [|discriminate].
      apply IH in H; auto.
      * intros r' f Hr Hf. apply Hrs; simpl; auto.
      * eapply assign_all_values; eauto.
        -- eapply search_captures; eauto.
        -- intros f Hf. apply Hrs; simpl; auto.
    + apply IH in H; auto. intros r' f Hr Hf. apply Hrs; simpl; auto.
Qed.

Lemma initial_all_values (trace_file : string) (names : list string) :
  (forall k, P k VNone = true) -> P "Trace File" (VStr trace_file) = true ->
  all_values (initial_metrics (VStr trace_file) names).
Proof.
  intros Hnone Htf k v. unfold initial_metrics. simpl.
  destruct (String.eqb_spec k "Trace File") as [->|_].
  - intros H. now injection H as <-.
  - induction names as [|n names IH]; simpl; [discriminate|].
    destruct (String.eqb k n); [|exact IH].
    intros H. injection H as <-. apply Hnone.
Qed.

End RecordValues.

(** A value that is no negative number: an integer or a float at least
    0 (an overflowing numeral reads as plus infinity), or no number at
    all. *)
Definition not_negative (v : value) : bool :=
  match v with
  | VInt n => (0 <=? n)%Z
  | VFloat (Finite q) => Qle_bool 0 q
  | VFloat (Infinity negative) => negb negative
  | VFloat NaN => false
  | VNone | VStr _ => true
  end.

Definition is_nan (v : value) : bool :=
  match v with VFloat NaN => true | _ => false end.

Definition accuracy_key (k : string) : bool :=
  existsb (String.eqb k)
    ["L1D Prefetch Accuracy"; "L2C Prefetch Accuracy"; "LLC Prefetch Accuracy"].

Ltac each_field Hr Hf :=
  simpl in Hr;
  repeat (destruct Hr as [<-|Hr];
          [simpl in Hf;
           repeat (destruct Hf as [<-|Hf];
                   [eexists; split; [reflexivity|];
                    let v := fresh "v" in
                    intros v; destruct v as [| |[]|]; simpl; congruence|]);
           contradiction|]);
  contradiction.

Lemma old_rules_not_negative :
  rules_give (fun _ v => not_negative v) CollectData.rules.
Proof. intros r f Hr Hf. each_field Hr Hf. Qed.

Lemma new_rules_not_negative :
  rules_give (fun k v => accuracy_key k || not_negative v) CollectDataNew.rules.
Proof. intros r f Hr Hf. each_field Hr Hf. Qed.

Lemma old_rules_no_nan :
  rules_give (fun _ v => negb (is_nan v)) CollectData.rules.
Proof. intros r f Hr Hf. each_field Hr Hf. Qed.

Lemma new_rules_no_nan :
  rules_give (fun _ v => negb (is_nan v)) CollectDataNew.rules.
Proof. intros r f Hr Hf. each_field Hr Hf. Qed.

(** No field of a record is ever a NaN float: [[\d.]+] captures no letter
    and [[\d.inf-]+] does not capture the letter [a], so no captured text
    reads as [nan]; an accuracy printed as [nan] or [-nan] is kept as the
    text [n] or [-n]. *)
Theorem extractor_never_nan :
  (forall filepath content r k,
      CollectData.parse_content filepath content = Ok r ->
      Dict.get k r <> Some (VFloat NaN))
  /\ (forall filepath content r k,
      CollectDataNew.parse_content filepath content = Ok r ->
      Dict.get k r <> Some (VFloat NaN)).
Proof.
  split; intros filepath content r k H Hk.
  - apply (apply_rules_all_values _ content _ old_rules_no_nan) in H.
    + apply H in Hk. discriminate Hk.
    + now apply initial_all_values.
  - apply (apply_rules_all_values _ content _ new_rules_no_nan) in H.
    + apply H in Hk. discriminate Hk.
    + now apply initial_all_values.
Qed.

Lemma extractor_never_nan_witness :
  exists r, CollectDataNew.parse_content "trace.out"
              "LLC USEFUL LOAD PREFETCHES: 0 ACCURACY: nan" = Ok r
            /\ Dict.get "LLC Prefetch Accuracy" r = Some (VStr "n")
            /\ Dict.get "LLC Prefetch Accuracy" r <> Some (VFloat NaN).
Proof.
  eexists. split; [vm_compute; reflexivity|]. split; [reflexivity|].
  apply (proj2 extractor_never_nan "trace.out"
           "LLC USEFUL LOAD PREFETCHES: 0 ACCURACY: nan").
  vm_compute. reflexivity.
Defined.

(** No number of a record is negative: [(\d+)] and [([\d.]+)] capture no
    sign, so every integer and every float the extractor stores is at
    least 0, in [collect_data.py] for every field and in
    [collect_data_new.py] for every field but the three prefetch
    accuracies, whose pattern admits [-]. *)
Theorem extracted_numbers_not_negative :
  (forall filepath content r k v,
      CollectData.parse_content filepath content = Ok r ->
      Dict.get k r = Some v -> not_negative v = true)
  /\ (forall filepath content r k v,
      CollectDataNew.parse_content filepath content = Ok r ->
      Dict.get k r = Some v -> accuracy_key k = false ->
      not_negative v = true).
Proof.
  split; intros filepath content r k v H Hk.
  - apply (apply_rules_all_values _ content _ old_rules_not_negative) in H.
    + now apply H in Hk.
    + now apply initial_all_values.
  - intros Hacc.
    apply (apply_rules_all_values _ content _ new_rules_not_negative) in H.
    + apply H in Hk. now rewrite Hacc in Hk.
    + apply initial_all_values; [intros k'; apply orb_true_r|reflexivity].
Qed.

Lemma extracted_numbers_not_negative_witness :
  exists r v, CollectData.parse_content "trace.out" llc_line = Ok r
              /\ Dict.get "LLC Total MPKI" r = Some v
              /\ not_negative v = true.
Proof.
  eexists. eexists. split; [vm_compute; reflexivity|].
  split; [reflexivity|].
  eapply (proj1 extracted_numbers_not_negative "trace.out" llc_line _
            "LLC Total MPKI").
  - vm_compute. reflexivity.
  - reflexivity.
Defined.

(** ** The scan loop *)

Section ScanLoop.

Variable parse : (string -> option string) -> string -> result (option metrics).
Variable env : Env.
Variable cached_data : Dict.dict (Dict.dict metrics).

Local Abbreviation run := (run_jobs parse env cached_data).
Local Abbreviation step := (turn parse env cached_data).

Lemma step_counts (st st' : scan_state) (j : job) :
  step st j st' ->
  new_files_count st' + skipped_files_count st'
  = new_files_count st + skipped_files_count st + 1
  /\ (List.length (parse_calls st) = new_files_count st ->
      List.length (parse_calls st') = new_files_count st').
Proof.
  intros [Hup Hd Hl Hn Hs Hp Hc|Hup Hparse Hd Hl Hn Hs Hp Hc
         |m Hup Hparse Hm Hd Hl Hn Hs Hp Hc|Hup Hparse Hd Hl Hn Hs Hp Hc];
    rewrite Hn, Hs, Hc, ?length_app; simpl; lia.
Qed.

Lemma run_counts (js : list job) :
  forall st st', run js st = Ok st' ->
    new_files_count st' + skipped_files_count st'
    = new_files_count st + skipped_files_count st + List.length js
    /\ (List.length (parse_calls st) = new_files_count st ->
        List.length (parse_calls st') = new_files_count st').
Proof.
  induction js as [|j js IH]; intros st st' H.
  - simpl in H. injection H as <-. simpl. split; [lia|auto].
  - apply run_cons in H. destruct H as (st1 & Hstep & Hrun).
    apply step_counts in Hstep. apply IH in Hrun. simpl.
    destruct Hstep as [H1 H2], Hrun as [H3 H4]. split; [lia|auto].
Qed.

Lemma step_data_from (st st' : scan_state) (j : job) (g p : string) :
  step st j st' ->
  record_at g p (data_by_prefetcher st') <> None ->
  record_at g p (data_by_prefetcher st) <> None
  \/ (job_path j = p /\ j_group_key j = g).
Proof.
  intros [Hup Hd Hl Hn Hs Hp Hc|Hup Hparse Hd Hl Hn Hs Hp Hc
         |m Hup Hparse Hm Hd Hl Hn Hs Hp Hc|Hup Hparse Hd Hl Hn Hs Hp Hc];
    rewrite Hd; auto.
  - unfold reuse.
    destruct (record_at (j_group_key j) (job_path j) cached_data) as [rec|];
      auto.
    destruct (record_at g p (set_record _ _ rec _)) as [r|] eqn:Hr;
      [|congruence].
    intros _. apply record_at_set_cases in Hr.
    destruct Hr as [(-> & -> & _)|Hr]; [auto|left; congruence].
  - destruct (record_at g p (set_record _ _ _ _)) as [r|] eqn:Hr;
      [|congruence].
    intros _. apply record_at_set_cases in Hr.
    destruct Hr as [(-> & -> & _)|Hr]; [auto|left; congruence].
Qed.

Lemma run_data_from (js : list job) (g p : string) :
  forall st st', run js st = Ok st' ->
    record_at g p (data_by_prefetcher st') <> None ->
    record_at g p (data_by_prefetcher st) <> None
    \/ exists j, In j js /\ job_path j = p /\ j_group_key j = g.
Proof.
  induction js as [|j js IH]; intros st st' H Hr.
  - simpl in H. injection H as <-. auto.
  - apply run_cons in H. destruct H as (st1 & Hstep & Hrun).
    destruct (IH _ _ Hrun Hr) as [H1|(j' & Hin & Hj)].
    + destruct (step_data_from _ _ _ _ _ Hstep H1) as [H0|H0]; [auto|].
      right. exists j. simpl. auto.
    + right. exists j'. simpl. auto.
Qed.

Lemma step_log_kept (st st' : scan_state) (j : job) (p : string) :
  step st j st' ->
  Dict.get p (processed_files_log st) <> None ->
  Dict.get p (processed_files_log st') <> None.
Proof.
  intros [Hup Hd Hl Hn Hs Hp Hc|Hup Hparse Hd Hl Hn Hs Hp Hc
         |m Hup Hparse Hm Hd Hl Hn Hs Hp Hc|Hup Hparse Hd Hl Hn Hs Hp Hc];
    rewrite Hl; auto.
  intros H. destruct (String.eqb_spec p (job_path j)) as [->|Hne].
  - rewrite get_set_same. discriminate.
  - now rewrite get_set_other.
Qed.

Lemma run_log_kept (js : list job) (p : string) :
  forall st st', run js st = Ok st' ->
    Dict.get p (processed_files_log st) <> None ->
    Dict.get p (processed_files_log st') <> None.
Proof.
  induction js as [|j js IH]; intros st st' H Hp.
  - simpl in H. now injection H as <-.
  - apply run_cons in H. destruct H as (st1 & Hstep & Hrun).
    eapply IH; eauto. eapply step_log_kept; eauto.
Qed.

Lemma not_logged_stale (log : Dict.dict mtime) (p : string) :
  Dict.get p log = None -> up_to_date env log p = false.
Proof. unfold up_to_date, unchanged. now intros ->. Qed.

Lemma run_all_new (js : list job) :
  forall st st', run js st = Ok st' ->
    NoDup (map job_path js) ->
    (forall j, In j js -> Dict.get (job_path j) (processed_files_log st) = None) ->
    parse_calls st' = parse_calls st ++ map job_path js
    /\ skipped_files_count st' = skipped_files_count st
    /\ new_files_count st' = new_files_count st + List.length js.
Proof.
  induction js as [|j js IH]; intros st st' H Hnd Hlog.
  - simpl in H. injection H as <-. simpl. rewrite app_nil_r. auto.
  - apply run_cons in H. destruct H as (st1 & Hstep & Hrun).
    simpl in Hnd. inversion Hnd as [|? ? Hnotin Hnd']; subst.
    assert (Hstale : up_to_date env (processed_files_log st) (job_path j) = false).
    { apply not_logged_stale. apply Hlog. simpl. auto. }
    assert (Hlog1 : forall j', In j' js ->
              Dict.get (job_path j') (processed_files_log st1) = None).
    { intros j' Hin.
      assert (Hne : job_path j <> job_path j').
      { intros Heq. apply Hnotin. rewrite Heq. now apply in_map. }
      destruct (step_frame _ _ _ _ _ _ _ Hstep Hne) as [_ ->].
      apply Hlog. simpl. auto. }
    destruct (IH _ _ Hrun Hnd' Hlog1) as (Hc & Hs & Hn).
    rewrite Hc, Hs, Hn. simpl.
    destruct Hstep as [Hup Hd Hl Hn1 Hs1 Hp Hc1|Hup Hparse Hd Hl Hn1 Hs1 Hp Hc1
         |m Hup Hparse Hm Hd Hl Hn1 Hs1 Hp Hc1|Hup Hparse Hd Hl Hn1 Hs1 Hp Hc1];
      try congruence;
      rewrite Hc1, Hs1, Hn1, <- app_assoc; simpl; repeat split; lia.
Qed.

Lemma run_raises (js : list job) (j : job) (e : exn) :
  In j js -> parse (read env) (job_path j) = Raise e ->
  forall st, up_to_date env (processed_files_log st) (job_path j) = false ->
             exists e', run js st = Raise e'.
Proof.
  intros Hin Hparse. induction js as [|j0 js IH]; [contradiction|].
  intros st Hstale. simpl.
  destruct (run_job parse env cached_data st j0) as [st1|e0] eqn:Hjob;
    simpl; [|eauto].
  apply run_job_turn in Hjob.
  assert (Hne : job_path j0 <> job_path j).
  { intros Heq.
    destruct Hjob as [Hup Hd Hl Hn1 Hs1 Hp Hc1|Hup Hp0 Hd Hl Hn1 Hs1 Hp Hc1
         |m Hup Hp0 Hm Hd Hl Hn1 Hs1 Hp Hc1|Hup Hp0 Hd Hl Hn1 Hs1 Hp Hc1];
      rewrite Heq in *; congruence. }
  destruct Hin as [->|Hin]; [congruence|].
  apply IH; [exact Hin|].
  destruct (up_to_date env (processed_files_log st1) (job_path j)) eqn:Hup1;
    [|reflexivity].
  destruct Hjob as [Hup Hd Hl Hn1 Hs1 Hp Hc1|Hup Hp0 Hd Hl Hn1 Hs1 Hp Hc1
       |m Hup Hp0 Hm Hd Hl Hn1 Hs1 Hp Hc1|Hup Hp0 Hd Hl Hn1 Hs1 Hp Hc1];
    rewrite Hl in Hup1; try congruence.
  apply up_to_date_set in Hup1. destruct Hup1 as [Heq|Hup1]; congruence.
Qed.

Lemma run_job_raise (st : scan_state) (j : job) (e : exn) :
  run_job parse env cached_data st j = Raise e ->
  parse (read env) (job_path j) = Raise e.
Proof.
  unfold run_job, process_file, job_path.
  destruct (unchanged _ _ _); [discriminate|].
  destruct (parse (read env) _) as [[m|]|e0]; try discriminate. congruence.
Qed.

Lemma run_raise (js : list job) :
  forall st e, run js st = Raise e ->
    exists j, In j js /\ parse (read env) (job_path j) = Raise e.
Proof.
  induction js as [|j js IH]; intros st e H; [discriminate|].
  simpl in H.
  destruct (run_job parse env cached_data st j) as [st1|e0] eqn:Hjob;
    simpl in H.
  - apply IH in H. destruct H as (j' & Hin & Hp). exists j'. simpl. auto.
  - injection H as ->. apply run_job_raise in Hjob. exists j. simpl. auto.
Qed.

End ScanLoop.

(** Every file of a recognised directory is counted exactly once, as new
    or as skipped, and the extractor is called once for each file counted
    as new. *)
Theorem scan_counts
    (parse : (string -> option string) -> string -> result (option metrics))
    (cfg : config) (env : Env) (cached_data : Dict.dict (Dict.dict metrics))
    (log0 : Dict.dict mtime) dirs (st : scan_state) :
  scan parse cfg env cached_data dirs (initial_state log0) = Ok st ->
  new_files_count st + skipped_files_count st = List.length (jobs cfg dirs)
  /\ List.length (parse_calls st) = new_files_count st.
Proof.
  rewrite scan_jobs. intros H. apply run_counts in H.
  destruct H as [H1 H2]. simpl in *. split; [lia|auto].
Qed.

Lemma scan_counts_witness :
  exists st,
    scan CollectData.parse_champsim_file collect_data_config unreadable_env []
      example_walk
      (initial_state [("../results/no_pref/exp2/trace_c.out", 1700000000%Z)])
    = Ok st
    /\ new_files_count st = 2 /\ skipped_files_count st = 1
    /\ new_files_count st + skipped_files_count st
       = List.length (jobs collect_data_config example_walk)
    /\ List.length (parse_calls st) = new_files_count st.
Proof.
  eexists. split; [vm_compute; reflexivity|].
  split; [reflexivity|]. split; [reflexivity|].
  apply (scan_counts CollectData.parse_champsim_file collect_data_config
           unreadable_env []
           [("../results/no_pref/exp2/trace_c.out", 1700000000%Z)]
           example_walk).
  vm_compute. reflexivity.
Defined.

(** The dataset is rebuilt from the files the scan meets: it holds a
    record under a group and a path only if that path is a file of the
    tree scanned under that group, so what the cache holds for a file that
    is gone is not carried over. *)
Theorem dataset_only_scanned_files
    (parse : (string -> option string) -> string -> result (option metrics))
    (cfg : config) (env : Env) (cached_data : Dict.dict (Dict.dict metrics))
    (log0 : Dict.dict mtime) dirs (st : scan_state) (g p : string)
    (r : metrics) :
  scan parse cfg env cached_data dirs (initial_state log0) = Ok st ->
  record_at g p (data_by_prefetcher st) = Some r ->
  exists j, In j (jobs cfg dirs) /\ job_path j = p /\ j_group_key j = g.
Proof.
  rewrite scan_jobs. intros H Hr.
  destruct (run_data_from _ _ _ _ g p _ _ H) as [H0|H0];
    [congruence| |exact H0].
  exfalso. apply H0. reflexivity.
Qed.

(** A cache that still holds the record of a trace deleted from the
    tree. *)
Definition stale_cache : Dict.dict (Dict.dict metrics) :=
  [("no_pref", [("../results/no_pref/exp2/trace_gone.out",
                 [("Trace File", VStr "trace_gone.out");
                  ("Experiment", VStr "exp2")])])].

Lemma dataset_only_scanned_files_witness :
  exists st,
    scan CollectData.parse_champsim_file collect_data_config example_env
      stale_cache example_walk
      (initial_state [("../results/no_pref/exp2/trace_gone.out", 1700000000%Z)])
    = Ok st
    /\ record_at "no_pref" "../results/no_pref/exp2/trace_gone.out"
         (data_by_prefetcher st) = None.
Proof.
  eexists. split; [vm_compute; reflexivity|].
  match goal with |- ?x = None => destruct x as [r|] eqn:Hr end;
    [|reflexivity].
  exfalso.
  destruct (dataset_only_scanned_files CollectData.parse_champsim_file
              collect_data_config example_env stale_cache
              [("../results/no_pref/exp2/trace_gone.out", 1700000000%Z)]
              example_walk _ _ _ r eq_refl Hr) as (j & Hin & Hp & _).
  vm_compute in Hin.
  repeat (destruct Hin as [<-|Hin]; [discriminate Hp|]). exact Hin.
Defined.

(** Nothing prunes the processed-files log: an entry the run starts with
    is still there after the scan, and the entry of a path that is not a
    file of the tree is exactly as it was. *)
Theorem log_never_pruned
    (parse : (string -> option string) -> string -> result (option metrics))
    (cfg : config) (env : Env) (cached_data : Dict.dict (Dict.dict metrics))
    (log0 : Dict.dict mtime) dirs (st : scan_state) (p : string) :
  scan parse cfg env cached_data dirs (initial_state log0) = Ok st ->
  (Dict.get p log0 <> None -> Dict.get p (processed_files_log st) <> None)
  /\ ((forall j, In j (jobs cfg dirs) -> job_path j <> p) ->
      Dict.get p (processed_files_log st) = Dict.get p log0).
Proof.
  rewrite scan_jobs. intros H. split.
  - intros Hp. eapply run_log_kept; eauto.
  - intros Hno. destruct (run_frame _ _ _ _ p _ _ H Hno) as [_ Hl]. exact Hl.
Qed.

Lemma log_never_pruned_witness :
  exists st,
    scan CollectData.parse_champsim_file collect_data_config example_env
      stale_cache example_walk
      (initial_state [("../results/no_pref/exp2/trace_gone.out", 1700000000%Z)])
    = Ok st
    /\ Dict.get "../results/no_pref/exp2/trace_gone.out" (processed_files_log st)
       = Some 1700000000%Z.
Proof.
  eexists. split; [vm_compute; reflexivity|].
  etransitivity.
  - eapply (proj2 (log_never_pruned CollectData.parse_champsim_file
                     collect_data_config example_env stale_cache
                     [("../results/no_pref/exp2/trace_gone.out", 1700000000%Z)]
                     example_walk _ "../results/no_pref/exp2/trace_gone.out"
                     eq_refl)).
    intros j Hin Hp. vm_compute in Hin.
    repeat (destruct Hin as [<-|Hin]; [discriminate Hp|]). exact Hin.
  - reflexivity.
Defined.


(** The data cache of an earlier run is there, the log is unreadable. *)
Definition unlogged_disk : Disk :=
  {| output_dir := true;
     processed_log := Corrupt;
     data_cache := Stored stale_cache;
     report := Missing;
     temp_report := Missing |}.


(** Only two shapes of directory are read: [a/b/c] under the results
    root, and [no_pref/c]. The files of any other directory (the root
    itself, a two-level directory that does not start with [no_pref], a
    deeper one) are passed over: the scan state is as before, nothing is
    counted, printed or read. *)
Theorem unrecognised_directory_ignored
    (parse : (string -> option string) -> string -> result (option metrics))
    (cfg : config) (env : Env) (cached_data : Dict.dict (Dict.dict metrics))
    (st : scan_state) (path_parts files : list string) :
  List.length path_parts <> 3 ->
  (List.length path_parts = 2 -> nth 0 path_parts "" <> "no_pref") ->
  process_dir parse cfg env cached_data st (path_parts, files) = Ok st.
Proof.
  intros H3 H2. unfold process_dir.
  destruct files as [|f files]; [reflexivity|].
  destruct path_parts as [|a [|b [|c [|d rest]]]]; try reflexivity.
  - simpl. specialize (H2 eq_refl). simpl in H2.
    destruct (String.eqb_spec a "no_pref"); [contradiction|reflexivity].
  - simpl in H3. congruence.
Qed.

Lemma unrecognised_directory_ignored_witness :
  process_dir CollectData.parse_champsim_file collect_data_config example_env []
    (initial_state []) (["pref_l1"; "exp1"], ["trace_a.out"])
  = Ok (initial_state []).
Proof.
  apply unrecognised_directory_ignored; simpl; [discriminate|].
  intros _. discriminate.
Defined.

Lemma parse_old_raises (rd : string -> option string) (p content : string)
    (e : exn) :
  rd p = Some content -> CollectData.parse_content p content = Raise e ->
  CollectData.parse_champsim_file rd p = Raise e.
Proof.
  unfold CollectData.parse_champsim_file. intros -> ->. reflexivity.
Qed.

Lemma parse_new_raises (rd : string -> option string) (p content : string)
    (e : exn) :
  rd p = Some content -> CollectDataNew.parse_content p content = Raise e ->
  CollectDataNew.parse_champsim_file rd p = Raise e.
Proof.
  unfold CollectDataNew.parse_champsim_file. intros -> ->. reflexivity.
Qed.

Lemma parse_old_value_error (rd : string -> option string) (p : string)
    (e : exn) :
  CollectData.parse_champsim_file rd p = Raise e -> e = ValueError.
Proof.
  unfold CollectData.parse_champsim_file, CollectData.parse_content.
  destruct (rd p) as [content|]; [|discriminate].
  destruct (apply_rules content _ _) as [m|e0] eqn:H; [discriminate|].
  simpl. intros He. injection He as <-.
  eapply apply_rules_raises_value_error; eauto.
Qed.

Lemma parse_new_value_error (rd : string -> option string) (p : string)
    (e : exn) :
  CollectDataNew.parse_champsim_file rd p = Raise e -> e = ValueError.
Proof.
  unfold CollectDataNew.parse_champsim_file, CollectDataNew.parse_content.
  destruct (rd p) as [content|]; [|discriminate].
  destruct (apply_rules content _ _) as [m|e0] eqn:H; [discriminate|].
  simpl. intros He. injection He as <-.
  eapply apply_rules_raises_value_error; eauto.
Qed.

Lemma main_crashes
    (parse : (string -> option string) -> string -> result (option metrics))
    (write_report : config -> Env -> Disk -> scan_state -> list msg -> outcome)
    (cfg : config) (env : Env) (disk : Disk) dirs (j : job) (e : exn) :
  walk env = Some dirs -> In j (jobs cfg dirs) ->
  up_to_date env (load_json_data (processed_log disk)) (job_path j) = false ->
  parse (read env) (job_path j) = Raise e ->
  exists e' j',
    main parse write_report cfg env disk = Crashed (with_output_dir disk) e'
    /\ parse (read env) (job_path j') = Raise e'.
Proof.
  intros Hwalk Hin Hstale Hparse. unfold main. rewrite Hwalk.
  rewrite scan_jobs.
  destruct (run_raises parse env (load_json_data (data_cache (with_output_dir disk)))
              _ j e Hin Hparse
              (initial_state (load_json_data (processed_log (with_output_dir disk))))
              Hstale) as [e' He'].
  rewrite He'. apply run_raise in He'. destruct He' as (j' & _ & Hj').
  eauto.
Qed.

(** One malformed trace aborts the whole run: when a new or modified file
    of the tree makes the extractor raise, [main] does not return; the
    [ValueError] leaves it from the scan loop, after the output directory
    was made and before anything was written, so report and caches are
    as they were, what the other files gave is lost, and the process ends
    with status 1. *)
Theorem malformed_trace_aborts_run :
  (forall env disk dirs j content e,
      walk env = Some dirs -> In j (jobs collect_data_config dirs) ->
      up_to_date env (load_json_data (processed_log disk)) (job_path j) = false ->
      read env (job_path j) = Some content ->
      CollectData.parse_content (job_path j) content = Raise e ->
      collect_data_main env disk = Crashed (with_output_dir disk) ValueError
      /\ exit_status (collect_data_main env disk) = 1%Z)
  /\ (forall env disk dirs j content e,
      walk env = Some dirs -> In j (jobs collect_data_new_config dirs) ->
      up_to_date env (load_json_data (processed_log disk)) (job_path j) = false ->
      read env (job_path j) = Some content ->
      CollectDataNew.parse_content (job_path j) content = Raise e ->
      collect_data_new_main env disk
      = Crashed (with_output_dir disk) ValueError
      /\ exit_status (collect_data_new_main env disk) = 1%Z).
Proof.
  split; intros env disk dirs j content e Hwalk Hin Hstale Hread Hparse.
  - destruct (main_crashes CollectData.parse_champsim_file write_report_old
                collect_data_config env disk dirs j e Hwalk Hin Hstale)
      as (e' & j' & He' & Hj').
    + eapply parse_old_raises; eauto.
    + apply parse_old_value_error in Hj'. subst e'.
      unfold collect_data_main. rewrite He'. auto.
  - destruct (main_crashes CollectDataNew.parse_champsim_file write_report_new
                collect_data_new_config env disk dirs j e Hwalk Hin Hstale)
      as (e' & j' & He' & Hj').
    + eapply parse_new_raises; eauto.
    + apply parse_new_value_error in Hj'. subst e'.
      unfold collect_data_new_main. rewrite He'. auto.
Qed.

(** The example tree with a malformed IPC line in the baseline trace. *)
Definition malformed_env : Env :=
  {| walk := Some example_walk;
     getmtime := fun _ => 1700000000%Z;
     read := fun p => if String.eqb p "../results/no_pref/exp2/trace_c.out"
                      then Some "CPU 0 cumulative IPC: 1.2.3"
                      else Some "CPU 0 cumulative IPC: 1.234";
     json_write := fun _ => WriteOk;
     book_save := fun _ _ => WriteOk;
     move := WriteOk |}.

Lemma malformed_trace_aborts_run_witness :
  collect_data_main malformed_env noted_disk
  = Crashed (with_output_dir noted_disk) ValueError
  /\ report (disk_of (collect_data_main malformed_env noted_disk))
     = Stored noted_book.
Proof.
  destruct (proj1 malformed_trace_aborts_run malformed_env noted_disk
              example_walk trace_c "CPU 0 cumulative IPC: 1.2.3" ValueError)
    as (He & _).
  - reflexivity.
  - vm_compute. tauto.
  - vm_compute. reflexivity.
  - vm_compute. reflexivity.
  - vm_compute. reflexivity.
  - rewrite He. split; reflexivity.
Defined.

(** ** The sheets of the report *)

(** The groups the loop writes a sheet for: those with a record. *)
Definition written_groups (data : Dict.dict (Dict.dict metrics))
    (group_keys : list string) : list string :=
  filter (fun g => match data_list data g with [] => false | _ :: _ => true end)
         group_keys.

(** The workbook a stored report holds; none counts as empty. *)
Definition stored_sheets (file : stored workbook) : workbook :=
  match file with Stored book => book | Missing | Corrupt => [] end.

Lemma written_groups_in data (group_keys : list string) (g : string) :
  In g (written_groups data group_keys)
  <-> In g group_keys /\ data_list data g <> [].
Proof.
  unfold written_groups. rewrite filter_In.
  destruct (data_list data g); intuition congruence.
Qed.

Lemma write_groups_names render data (group_keys : list string) :
  forall book lines lines' book',
    write_groups render [] data group_keys book lines = (lines', Ok book') ->
    sheetnames book'
    = sheetnames book ++ map sheet_name (written_groups data group_keys).
Proof.
  induction group_keys as [|g gks IH]; intros book lines lines' book' H.
  - cbn [write_groups] in H. injection H as _ <-.
    simpl. now rewrite app_nil_r.
  - cbn [write_groups existsb] in H. cbn [written_groups filter].
    destruct (data_list data g) as [|r rs] eqn:Hd.
    + apply IH in H. exact H.
    + destruct (render g (r :: rs)) as [ws|e]; [|discriminate].
      apply IH in H. rewrite H. unfold create_sheet, sheetnames.
      rewrite map_app. simpl. now rewrite <- app_assoc.
Qed.

Lemma kept_names (old_sheets : workbook) :
  sheetnames (kept old_sheets)
  = filter (fun name => negb (owned name)) (sheetnames old_sheets).
Proof.
  unfold kept, sheetnames. induction old_sheets as [|[name ws] rest IH];
    simpl; [reflexivity|].
  destruct (owned name); simpl; now rewrite IH.
Qed.

Lemma carried_over_names (disk : Disk) (lines : list msg) :
  sheetnames (fst (carried_over disk lines))
  = filter (fun name => negb (owned name))
           (sheetnames (stored_sheets (report disk))).
Proof.
  unfold carried_over. destruct (report disk) as [| |old_book]; simpl;
    try reflexivity.
  rewrite preserve_sheets_kept. simpl. apply kept_names.
Qed.

Lemma sheet_not_named (title : string) (book : workbook) :
  ~ In title (sheetnames book) -> sheet title book = None.
Proof.
  intros H. apply sheet_absent.
  destruct (existsb (String.eqb title) (sheetnames book)) eqn:He; [|reflexivity].
  apply existsb_exists in He. destruct He as (n & Hin & Heq).
  apply String.eqb_eq in Heq. subst. contradiction.
Qed.

Lemma write_report_new_names (cfg : config) (env : Env) (disk : Disk)
    (st : scan_state) (lines : list msg) (d : Disk) (out : list msg) :
  write_report_new cfg env disk st lines = Returned d out ->
  ~ In MsgWriteError out ->
  exists new_book,
    report d = Stored new_book
    /\ sheetnames new_book
       = filter (fun name => negb (owned name))
                (sheetnames (stored_sheets (report disk)))
         ++ map sheet_name
              (written_groups (data_by_prefetcher st)
                 (Sort.sorted ltb (Dict.keys (data_by_prefetcher st)))).
Proof.
  intros H Hno. apply write_report_new_success in H; [|exact Hno].
  destruct H as (lines' & book' & Hgroups & Hd).
  exists book'. split; [exact Hd|].
  apply write_groups_names in Hgroups. rewrite Hgroups.
  now rewrite carried_over_names.
Qed.




(** A report whose [raw_] sheet belongs to a group that is gone from the
    tree. *)
Definition stale_book : workbook :=
  [("raw_pref_l2_gone", notes_sheet)].

Definition stale_disk : Disk :=
  {| output_dir := true;
     processed_log := Missing;
     data_cache := Missing;
     report := Stored stale_book;
     temp_report := Missing |}.


(** ** The rows of a sheet *)

Section SheetRows.

Lemma rows_of_nil (L : list string) :
  flat_map (fun e => rows_of e []) L = [].
Proof. induction L as [|e L IH]; simpl; auto. Qed.

Lemma rows_of_cons (e e0 : string) (r : metrics) (rs : list metrics) :
  Dict.get "Experiment" r = Some (VStr e0) ->
  rows_of e (r :: rs)
  = if String.eqb e0 e then r :: rows_of e rs else rows_of e rs.
Proof. intros Hr. unfold rows_of. cbn [filter]. now rewrite Hr. Qed.

Lemma rows_of_other (r : metrics) (rs : list metrics) (e0 : string)
    (L : list string) :
  Dict.get "Experiment" r = Some (VStr e0) -> ~ In e0 L ->
  flat_map (fun e => rows_of e (r :: rs)) L
  = flat_map (fun e => rows_of e rs) L.
Proof.
  intros Hr. induction L as [|e L IH]; cbn [flat_map]; [reflexivity|].
  intros Hnot. rewrite IH by (simpl in Hnot; tauto).
  rewrite (rows_of_cons e e0 r rs Hr).
  destruct (String.eqb_spec e0 e) as [->|_]; [|reflexivity].
  exfalso. apply Hnot. simpl. auto.
Qed.

Lemma rows_of_insert (r : metrics) (rs : list metrics) (e0 : string)
    (L : list string) :
  Dict.get "Experiment" r = Some (VStr e0) -> NoDup L -> In e0 L ->
  Permutation (flat_map (fun e => rows_of e (r :: rs)) L)
              (r :: flat_map (fun e => rows_of e rs) L).
Proof.
  intros Hr. induction L as [|e L IH]; cbn [flat_map]; [simpl; tauto|].
  intros Hnd Hin. inversion Hnd as [|? ? Hnot Hnd']; subst.
  rewrite (rows_of_cons e e0 r rs Hr).
  destruct (String.eqb_spec e0 e) as [->|Hne].
  - rewrite (rows_of_other r rs e L Hr Hnot). reflexivity.
  - destruct Hin as [Heq|Hin]; [congruence|].
    rewrite (IH Hnd' Hin). symmetry. apply Permutation_middle.
Qed.

Lemma rows_partition (L : list string) (records : list metrics) :
  NoDup L ->
  (forall r, In r records ->
     exists e, In e L /\ Dict.get "Experiment" r = Some (VStr e)) ->
  Permutation (flat_map (fun e => rows_of e records) L) records.
Proof.
  intros Hnd. induction records as [|r rs IH]; intros Hall.
  - now rewrite rows_of_nil.
  - destruct (Hall r (or_introl eq_refl)) as (e0 & Hin & Hr).
    rewrite (rows_of_insert r rs e0 L Hr Hnd Hin).
    constructor. apply IH. intros r' Hr'. apply Hall. simpl. auto.
Qed.

Lemma experiment_column_all (records : list metrics) :
  forall es, experiment_column records = Ok es ->
    forall r, In r records ->
      exists e, In e es /\ Dict.get "Experiment" r = Some (VStr e).
Proof.
  induction records as [|r0 rs IH]; intros es H r Hin; [contradiction|].
  simpl in H. unfold experiment_of in H.
  destruct (Dict.get "Experiment" r0) as [[| | |e0]|] eqn:Hr0;
    try discriminate H. simpl in H.
  destruct (experiment_column rs) as [es'|] eqn:Hes; [|discriminate H].
  simpl in H. injection H as <-.
  destruct Hin as [<-|Hin].
  - exists e0. simpl. auto.
  - destruct (IH _ eq_refl r Hin) as (e & He & Hr). exists e. simpl. auto.
Qed.

(** The position of a cell. *)
Definition position (c : cell) : nat * nat := (c_row c, c_col c).

Lemma NoDup_append {A} (l l' : list A) :
  NoDup l -> NoDup l' -> (forall x, In x l -> ~ In x l') -> NoDup (l ++ l').
Proof.
  induction l as [|a l IH]; simpl; intros Hl Hl' Hd; [exact Hl'|].
  inversion Hl as [|? ? Hnot Hl0]; subst. constructor.
  - intros Hin. apply in_app_or in Hin. destruct Hin as [Hin|Hin];
      [contradiction|]. apply (Hd a); auto.
  - apply IH; auto.
Qed.

Lemma write_row_cells (vals : list value) :
  forall row col c, In c (write_row row col vals) ->
                    c_row c = row /\ col <= c_col c.
Proof.
  induction vals as [|v vs IH]; simpl; intros row col c H; [contradiction|].
  destruct H as [<-|H]; [simpl; lia|].
  apply IH in H. lia.
Qed.

Lemma write_row_distinct (vals : list value) :
  forall row col, NoDup (map position (write_row row col vals)).
Proof.
  induction vals as [|v vs IH]; simpl; intros row col; constructor; [|apply IH].
  intros Hin. apply in_map_iff in Hin. destruct Hin as (c & Hpos & Hc).
  apply write_row_cells in Hc. unfold position in Hpos.
  injection Hpos as _ Hcol. simpl in Hcol. lia.
Qed.

Lemma write_rows_cells (rows : list (list value)) :
  forall row c, In c (write_rows row rows) ->
                row <= c_row c < row + List.length rows.
Proof.
  induction rows as [|r rs IH]; simpl; intros row c H; [contradiction|].
  apply in_app_or in H. destruct H as [H|H].
  - apply write_row_cells in H. lia.
  - apply IH in H. lia.
Qed.

Lemma write_rows_distinct (rows : list (list value)) :
  forall row, NoDup (map position (write_rows row rows)).
Proof.
  induction rows as [|r rs IH]; simpl; intros row; [constructor|].
  rewrite map_app. apply NoDup_append;
    [apply write_row_distinct|apply IH|].
  intros pos H1 H2.
  apply in_map_iff in H1. destruct H1 as (c1 & <- & Hc1).
  apply in_map_iff in H2. destruct H2 as (c2 & Hpos & Hc2).
  apply write_row_cells in Hc1. apply write_rows_cells in Hc2.
  unfold position in Hpos. injection Hpos as Hrow _. lia.
Qed.

Variable row_values : metrics -> list value.
Variable records : list metrics.

Lemma write_experiments_cells (exps : list string) :
  forall current_row,
    3 <= current_row ->
    NoDup (map position (write_experiments row_values records exps current_row))
    /\ forall c, In c (write_experiments row_values records exps current_row) ->
                 current_row < c_row c.
Proof.
  unfold write_experiments.
  induction exps as [|e exps IH]; intros cur Hcur; simpl.
  - split; [constructor|contradiction].
  - set (cur' := if (3 <? cur)%nat then cur + 1 else cur).
    assert (Hcur' : cur <= cur') by (unfold cur'; destruct (3 <? cur)%nat; lia).
    set (n := List.length (rows_of e records)).
    destruct (IH (cur' + 1 + n)) as [IHnd IHrows]; [lia|].
    assert (Hdata : forall c,
              In c (write_rows (cur' + 2) (map row_values (rows_of e records))) ->
              cur' + 2 <= c_row c < cur' + 2 + n).
    { intros c Hc. apply write_rows_cells in Hc.
      rewrite length_map in Hc. exact Hc. }
    split.
    + constructor.
      * intros Hin. apply in_map_iff in Hin. destruct Hin as (c & Hpos & Hc).
        unfold position in Hpos. simpl in Hpos. injection Hpos as Hrow _.
        apply in_app_or in Hc. destruct Hc as [Hc|Hc].
        -- apply Hdata in Hc. lia.
        -- apply IHrows in Hc. lia.
      * rewrite map_app. apply NoDup_append;
          [apply write_rows_distinct|exact IHnd|].
        intros pos H1 H2.
        apply in_map_iff in H1. destruct H1 as (c1 & <- & Hc1).
        apply in_map_iff in H2. destruct H2 as (c2 & Hpos & Hc2).
        apply Hdata in Hc1. apply IHrows in Hc2.
        unfold position in Hpos. injection Hpos as Hrow _. lia.
    + intros c [<-|Hc]; [simpl; lia|].
      apply in_app_or in Hc. destruct Hc as [Hc|Hc].
      * apply Hdata in Hc. lia.
      * apply IHrows in Hc. lia.
Qed.

End SheetRows.

(** No record is lost and none is written twice: the rows of the
    experiment blocks of a sheet, block after block, are the records of
    the group, each exactly once. *)
Theorem records_in_one_block (records : list metrics) (exps : list string) :
  experiments records = Ok exps ->
  Permutation (flat_map (fun e => rows_of e records) exps) records.
Proof.
  intros H. destruct (experiments_spec _ _ H) as (Hnd & _ & Hin).
  apply rows_partition; [exact Hnd|].
  unfold experiments in H.
  destruct (experiment_column records) as [es|] eqn:Hes; [|discriminate].
  intros r Hr. destruct (experiment_column_all _ _ Hes r Hr) as (e & _ & He).
  exists e. split; [|exact He]. apply Hin. eauto.
Qed.

Lemma records_in_one_block_witness :
  let a := [("Trace File", VStr "a.out"); ("Experiment", VStr "exp10")] in
  let b := [("Trace File", VStr "b.out"); ("Experiment", VStr "exp2")] in
  let c := [("Trace File", VStr "c.out"); ("Experiment", VStr "exp10")] in
  experiments [a; b; c] = Ok ["exp2"; "exp10"]
  /\ Permutation [b; a; c] [a; b; c].
Proof.
  intros a b c. split; [reflexivity|].
  apply (records_in_one_block [a; b; c] ["exp2"; "exp10"]). reflexivity.
Defined.

(** A sheet is written without a cell being written twice: the main
    header, the column names and the cells of the experiment blocks all
    lie at different positions. *)
Theorem sheet_cells_distinct (columns : list string)
    (row_values : metrics -> list value) (group_key : string)
    (records : list metrics) (ws : worksheet) :
  render_sheet columns row_values group_key records = Ok ws ->
  NoDup (map position (ws_cells ws)).
Proof.
  unfold render_sheet.
  destruct (experiments records) as [exps|]; [|discriminate].
  simpl. intros H. injection H as <-. simpl.
  destruct (write_experiments_cells row_values records exps 3 (le_n 3))
    as [Hnd Hrows].
  constructor.
  - intros Hin. apply in_map_iff in Hin. destruct Hin as (c & Hpos & Hc).
    unfold position in Hpos. simpl in Hpos. injection Hpos as Hrow _.
    apply in_app_or in Hc. destruct Hc as [Hc|Hc].
    + apply write_row_cells in Hc. lia.
    + apply Hrows in Hc. lia.
  - rewrite map_app. apply NoDup_append;
      [apply write_row_distinct|exact Hnd|].
    intros pos H1 H2.
    apply in_map_iff in H1. destruct H1 as (c1 & <- & Hc1).
    apply in_map_iff in H2. destruct H2 as (c2 & Hpos & Hc2).
    apply write_row_cells in Hc1. apply Hrows in Hc2.
    unfold position in Hpos. injection Hpos as Hrow _. lia.
Qed.

(** Two records of the baseline group, of two experiments. *)
Definition two_records : list metrics :=
  [[("Trace File", VStr "a.out"); ("Experiment", VStr "exp10")];
   [("Trace File", VStr "b.out"); ("Experiment", VStr "exp2")]].

Lemma sheet_cells_distinct_witness :
  exists ws,
    render_new "no_pref" two_records = Ok ws
    /\ List.length (ws_cells ws) = 90
    /\ NoDup (map position (ws_cells ws)).
Proof.
  eexists. split; [vm_compute; reflexivity|]. split; [reflexivity|].
  apply (sheet_cells_distinct CollectDataNew.headers row_values_new "no_pref"
           two_records).
  vm_compute. reflexivity.
Defined.

(** ** Header texts *)

Section HeaderText.
Local Open Scope string_scope.

(** No ["_"] in the text. *)
Definition no_underscore (s : string) : bool :=
  all_chars (fun c => negb (Ascii.eqb c "_")) s.

Lemma split_not_nil (sep : ascii) (s : string) : split sep s <> [].
Proof.
  destruct s as [|c s]; simpl; [discriminate|].
  destruct (Ascii.eqb c sep); [discriminate|].
  destruct (split sep s); discriminate.
Qed.

Lemma split_part (a rest : string) :
  no_underscore a = true ->
  split "_" (a ++ String "_" rest) = a :: split "_" rest.
Proof.
  unfold no_underscore. induction a as [|c a IH]; simpl; intros H.
  - reflexivity.
  - apply andb_prop in H. destruct H as [Hc Ha].
    apply negb_true_iff in Hc. rewrite Hc, (IH Ha). reflexivity.
Qed.

Lemma split_whole (a : string) :
  no_underscore a = true -> split "_" a = [a].
Proof.
  unfold no_underscore. induction a as [|c a IH]; simpl; intros H.
  - reflexivity.
  - apply andb_prop in H. destruct H as [Hc Ha].
    apply negb_true_iff in Hc. rewrite Hc, (IH Ha). reflexivity.
Qed.

Lemma join_cons (sep p q : string) (qs : list string) :
  join sep (p :: q :: qs) = p ++ sep ++ join sep (q :: qs).
Proof. reflexivity. Qed.

Lemma join_split (s : string) : join "_" (split "_" s) = s.
Proof.
  induction s as [|c s IH]; [reflexivity|]. cbn [split].
  destruct (split "_" s) as [|p ps] eqn:Hs;
    [now apply split_not_nil in Hs|].
  destruct (Ascii.eqb_spec c "_") as [->|Hne].
  - rewrite join_cons, IH. reflexivity.
  - destruct ps as [|p' ps'].
    + simpl in *. now rewrite IH.
    + rewrite join_cons in *. rewrite <- IH. reflexivity.
Qed.

End HeaderText.

(** [str.split] and [str.join] undo each other on ["_"], and with them
    the main header of a sheet reads as follows. For a group key
    [a_b_p], as [pref_l1] with a prefetcher [p] gives, the header names
    [p] (capitalised, its own underscores kept) at level [B]. For a key
    [a_b] of two parts it names [a] as the prefetcher and [B] as the
    level. *)
Theorem main_header_of_parts :
  (forall s, join "_" (split "_" s) = s)
  /\ (forall a b p,
      no_underscore a = true -> no_underscore b = true ->
      main_header_text (a ++ "_" ++ b ++ "_" ++ p)%string
      = ("Data Prefetcher: " ++ capitalize p ++ " at " ++ upper b)%string)
  /\ (forall a b,
      no_underscore a = true -> no_underscore b = true ->
      (a ++ "_" ++ b)%string <> "no_pref" ->
      main_header_text (a ++ "_" ++ b)%string
      = ("Data Prefetcher: " ++ capitalize a ++ " at " ++ upper b)%string).
Proof.
  split; [exact join_split|]. split.
  - intros a b p Ha Hb. unfold main_header_text.
    assert (Hsplit : split "_" (a ++ "_" ++ b ++ "_" ++ p)%string
                     = a :: b :: split "_" p).
    { change (a ++ "_" ++ b ++ "_" ++ p)%string
        with (a ++ String "_" (b ++ String "_" p))%string.
      now rewrite !split_part. }
    destruct (String.eqb_spec (a ++ "_" ++ b ++ "_" ++ p)%string "no_pref")
      as [Heq|_].
    + apply (f_equal (split "_")) in Heq. rewrite Hsplit in Heq.
      vm_compute in Heq. injection Heq as _ _ Heq.
      now apply split_not_nil in Heq.
    + rewrite Hsplit.
      destruct (split "_" p) as [|q qs] eqn:Hp;
        [now apply split_not_nil in Hp|].
      rewrite <- Hp, join_split. reflexivity.
  - intros a b Ha Hb Hne. unfold main_header_text.
    destruct (String.eqb_spec (a ++ "_" ++ b)%string "no_pref") as [Heq|_];
      [contradiction|].
    change (a ++ "_" ++ b)%string with (a ++ String "_" b)%string.
    rewrite split_part, split_whole by assumption. reflexivity.
Qed.

Lemma main_header_of_parts_witness :
  main_header_text "pref_l1_ip_stride" = "Data Prefetcher: Ip_stride at L1"
  /\ main_header_text "l1d_berti" = "Data Prefetcher: L1d at BERTI".
Proof.
  split.
  - apply (proj1 (proj2 main_header_of_parts) "pref" "l1" "ip_stride");
      reflexivity.
  - apply (proj2 (proj2 main_header_of_parts) "l1d" "berti");
      [reflexivity|reflexivity|discriminate].
Defined.

(** ** Which files the extractor is called on *)

Section ExtractorCalls.

Variable parse : (string -> option string) -> string -> result (option metrics).
Variable env : Env.
Variable cached_data : Dict.dict (Dict.dict metrics).

(** The file's modification time is not the one [log] holds for it. *)
Definition stale (log : Dict.dict mtime) (j : job) : bool :=
  negb (up_to_date env log (job_path j)).

Lemma up_to_date_get (log log' : Dict.dict mtime) (p : string) :
  Dict.get p log' = Dict.get p log ->
  up_to_date env log' p = up_to_date env log p.
Proof. unfold up_to_date, unchanged. now intros ->. Qed.

Lemma run_calls_stale (js : list job) :
  forall st st', run_jobs parse env cached_data js st = Ok st' ->
    NoDup (map job_path js) ->
    parse_calls st'
    = parse_calls st ++ map job_path (filter (stale (processed_files_log st)) js)
    /\ new_files_count st'
       = new_files_count st
         + List.length (filter (stale (processed_files_log st)) js).
Proof.
  induction js as [|j js IH]; intros st st' H Hnd.
  - simpl in H. injection H as <-. simpl. rewrite app_nil_r. auto.
  - apply run_cons in H. destruct H as (st1 & Hstep & Hrun).
    simpl in Hnd. inversion Hnd as [|? ? Hnotin Hnd']; subst.
    destruct (IH _ _ Hrun Hnd') as [Hc Hn].
    assert (Hsame : filter (stale (processed_files_log st1)) js
                    = filter (stale (processed_files_log st)) js).
    { apply filter_ext_in. intros j' Hin. unfold stale. f_equal.
      apply up_to_date_get.
      assert (Hne : job_path j <> job_path j').
      { intros Heq. apply Hnotin. rewrite Heq. now apply in_map. }
      now destruct (step_frame _ _ _ _ _ _ _ Hstep Hne) as [_ ->]. }
    rewrite Hsame in Hc, Hn. rewrite Hc, Hn. clear Hc Hn Hsame.
    assert (Hj : stale (processed_files_log st) j
                 = negb (up_to_date env (processed_files_log st) (job_path j)))
      by reflexivity.
    cbn [filter]. rewrite Hj.
    destruct Hstep as [Hup Hd Hl Hn1 Hs1 Hp Hc1|Hup Hparse Hd Hl Hn1 Hs1 Hp Hc1
         |m Hup Hparse Hm Hd Hl Hn1 Hs1 Hp Hc1|Hup Hparse Hd Hl Hn1 Hs1 Hp Hc1];
      rewrite Hup, Hc1, Hn1; cbn [negb map List.length];
      rewrite <- ?app_assoc; cbn [app]; split; try reflexivity; lia.
Qed.

End ExtractorCalls.

(** The extractor is called on exactly the files whose modification time
    is not the one the log holds, once each and in scan order (the
    directories as [os.walk] gives them, the files of a directory
    sorted); these are the files counted as new. *)
Theorem extractor_calls_exact
    (parse : (string -> option string) -> string -> result (option metrics))
    (cfg : config) (env : Env) (cached_data : Dict.dict (Dict.dict metrics))
    (log0 : Dict.dict mtime) dirs (st : scan_state) :
  NoDup (map job_path (jobs cfg dirs)) ->
  scan parse cfg env cached_data dirs (initial_state log0) = Ok st ->
  parse_calls st = map job_path (filter (stale env log0) (jobs cfg dirs))
  /\ new_files_count st = List.length (filter (stale env log0) (jobs cfg dirs)).
Proof.
  rewrite scan_jobs. intros Hnd H.
  apply run_calls_stale in H; [|exact Hnd]. exact H.
Qed.

Lemma extractor_calls_exact_witness :
  exists st,
    scan CollectData.parse_champsim_file collect_data_config example_env []
      example_walk
      (initial_state [("../results/pref_l1/berti/exp1/trace_b.out", 1700000000%Z);
                      ("../results/no_pref/exp2/trace_c.out", 1600000000%Z)])
    = Ok st
    /\ parse_calls st = ["../results/pref_l1/berti/exp1/trace_a.out";
                         "../results/no_pref/exp2/trace_c.out"].
Proof.
  eexists. split; [vm_compute; reflexivity|].
  match goal with |- parse_calls ?s = _ =>
    destruct (extractor_calls_exact CollectData.parse_champsim_file
                collect_data_config example_env []
                [("../results/pref_l1/berti/exp1/trace_b.out", 1700000000%Z);
                 ("../results/no_pref/exp2/trace_c.out", 1600000000%Z)]
                example_walk s) as [Hc _] end.
  - vm_compute. repeat constructor; simpl; intuition discriminate.
  - vm_compute. reflexivity.
  - rewrite Hc. reflexivity.
Defined.

(** ** Where the experiment blocks lie *)

Section BlockLayout.

Variable row_values : metrics -> list value.
Variable records : list metrics.

Local Abbreviation blocks_from := (experiment_blocks row_values records).

Lemma first_block_row (exps : list string) (current_row : nat) (b : block)
    (rest : list block) :
  blocks_from exps current_row = b :: rest ->
  b_header_row b
  = (if (3 <? current_row)%nat then current_row + 2 else current_row + 1)
  /\ b_rows b
     = write_rows (b_header_row b + 1)
         (map row_values (rows_of (b_experiment b) records))
  /\ exists exps',
       rest = blocks_from exps'
                (b_header_row b
                 + List.length (rows_of (b_experiment b) records)).
Proof.
  destruct exps as [|e exps]; [discriminate|]. cbn [experiment_blocks].
  intros H. injection H as <- <-. cbn [b_header_row b_rows b_experiment].
  destruct (3 <? current_row)%nat.
  - split; [lia|]. split; [f_equal; lia|]. exists exps. f_equal.
  - split; [lia|]. split; [f_equal; lia|]. exists exps. f_equal.
Qed.

Lemma next_block_row (exps : list string) :
  forall current_row i b1 b2,
    3 <= current_row ->
    nth_error (blocks_from exps current_row) i = Some b1 ->
    nth_error (blocks_from exps current_row) (S i) = Some b2 ->
    b_header_row b2
    = b_header_row b1 + List.length (rows_of (b_experiment b1) records) + 2.
Proof.
  induction exps as [|e exps IH]; intros cur i b1 b2 Hcur H1 H2.
  - destruct i; discriminate H1.
  - destruct (blocks_from (e :: exps) cur) as [|b rest] eqn:Hb;
      [destruct i; discriminate H1|].
    pose proof Hb as Hb'. apply first_block_row in Hb'.
    destruct Hb' as (Hrow & _ & exps' & Hrest).
    assert (Hnext : 3 < b_header_row b
                        + List.length (rows_of (b_experiment b) records)).
    { destruct (3 <? cur)%nat; lia. }
    cbn [experiment_blocks] in Hb. injection Hb as Hbdef Hrestdef.
    destruct i as [|i].
    + simpl in H1. injection H1 as <-. simpl in H2.
      destruct rest as [|b' rest']; [discriminate H2|].
      simpl in H2. injection H2 as <-.
      symmetry in Hrest.
      apply first_block_row in Hrest. destruct Hrest as (Hrow' & _).
      apply Nat.ltb_lt in Hnext. rewrite Hnext in Hrow'. lia.
    + simpl in H1, H2. rewrite <- Hrestdef in H1, H2.
      eapply IH; [|eauto|eauto].
      rewrite <- Hbdef in Hnext. cbn [b_header_row b_experiment] in Hnext.
      destruct (3 <? cur)%nat; lia.
Qed.

End BlockLayout.

(** The rows of a sheet: the header of the first experiment is on row 4,
    under the column names of row 3; the records of an experiment fill the
    rows right under its header, one each; and the header of the next
    experiment comes after one empty row. *)
Theorem block_layout (row_values : metrics -> list value)
    (records : list metrics) (exps : list string) :
  let blocks := experiment_blocks row_values records exps 3 in
  (forall b, nth_error blocks 0 = Some b -> b_header_row b = 4)
  /\ (forall b c, In b blocks -> In c (b_rows b) ->
        b_header_row b < c_row c
        <= b_header_row b + List.length (rows_of (b_experiment b) records))
  /\ (forall i b1 b2,
        nth_error blocks i = Some b1 -> nth_error blocks (S i) = Some b2 ->
        b_header_row b2
        = b_header_row b1 + List.length (rows_of (b_experiment b1) records) + 2).
Proof.
  intros blocks. split; [|split].
  - intros b Hb. subst blocks.
    destruct (experiment_blocks row_values records exps 3) as [|b0 rest] eqn:H;
      [discriminate Hb|].
    simpl in Hb. injection Hb as <-.
    apply first_block_row in H. destruct H as (-> & _). reflexivity.
  - subst blocks. generalize 3 as current_row.
    induction exps as [|e exps IH]; intros cur b c Hb Hc; [contradiction|].
    destruct (experiment_blocks row_values records (e :: exps) cur)
      as [|b0 rest] eqn:H; [contradiction|].
    pose proof H as H'. apply first_block_row in H'.
    destruct H' as (_ & Hrows & _).
    cbn [experiment_blocks] in H. injection H as Hb0 Hrest.
    destruct Hb as [<-|Hb].
    + rewrite Hrows in Hc. apply write_rows_cells in Hc.
      rewrite length_map in Hc. lia.
    + rewrite <- Hrest in Hb. eapply IH; eauto.
  - intros i b1 b2. apply next_block_row. apply le_n.
Qed.

Lemma block_layout_witness :
  map b_header_row (experiment_blocks row_values_new two_records ["exp2"; "exp10"] 3)
  = [4; 7].
Proof.
  destruct (block_layout row_values_new two_records ["exp2"; "exp10"])
    as (Hfirst & _ & Hnext).
  destruct (experiment_blocks row_values_new two_records ["exp2"; "exp10"] 3)
    as [|b1 [|b2 [|b3 rest]]] eqn:Hb; try (vm_compute in Hb; discriminate Hb).
  simpl. rewrite (Hnext 0 b1 b2 eq_refl eq_refl), (Hfirst b1 eq_refl).
  vm_compute in Hb. injection Hb as <- <-. reflexivity.
Defined.

(** ** What the run decides by *)


(** The log of a full run is there; the report and the data cache are
    gone. *)
Definition log_only_disk : Disk :=
  {| output_dir := true;
     processed_log :=
       Stored [("../results/pref_l1/berti/exp1/trace_a.out", 1700000000%Z);
               ("../results/pref_l1/berti/exp1/trace_b.out", 1700000000%Z);
               ("../results/no_pref/exp2/trace_c.out", 1700000000%Z)];
     data_cache := Missing;
     report := Missing;
     temp_report := Missing |}.


(** ** Saving the cache files *)

Lemma persist_caches_files (cfg : config) (env : Env) (disk : Disk)
    (st : scan_state) (lines : list msg) (d : Disk) (out : list msg) :
  persist_caches cfg env disk st lines = Returned d out ->
  In MsgSuccess out
  /\ report d = report disk
  /\ data_cache d
     = fst (save_json_data env (DATA_CACHE_FILE cfg)
              (pop_is_new (data_by_prefetcher st)) (data_cache disk))
  /\ processed_log d
     = fst (save_json_data env (PROCESSED_LOG_FILE cfg)
              (processed_files_log st) (processed_log disk)).
Proof.
  unfold persist_caches.
  destruct (save_json_data env (DATA_CACHE_FILE cfg) _ _) as [cache w1].
  destruct (save_json_data env (PROCESSED_LOG_FILE cfg) _ _) as [log w2].
  intros H. injection H as <- <-. simpl. repeat split.
  rewrite !in_app_iff. simpl. tauto.
Qed.

Lemma write_report_old_saved (cfg : config) (env : Env) (disk : Disk)
    (st : scan_state) (lines : list msg) (d : Disk) (out : list msg) :
  write_report_old cfg env disk st lines = Returned d out ->
  ~ In MsgWriteError out ->
  exists disk' lines',
    persist_caches cfg env disk' st lines' = Returned d out
    /\ data_cache disk' = data_cache disk
    /\ processed_log disk' = processed_log disk.
Proof.
  unfold write_report_old. intros H Hno.
  assert (Hbad : forall l, out = l ++ [MsgWriteError] -> False).
  { intros l ->. apply Hno. apply in_or_app. simpl. auto. }
  destruct (report disk) as [| |old_book];
    try (injection H as _ <-; exfalso; eapply Hbad; reflexivity);
    destruct (write_groups_old _ _ _ _ lines) as [lines' [book|e]];
    try (injection H as _ <-; exfalso; eapply Hbad; reflexivity);
    destruct (book_save env (EXCEL_OUTPUT_PATH cfg) book);
    try (injection H as _ <-; exfalso; eapply Hbad; reflexivity);
    eexists; eexists; (split; [exact H|split; reflexivity]).
Qed.

Lemma write_report_new_saved (cfg : config) (env : Env) (disk : Disk)
    (st : scan_state) (lines : list msg) (d : Disk) (out : list msg) :
  write_report_new cfg env disk st lines = Returned d out ->
  ~ In MsgWriteError out ->
  exists disk' lines',
    persist_caches cfg env disk' st lines' = Returned d out
    /\ data_cache disk' = data_cache disk
    /\ processed_log disk' = processed_log disk.
Proof.
  rewrite write_report_new_unfold. intros H Hno.
  assert (Hbad : forall l, out = l ++ [MsgWriteError] -> False).
  { intros l ->. apply Hno. apply in_or_app. simpl. auto. }
  destruct (write_groups_new _ _ _ _) as [lines' [book|e]];
    try (injection H as _ <-; exfalso; eapply Hbad; reflexivity).
  destruct (book_save env (TEMP_OUTPUT_PATH cfg) book);
    try (injection H as _ <-; exfalso; eapply Hbad; reflexivity).
  destruct (move env);
    try (injection H as _ <-; exfalso; eapply Hbad; reflexivity).
  eexists; eexists; (split; [exact H|split; reflexivity]).
Qed.

(** A cache file that cannot be written costs a warning, not the run:
    once the workbook is in place the run ends with the success line, and
    each of the two cache files is what its own [save_json_data] left,
    the one written or not whatever became of the other. *)
Theorem save_failure_is_warning :
  (forall env disk dirs st d out,
      walk env = Some dirs ->
      scan_of CollectData.parse_champsim_file collect_data_config env disk dirs
      = Ok st ->
      new_files_count st <> 0 ->
      collect_data_main env disk = Returned d out -> ~ In MsgWriteError out ->
      In MsgSuccess out
      /\ data_cache d
         = fst (save_json_data env (DATA_CACHE_FILE collect_data_config)
                  (pop_is_new (data_by_prefetcher st)) (data_cache disk))
      /\ processed_log d
         = fst (save_json_data env (PROCESSED_LOG_FILE collect_data_config)
                  (processed_files_log st) (processed_log disk)))
  /\ (forall env disk dirs st d out,
      walk env = Some dirs ->
      scan_of CollectDataNew.parse_champsim_file collect_data_new_config env
        disk dirs = Ok st ->
      new_files_count st <> 0 ->
      collect_data_new_main env disk = Returned d out -> ~ In MsgWriteError out ->
      In MsgSuccess out
      /\ data_cache d
         = fst (save_json_data env (DATA_CACHE_FILE collect_data_new_config)
                  (pop_is_new (data_by_prefetcher st)) (data_cache disk))
      /\ processed_log d
         = fst (save_json_data env (PROCESSED_LOG_FILE collect_data_new_config)
                  (processed_files_log st) (processed_log disk))).
Proof.
  split; intros env disk dirs st d out Hwalk Hscan Hnew Hmain Hno.
  - unfold collect_data_main in Hmain.
    rewrite (main_after_scan _ _ _ _ _ _ _ Hwalk Hscan) in Hmain.
    destruct (Nat.eqb_spec (new_files_count st) 0) as [|_]; [contradiction|].
    apply write_report_old_saved in Hmain; [|exact Hno].
    destruct Hmain as (disk' & lines' & Hp & Hc & Hl).
    apply persist_caches_files in Hp. destruct Hp as (Hs & _ & Hc' & Hl').
    rewrite Hc', Hl', Hc, Hl. auto.
  - unfold collect_data_new_main in Hmain.
    rewrite (main_after_scan _ _ _ _ _ _ _ Hwalk Hscan) in Hmain.
    destruct (Nat.eqb_spec (new_files_count st) 0) as [|_]; [contradiction|].
    apply write_report_new_saved in Hmain; [|exact Hno].
    destruct Hmain as (disk' & lines' & Hp & Hc & Hl).
    apply persist_caches_files in Hp. destruct Hp as (Hs & _ & Hc' & Hl').
    rewrite Hc', Hl', Hc, Hl. auto.
Qed.

(** The example tree on a disk that takes the workbook and the log but
    refuses the data cache. *)
Definition cacheless_env : Env :=
  {| walk := Some example_walk;
     getmtime := fun _ => 1700000000%Z;
     read := fun _ => Some "CPU 0 cumulative IPC: 1.234";
     json_write := fun p => if String.eqb p "../Extracted_Data/.data_cache.json"
                            then WriteRefused else WriteOk;
     book_save := fun _ _ => WriteOk;
     move := WriteOk |}.

Lemma save_failure_is_warning_witness :
  exists d out st,
    collect_data_main cacheless_env empty_disk = Returned d out
    /\ In MsgSuccess out
    /\ In (MsgSaveWarning "../Extracted_Data/.data_cache.json") out
    /\ data_cache d = Missing
    /\ processed_log d = Stored (processed_files_log st).
Proof.
  destruct (collect_data_main cacheless_env empty_disk) as [d out|d e] eqn:Hm;
    [|vm_compute in Hm; discriminate Hm].
  destruct (scan_of CollectData.parse_champsim_file collect_data_config
              cacheless_env empty_disk example_walk) as [st|e] eqn:Hs;
    [|vm_compute in Hs; discriminate Hs].
  destruct (proj1 save_failure_is_warning cacheless_env empty_disk
              example_walk st d out eq_refl Hs) as (Hok & Hc & Hl).
  - vm_compute in Hs. injection Hs as <-. discriminate.
  - exact Hm.
  - vm_compute in Hm. injection Hm as _ <-. simpl. intuition discriminate.
  - exists d, out, st. split; [reflexivity|]. split; [exact Hok|].
    split; [vm_compute in Hm; injection Hm as _ <-; simpl; tauto|].
    split; [rewrite Hc; reflexivity|rewrite Hl; reflexivity].
Defined.

(** ** [create_plots.py]: the state machine of the dialogue

    The script asks its questions through five state functions, driven by
    [run_state] over the global [state_machine]. What a state function
    returns decides the move: ['BACK'], ['FINISHED'], [None] (the question
    is asked again) or a dict of answers. The state functions read the
    terminal and the workbook; here the loop is run on the results they
    return, in order. *)

Module CreatePlots.

(** What a state function returns. *)
Inductive state_result : Type :=
| Back                                     (* 'BACK' *)
| Finished                                 (* 'FINISHED' *)
| Nothing                                  (* None *)
| Answers (entries : Dict.dict value).     (* a dict *)

Record state_machine : Type := {
  current_state : nat;
  history : list nat;
  data : Dict.dict value
}.

(** [{ 'current_state': 0, 'history': [], 'data': {} }] *)
Definition initial_machine : state_machine :=
  {| current_state := 0; history := []; data := Dict.empty |}.

(** [data.update(result)] *)
Definition update (d entries : Dict.dict value) : Dict.dict value :=
  fold_left (fun acc e => Dict.set (fst e) (snd e) acc) entries d.

(** [run_state], on the result of the call [state_func(data)]. *)
Definition run_state (m : state_machine) (result : state_result)
  : state_machine :=
  match result with
  | Back =>
      match history m with
      | [] => m                              (* if state_machine['history']: *)
      | _ :: _ =>
          {| current_state := last (history m) 0;      (* history.pop() *)
             history := removelast (history m);
             data := data m |}
      end
  | Finished =>
      {| current_state := 999; history := history m; data := data m |}
  | Nothing => m
  | Answers entries =>
      {| current_state := current_state m + 1;
         history := history m ++ [current_state m];
         data := update (data m) entries |}
  end.

(** [len(states)] *)
Definition n_states : nat := 5.

(** [while state_machine['current_state'] < len(states): run_state(...)],
    on the results the successive calls return. *)
Fixpoint run (m : state_machine) (results : list state_result)
  : state_machine :=
  match results with
  | [] => m
  | r :: rest =>
      if (current_state m <? n_states)%nat then run (run_state m r) rest
      else m
  end.

(** [get_user_input], on the line the user typed. *)
Definition get_user_input (response : string) : string :=
  if String.eqb (lower response) "back" then "BACK" else response.

(** [state_1_select_plot_type], on the line the user typed; [Nothing]
    comes with the line "Invalid input." on the terminal. *)
Definition state_1_select_plot_type (typed : string) : state_result :=
  let response := get_user_input typed in
  if String.eqb response "single" || String.eqb response "grouped"
  then Answers [("plot_type", VStr response)]
  else if String.eqb response "BACK" then Back
  else Nothing.

End CreatePlots.

Section Dialogue.
Import CreatePlots.

(** The history lists the states passed, [0] to the one before the
    current. *)
Definition in_step (m : state_machine) : Prop :=
  current_state m = 999 \/ history m = seq 0 (current_state m).

Lemma run_state_in_step (m : state_machine) (r : state_result) :
  current_state m < n_states -> in_step m -> in_step (run_state m r).
Proof.
  intros Hlt [H999|Hh]; [unfold n_states in Hlt; lia|].
  destruct r; simpl.
  - destruct (current_state m) as [|k] eqn:Hk.
    + simpl in Hh. rewrite Hh. right. now rewrite Hk.
    + rewrite Hh. rewrite seq_S. simpl.
      destruct (seq 0 k ++ [k]) as [|x l] eqn:Hl;
        [now destruct (seq 0 k)|].
      rewrite <- Hl. right. simpl.
      rewrite last_last, removelast_last. reflexivity.
  - now left.
  - now right.
  - right. simpl. rewrite Hh, Nat.add_1_r, seq_S. reflexivity.
Qed.

Lemma run_in_step (results : list state_result) :
  forall m, in_step m -> in_step (run m results).
Proof.
  induction results as [|r rest IH]; intros m Hm; simpl; [exact Hm|].
  destruct (Nat.ltb_spec (current_state m) n_states) as [Hlt|_]; [|exact Hm].
  apply IH. now apply run_state_in_step.
Qed.

Lemma run_state_back (m : state_machine) :
  history m <> [] ->
  run_state m Back
  = {| current_state := last (history m) 0;
       history := removelast (history m);
       data := data m |}.
Proof. unfold run_state. destruct (history m); congruence. Qed.

Lemma run_state_back_first (m : state_machine) :
  history m = [] -> run_state m Back = m.
Proof. unfold run_state. now intros ->. Qed.

Lemma last_seq (k : nat) : last (seq 0 (S k)) 0 = k.
Proof. rewrite seq_S. apply last_last. Qed.

End Dialogue.

(** Going back is going to the question before: however the dialogue of
    [create_plots.py] has gone, while it is at one of its five questions
    the history holds the states [0] to the one before the current one, so
    ['BACK'] leads to the question just before (and at the first question
    changes nothing), leaving the answers given so far in place. *)
Theorem back_is_one_step (results : list CreatePlots.state_result)
    (m : CreatePlots.state_machine) :
  m = CreatePlots.run CreatePlots.initial_machine results ->
  CreatePlots.current_state m < CreatePlots.n_states ->
  CreatePlots.history m = seq 0 (CreatePlots.current_state m)
  /\ CreatePlots.current_state (CreatePlots.run_state m CreatePlots.Back)
     = CreatePlots.current_state m - 1
  /\ CreatePlots.data (CreatePlots.run_state m CreatePlots.Back)
     = CreatePlots.data m.
Proof.
  intros -> Hlt.
  pose proof (run_in_step results CreatePlots.initial_machine
                (or_intror eq_refl)) as Hstep.
  set (m := CreatePlots.run CreatePlots.initial_machine results) in *.
  destruct Hstep as [H999|Hh];
    [unfold CreatePlots.n_states in Hlt; lia|].
  split; [exact Hh|].
  destruct (CreatePlots.current_state m) as [|k] eqn:Hk.
  - rewrite run_state_back_first by exact Hh. now rewrite Hk.
  - rewrite run_state_back by (rewrite Hh, seq_S; now destruct (seq 0 k)).
    cbn [CreatePlots.current_state CreatePlots.data].
    rewrite Hh, last_seq. split; [lia|reflexivity].
Qed.

Lemma back_is_one_step_witness :
  let m := CreatePlots.run CreatePlots.initial_machine
             [CreatePlots.Answers [];
              CreatePlots.Answers [("plot_type", VStr "single")];
              CreatePlots.Nothing] in
  CreatePlots.current_state m = 2
  /\ CreatePlots.current_state (CreatePlots.run_state m CreatePlots.Back) = 1
  /\ Dict.get "plot_type"
       (CreatePlots.data (CreatePlots.run_state m CreatePlots.Back))
     = Some (VStr "single").
Proof.
  intros m. split; [reflexivity|].
  destruct (back_is_one_step _ m eq_refl) as (_ & Hc & Hd).
  - vm_compute. lia.
  - split; [exact Hc|]. rewrite Hd. reflexivity.
Defined.

(** The question for the plot type takes [single] and [grouped] as
    written, in lower case only, and moves on with the answer stored; it
    takes [back] in any letter case and returns to the welcome state; on
    any other line it stays where it is, to ask again. *)
Theorem plot_type_question (m : CreatePlots.state_machine) (typed : string) :
  CreatePlots.current_state m = 1 -> CreatePlots.history m = [0] ->
  let m' := CreatePlots.run_state m
              (CreatePlots.state_1_select_plot_type typed) in
  (typed = "single" \/ typed = "grouped" ->
   CreatePlots.current_state m' = 2
   /\ Dict.get "plot_type" (CreatePlots.data m') = Some (VStr typed))
  /\ (lower typed = "back" ->
      CreatePlots.current_state m' = 0
      /\ CreatePlots.data m' = CreatePlots.data m)
  /\ (typed <> "single" -> typed <> "grouped" -> lower typed <> "back" ->
      m' = m).
Proof.
  intros Hc Hh m'. subst m'.
  unfold CreatePlots.state_1_select_plot_type, CreatePlots.get_user_input.
  split; [|split].
  - intros [-> | ->]; simpl; rewrite Hc; split; try reflexivity;
      unfold CreatePlots.update; simpl; apply get_set_same.
  - intros Hb. rewrite Hb. simpl. rewrite Hh. simpl. auto.
  - intros H1 H2 H3.
    destruct (String.eqb_spec (lower typed) "back") as [|_]; [contradiction|].
    destruct (String.eqb_spec typed "single") as [|_]; [contradiction|].
    destruct (String.eqb_spec typed "grouped") as [|_]; [contradiction|].
    simpl.
    destruct (String.eqb_spec typed "BACK") as [->|_]; [|reflexivity].
    exfalso. apply H3. reflexivity.
Qed.

Lemma plot_type_question_witness :
  let m := CreatePlots.run CreatePlots.initial_machine [CreatePlots.Answers []] in
  CreatePlots.current_state
    (CreatePlots.run_state m (CreatePlots.state_1_select_plot_type "Back")) = 0
  /\ CreatePlots.run_state m (CreatePlots.state_1_select_plot_type "Single") = m
  /\ CreatePlots.current_state
       (CreatePlots.run_state m (CreatePlots.state_1_select_plot_type "single"))
     = 2.
Proof.
  intros m.
  destruct (plot_type_question m "Back" eq_refl eq_refl) as (_ & Hb & _).
  destruct (plot_type_question m "Single" eq_refl eq_refl) as (_ & _ & Hs).
  destruct (plot_type_question m "single" eq_refl eq_refl) as (Ha & _ & _).
  split; [apply Hb; reflexivity|].
  split; [apply Hs; discriminate|].
  apply Ha. auto.
Defined.

(** ** The header of an experiment *)

Section ExperimentHeader.
Local Open Scope string_scope.

Lemma replace_plain (a : string) :
  no_underscore a = true -> replace_char "_" " " a = a.
Proof.
  unfold no_underscore. induction a as [|c a IH]; simpl; [reflexivity|].
  intros H. apply andb_prop in H. destruct H as [Hc Ha].
  apply negb_true_iff in Hc. now rewrite Hc, IH.
Qed.

Lemma replace_app (a b : string) :
  replace_char "_" " " (a ++ b)
  = replace_char "_" " " a ++ replace_char "_" " " b.
Proof. induction a as [|c a IH]; simpl; [reflexivity|]. now rewrite IH. Qed.

Lemma split_head (p rest : string) :
  no_underscore p = true ->
  rest = "" \/ (exists r, rest = String "_" r) ->
  exists tail, split "_" (p ++ rest) = p :: tail.
Proof.
  intros Hp [-> | [r ->]].
  - rewrite append_empty, split_whole by exact Hp. eauto.
  - rewrite split_part by exact Hp. eauto.
Qed.

End ExperimentHeader.

(** The header of an experiment block: a name of three parts or more,
    [p0_p1_p2...], reads "Experiment n: Replacement Policy P1 at L2 and
    P2 at LLC" with [n] the digits of [p0] and the policies in upper
    case, whatever follows the third part; a name of one or two parts
    makes [exp_parts[2]] raise [IndexError] and reads as the name itself
    in title case, its underscore turned into a blank. *)
Theorem experiment_header_of_parts :
  (forall p0 p1 p2 rest,
      no_underscore p0 = true -> no_underscore p1 = true ->
      no_underscore p2 = true ->
      rest = "" \/ (exists r, rest = String "_" r) ->
      exp_header_text (p0 ++ "_" ++ p1 ++ "_" ++ p2 ++ rest)%string
      = ("Experiment " ++ filter_chars is_digit p0 ++ ": Replacement Policy "
         ++ upper p1 ++ " at L2 and " ++ upper p2 ++ " at LLC")%string)
  /\ (forall a, no_underscore a = true -> exp_header_text a = title a)
  /\ (forall a b,
      no_underscore a = true -> no_underscore b = true ->
      exp_header_text (a ++ "_" ++ b)%string = title (a ++ " " ++ b)%string).
Proof.
  split; [|split].
  - intros p0 p1 p2 rest H0 H1 H2 Hrest. unfold exp_header_text.
    change (p0 ++ "_" ++ p1 ++ "_" ++ p2 ++ rest)%string
      with (p0 ++ String "_" (p1 ++ String "_" (p2 ++ rest)))%string.
    rewrite !split_part by assumption.
    destruct (split_head p2 rest H2 Hrest) as [tail ->]. reflexivity.
  - intros a Ha. unfold exp_header_text.
    rewrite split_whole, replace_plain by exact Ha. reflexivity.
  - intros a b Ha Hb. unfold exp_header_text.
    change (a ++ "_" ++ b)%string with (a ++ String "_" b)%string.
    rewrite split_part, split_whole by assumption.
    rewrite replace_app. simpl. now rewrite !replace_plain.
Qed.

Lemma experiment_header_of_parts_witness :
  exp_header_text "exp1_lru_ship"
  = "Experiment 1: Replacement Policy LRU at L2 and SHIP at LLC"
  /\ exp_header_text "exp10" = "Exp10"
  /\ exp_header_text "exp2_lru" = "Exp2 Lru".
Proof.
  split; [|split].
  - apply (proj1 experiment_header_of_parts "exp1" "lru" "ship" "");
      try reflexivity. now left.
  - apply (proj1 (proj2 experiment_header_of_parts) "exp10"). reflexivity.
  - apply (proj2 (proj2 experiment_header_of_parts) "exp2" "lru");
      reflexivity.
Defined.

(** ** The directories the scan announces *)

(** The directories announced in [out], as printed. *)
Definition announced_lines (out : list msg) : list string :=
  flat_map (fun m => match m with
                     | MsgProcessingDir relative_path => [relative_path]
                     | _ => []
                     end) out.

Section Announce.

Variable parse : (string -> option string) -> string -> result (option metrics).
Variable cfg : config.
Variable env : Env.
Variable cached_data : Dict.dict (Dict.dict metrics).

(** The jobs of the whole scan. *)
Variable all_jobs : list job.

Hypothesis roots : forall j, In j all_jobs ->
  j_root j = (RESULTS_DIR cfg ++ j_relative_path j)%string.

Record announce_inv (st : scan_state) : Prop := {
  ann_dirs : announced_dirs st
             = map (fun rel => (RESULTS_DIR cfg ++ rel)%string)
                   (announced_lines (printed_lines st));
  ann_once : NoDup (announced_dirs st);
  ann_called : forall rel, In rel (announced_lines (printed_lines st)) ->
    exists j, In j all_jobs /\ j_relative_path j = rel
              /\ In (job_path j) (parse_calls st)
}.

Lemma announced_lines_app (a b : list msg) :
  announced_lines (a ++ b) = announced_lines a ++ announced_lines b.
Proof. unfold announced_lines. apply flat_map_app. Qed.

Lemma not_announced (root : string) (dirs : list string) :
  existsb (String.eqb root) dirs = false -> ~ In root dirs.
Proof.
  intros H Hin.
  assert (Ht : existsb (String.eqb root) dirs = true).
  { apply existsb_exists. exists root. split; [exact Hin|apply String.eqb_refl]. }
  congruence.
Qed.

Lemma NoDup_snoc {A} (l : list A) (x : A) :
  NoDup l -> ~ In x l -> NoDup (l ++ [x]).
Proof.
  intros Hl Hx. apply NoDup_append; [exact Hl|repeat constructor; simpl; tauto|].
  intros y Hy [<-|[]]. contradiction.
Qed.

Lemma run_job_announce (st st' : scan_state) (j : job) :
  In j all_jobs ->
  run_job parse env cached_data st j = Ok st' ->
  announce_inv st -> announce_inv st'.
Proof.
  intros Hin H [Hd Ho Hc]. unfold run_job, process_file in H.
  fold (job_path j) in H.
  destruct (unchanged _ _ _).
  - injection H as <-. constructor; assumption.
  - assert (Hcalled : forall rel calls,
              In rel (announced_lines (printed_lines st)) ->
              exists j', In j' all_jobs /\ j_relative_path j' = rel
                         /\ In (job_path j') (parse_calls st ++ calls)).
    { intros rel calls Hrel. destruct (Hc rel Hrel) as (j' & H1 & H2 & H3).
      exists j'. repeat split; auto. apply in_or_app. auto. }
    destruct (existsb (String.eqb (j_root j)) (announced_dirs st)) eqn:Hann;
      destruct (parse (read env) (job_path j)) as [[m|]|e];
      try discriminate H; injection H as <-; constructor; simpl;
      rewrite ?announced_lines_app; simpl; rewrite ?app_nil_r;
      try assumption; try (intros rel Hrel; now apply Hcalled);
      try (rewrite map_app; simpl; rewrite <- Hd, (roots j Hin); reflexivity);
      try (apply NoDup_snoc; [exact Ho|now apply not_announced]);
      intros rel Hrel; apply in_app_or in Hrel;
      (destruct Hrel as [Hrel|[<-|[]]]; [now apply Hcalled|]);
      exists j; repeat split; auto; apply in_or_app; simpl; auto.
Qed.

Lemma run_announce (js : list job) :
  forall st st', incl js all_jobs ->
    run_jobs parse env cached_data js st = Ok st' ->
    announce_inv st -> announce_inv st'.
Proof.
  induction js as [|j js IH]; intros st st' Hincl H Hinv.
  - simpl in H. now injection H as <-.
  - simpl in H.
    destruct (run_job parse env cached_data st j) as [st1|e] eqn:Hj;
      [|discriminate H]. simpl in H.
    apply (IH st1 st'); auto.
    + intros x Hx. apply Hincl. simpl. auto.
    + eapply run_job_announce; eauto. apply Hincl. simpl. auto.
Qed.

End Announce.

Lemma jobs_roots (cfg : config) dirs (j : job) :
  In j (jobs cfg dirs) ->
  j_root j = (RESULTS_DIR cfg ++ j_relative_path j)%string.
Proof.
  unfold jobs. intros H. apply in_flat_map in H.
  destruct H as ([parts files] & _ & H). unfold dir_jobs in H.
  destruct files as [|f files]; [contradiction|].
  destruct (classify parts) as [[g|] [e|]]; try contradiction.
  destruct (truthy (Some g) && truthy (Some e)); [|contradiction].
  apply in_map_iff in H. destruct H as (name & <- & _). reflexivity.
Qed.

(** A directory is announced at most once, and only if the extractor is
    called on one of its files: among the lines "Processing new/modified
    files in: ..." of a scan no directory comes twice, and each names the
    directory of a file given to [parse_champsim_file]. *)
Theorem directory_announced_once
    (parse : (string -> option string) -> string -> result (option metrics))
    (cfg : config) (env : Env) (cached_data : Dict.dict (Dict.dict metrics))
    (log0 : Dict.dict mtime) dirs (st : scan_state) :
  scan parse cfg env cached_data dirs (initial_state log0) = Ok st ->
  NoDup (announced_lines (printed_lines st))
  /\ forall rel, In rel (announced_lines (printed_lines st)) ->
       exists j, In j (jobs cfg dirs) /\ j_relative_path j = rel
                 /\ In (job_path j) (parse_calls st).
Proof.
  rewrite scan_jobs. intros H.
  apply (run_announce parse cfg env cached_data (jobs cfg dirs)
           (jobs_roots cfg dirs)) in H.
  - destruct H as [Hd Ho Hc]. split; [|exact Hc].
    rewrite Hd in Ho. eapply NoDup_map_inv; eauto.
  - apply incl_refl.
  - constructor; simpl; [reflexivity|constructor|contradiction].
Qed.

Lemma directory_announced_once_witness :
  exists st,
    scan CollectData.parse_champsim_file collect_data_config example_env []
      example_walk (initial_state []) = Ok st
    /\ announced_lines (printed_lines st) = ["pref_l1/berti/exp1"; "no_pref/exp2"]
    /\ NoDup (announced_lines (printed_lines st)).
Proof.
  eexists. split; [vm_compute; reflexivity|]. split; [reflexivity|].
  apply (directory_announced_once CollectData.parse_champsim_file
           collect_data_config example_env [] [] example_walk).
  vm_compute. reflexivity.
Defined.

(** ** A report that cannot be read *)

Lemma persist_caches_prefix (cfg : config) (env : Env) (disk : Disk)
    (st : scan_state) (lines : list msg) (d : Disk) (out : list msg) :
  persist_caches cfg env disk st lines = Returned d out ->
  exists extra, out = lines ++ extra.
Proof.
  unfold persist_caches.
  destruct (save_json_data env (DATA_CACHE_FILE cfg) _ _) as [cache w1].
  destruct (save_json_data env (PROCESSED_LOG_FILE cfg) _ _) as [log w2].
  intros H. injection H as _ <-. eauto.
Qed.

Lemma write_report_new_warns (cfg : config) (env : Env) (disk : Disk)
    (st : scan_state) (lines : list msg) (d : Disk) (out : list msg) :
  report disk = Corrupt ->
  write_report_new cfg env disk st lines = Returned d out ->
  In MsgLoadWarning out.
Proof.
  rewrite write_report_new_unfold. unfold carried_over. intros -> H.
  cbn [fst snd] in H.
  destruct (write_groups_new _ _ _ _) as [lines' [book|e]] eqn:Hg;
    apply write_groups_new_lines in Hg; destruct Hg as (extra & -> & _).
  - assert (Hin : forall tail,
              In MsgLoadWarning (((lines ++ [MsgLoadWarning]) ++ extra) ++ tail)).
    { intros tail. rewrite !in_app_iff. simpl. tauto. }
    destruct (book_save env (TEMP_OUTPUT_PATH cfg) book);
      [destruct (move env)| |]; try (injection H as _ <-; apply Hin).
    apply persist_caches_prefix in H. destruct H as [tail ->]. apply Hin.
  - injection H as _ <-. rewrite !in_app_iff. simpl. tauto.
Qed.


(** A first run has left a report that cannot be read. *)
Definition broken_report_disk : Disk :=
  {| output_dir := true;
     processed_log := Missing;
     data_cache := Missing;
     report := Corrupt;
     temp_report := Missing |}.

